(** * cmk.utils.store: file locking and atomic persistence

    A shallow embedding of [cmk/utils/store.py].  The Python functions are
    written as computations in a small state-and-exception monad over a model
    of the operating system (directory entries, inodes, open descriptors,
    [flock] owners), the per-thread lock registries of the module, and an
    environment script that decides which system call fails and how. *)

From Stdlib Require Import NArith Strings.Byte.
From stdpp Require Import gmap strings list fin_maps.

Local Open Scope N_scope.
Local Open Scope nat_scope.

(** ** Exceptions *)

Inductive errno : Set :=
  | ENOENT | EAGAIN | EBADF | EEXIST | EIO | ENOSPC | EACCES | EMFILE.

#[global] Instance errno_eq_dec : EqDecision errno.
Proof. solve_decision. Defined.

(** What the environment can make a system call raise, whatever the state:
    an [OSError] for a failure of the medium or of a limit ([EIO], [ENOSPC],
    [EACCES], [EMFILE]), or one of the exceptions that signal handlers raise
    while the call is in progress.  The errnos that report the state
    ([ENOENT], [EAGAIN], [EBADF], [EEXIST]) come from the semantics of the
    calls only. *)
Inductive fault : Set :=
  | F_EIO
  | F_ENOSPC
  | F_EACCES
  | F_EMFILE
  | F_MKTerminate
  | F_MKTimeout
  | F_KeyboardInterrupt.

(** The message templates of the [MKGeneralException]s raised by the module. *)
Inductive template : Set :=
  | NeedConfigDict       (* "You need to provide a config dictionary ..." *)
  | CannotReadConfig     (* "Cannot read configuration file \"%s\": %s" *)
  | CannotReadFile       (* "Cannot read file \"%s\": %s" *)
  | CannotWriteConfig.   (* "Cannot write configuration file \"%s\": %s" *)

(** [IOError] is [OSError] in Python 3, [FileNotFoundError] is [OSError] with
    errno [ENOENT]. *)
#[warnings="-register-all"] Inductive exn : Set :=
  | OSError (e : errno)
  | MKTerminate
  | MKTimeout
  | KeyboardInterrupt
  | MKGeneralException (m : template) (path : string) (cause : option exn)
  | TypeError (msg : string)
  | UnicodeEncodeError
  | UnicodeDecodeError
  | ValueError
  | KeyError (key : string).

Definition exn_of_fault (f : fault) : exn :=
  match f with
  | F_EIO => OSError EIO
  | F_ENOSPC => OSError ENOSPC
  | F_EACCES => OSError EACCES
  | F_EMFILE => OSError EMFILE
  | F_MKTerminate => MKTerminate
  | F_MKTimeout => MKTimeout
  | F_KeyboardInterrupt => KeyboardInterrupt
  end.

(** [except Exception] catches everything but the [BaseException]-only
    classes. *)
Definition is_Exception (e : exn) : bool :=
  match e with
  | KeyboardInterrupt => false
  | _ => true
  end.

(** ** The operating system *)

Record File : Type := mkFile { content : list byte; perm : N }.

(** [names]: directory entries, path to inode.  [files]: inodes.  [fds]: open
    descriptors, each its own open file description, to inode.  [flocks]: the
    descriptor whose open file description owns the exclusive [flock] of an
    inode. *)
Record OS : Type := mkOS {
  names : gmap string nat;
  files : gmap nat File;
  fds : gmap nat nat;
  flocks : gmap nat nat
}.

Definition fresh_ino (o : OS) : nat :=
  fresh (dom (files o) ∪ map_img (names o) ∪ map_img (fds o) ∪ dom (flocks o)).

Definition fresh_fd (o : OS) : nat :=
  fresh (dom (fds o) ∪ map_img (flocks o)).

(** What a reader that opens [p] and reads it to the end sees. *)
Definition visible (o : OS) (p : string) : option (list byte) :=
  i ← names o !! p; f ← files o !! i; Some (content f).

(** ** System calls, their outcomes and the environment *)

Inductive call : Type :=
  | CMakedirs (dir : string) (mode : N)
  | COpen (path : string) (mode : N)
  | CFlock (fd : nat) (nonblocking : bool)
  | CSameopenfile (fd1 fd2 : nat)
  | CClose (fd : nat)
  | CReadBytes (path : string)
  | CMkstemp (dir prefix : string)
  | CChmod (path : string) (mode : N)
  | CWrite (fd : nat) (data : list byte)
  | CRename (src dst : string)
  | CUnlink (path : string).

Inductive outcome : Type :=
  | Returned
  | Raised (e : exn)
  | Blocked.

(** One entry of the environment script per system call: the call runs
    ([Go]), raises without effect ([Fail]), or, for a write, raises after
    [n] bytes went out ([Partial]; any other call treats it as [Fail]). *)
Inductive event : Type :=
  | Go
  | Fail (f : fault)
  | Partial (n : nat) (f : fault).

Definition fault_of (ev : event) : option fault :=
  match ev with
  | Go => None
  | Fail f => Some f
  | Partial _ f => Some f
  end.

(** [regs]: the [threading.local] lock dictionaries, thread to (path to
    descriptor); a thread has no entry before its first use.  [faults]: the
    environment script, an exhausted script means no further faults.
    [suffixes]: the random source of [tempfile].  [hist]: every system call
    made so far with its outcome and the state it left, newest first. *)
Record World : Type := mkWorld {
  os : OS;
  regs : gmap nat (gmap string nat);
  faults : list event;
  suffixes : list string;
  hist : list (call * outcome * OS)
}.

Definition set_os (o : OS) (w : World) : World :=
  mkWorld o (regs w) (faults w) (suffixes w) (hist w).
Definition set_regs (r : gmap nat (gmap string nat)) (w : World) : World :=
  mkWorld (os w) r (faults w) (suffixes w) (hist w).
Definition set_faults (fs : list event) (w : World) : World :=
  mkWorld (os w) (regs w) fs (suffixes w) (hist w).
Definition set_suffixes (ss : list string) (w : World) : World :=
  mkWorld (os w) (regs w) (faults w) ss (hist w).
Definition set_hist (h : list (call * outcome * OS)) (w : World) : World :=
  mkWorld (os w) (regs w) (faults w) (suffixes w) h.

(** ** The monad: state, exceptions, and a call that never returns *)

Inductive Res (A : Type) : Type :=
  | Ok (a : A)
  | Raise (e : exn)
  | Hang.
Arguments Ok {A} a.
Arguments Raise {A} e.
Arguments Hang {A}.

Definition M (A : Type) : Type := World → Res A * World.

Definition ret {A} (a : A) : M A := λ w, (Ok a, w).
Definition raise {A} (e : exn) : M A := λ w, (Raise e, w).
Definition hang {A} : M A := λ w, (Hang, w).

Definition bind {A B} (m : M A) (k : A → M B) : M B := λ w,
  match m w with
  | (Ok a, w') => k a w'
  | (Raise e, w') => (Raise e, w')
  | (Hang, w') => (Hang, w')
  end.

#[global] Instance M_ret : MRet M := @ret.
#[global] Instance M_bind : MBind M := λ A B k m, bind m k.

(** [try: m except: h]; a handler that re-raises is written [raise e]. *)
Definition try_except {A} (m : M A) (h : exn → M A) : M A := λ w,
  match m w with
  | (Raise e, w') => h e w'
  | rw => rw
  end.

(** [try: m finally: f].  A finaliser that raises replaces the outcome of
    [m]; a blocked [m] never reaches it. *)
Definition try_finally {A} (m : M A) (f : M unit) : M A := λ w,
  match m w with
  | (Hang, w') => (Hang, w')
  | (r, w') =>
      match f w' with
      | (Ok _, w'') => (r, w'')
      | (Raise e, w'') => (Raise e, w'')
      | (Hang, w'') => (Hang, w'')
      end
  end.

Definition outcome_of {A} (r : Res A) : outcome :=
  match r with
  | Ok _ => Returned
  | Raise e => Raised e
  | Hang => Blocked
  end.

Definition next_event (w : World) : event := default Go (head (faults w)).

Definition pop (w : World) : World := set_faults (tail (faults w)) w.

Definition record (c : call) (o : outcome) (w : World) : World :=
  set_hist ((c, o, os w) :: hist w) w.

(** A system call: consult the environment, then either raise what it
    injects or run the call's semantics on the operating system state. *)
Definition syscall {A} (c : call) (sem : OS → Res A * OS) : M A := λ w,
  match fault_of (next_event w) with
  | Some f => (Raise (exn_of_fault f), record c (Raised (exn_of_fault f)) (pop w))
  | None =>
      let '(r, o') := sem (os w) in
      (r, record c (outcome_of r) (set_os o' (pop w)))
  end.

(** *** Semantics of the calls on the operating system state *)

Definition mode_0o600 : N := 384.
Definition mode_0o660 : N := 432.
Definition mode_0o770 : N := 504.

(** Directories are not part of the state: [makedirs] succeeds unless the
    environment makes it fail. *)
Definition sem_makedirs (o : OS) : Res unit * OS := (Ok tt, o).

(** [os.open(path, O_RDONLY | O_CREAT, mode)]: a new descriptor on the file
    the name denotes, which is created empty when the name is free. *)
Definition sem_open (path : string) (mode : N) (o : OS) : Res nat * OS :=
  let fd := fresh_fd o in
  match names o !! path with
  | Some i => (Ok fd, mkOS (names o) (files o) (<[fd := i]> (fds o)) (flocks o))
  | None =>
      let i := fresh_ino o in
      (Ok fd, mkOS (<[path := i]> (names o)) (<[i := mkFile [] mode]> (files o))
                   (<[fd := i]> (fds o)) (flocks o))
  end.

(** [fcntl.flock(fd, LOCK_EX)], with [LOCK_NB] when [nonblocking].  The lock
    belongs to the open file description: another descriptor on the same
    inode conflicts with it. *)
Definition sem_flock (fd : nat) (nonblocking : bool) (o : OS) : Res unit * OS :=
  match fds o !! fd with
  | None => (Raise (OSError EBADF), o)
  | Some i =>
      match flocks o !! i with
      | None => (Ok tt, mkOS (names o) (files o) (fds o) (<[i := fd]> (flocks o)))
      | Some owner =>
          if decide (owner = fd) then (Ok tt, o)
          else if nonblocking then (Raise (OSError EAGAIN), o)
          else (Hang, o)
      end
  end.

(** [os.path.sameopenfile]: both descriptors are [fstat]ed and their inodes
    compared. *)
Definition sem_sameopenfile (fd1 fd2 : nat) (o : OS) : Res bool * OS :=
  match fds o !! fd1, fds o !! fd2 with
  | Some i, Some j => (Ok (bool_decide (i = j)), o)
  | _, _ => (Raise (OSError EBADF), o)
  end.

(** [os.close]: the descriptor goes away and with it the lock its open file
    description owns. *)
Definition sem_close (fd : nat) (o : OS) : Res unit * OS :=
  match fds o !! fd with
  | None => (Raise (OSError EBADF), o)
  | Some i =>
      (Ok tt, mkOS (names o) (files o) (delete fd (fds o))
                   (if decide (flocks o !! i = Some fd) then delete i (flocks o)
                    else flocks o))
  end.

(** [Path.read_bytes]; access is not checked against the mode of the
    file. *)
Definition sem_read_bytes (path : string) (o : OS) : Res (list byte) * OS :=
  match visible o path with
  | Some data => (Ok data, o)
  | None => (Raise (OSError ENOENT), o)
  end.

Definition sem_chmod (path : string) (mode : N) (o : OS) : Res unit * OS :=
  match names o !! path with
  | Some i =>
      (Ok tt, mkOS (names o) (alter (λ f, mkFile (content f) mode) i (files o))
                   (fds o) (flocks o))
  | None => (Raise (OSError ENOENT), o)
  end.

(** [os.rename]: the destination name is retargeted to the source's inode in
    one step. *)
Definition sem_rename (src dst : string) (o : OS) : Res unit * OS :=
  match names o !! src with
  | Some i =>
      (Ok tt, mkOS (<[dst := i]> (delete src (names o))) (files o) (fds o) (flocks o))
  | None => (Raise (OSError ENOENT), o)
  end.

Definition sem_unlink (path : string) (o : OS) : Res unit * OS :=
  match names o !! path with
  | Some _ => (Ok tt, mkOS (delete path (names o)) (files o) (fds o) (flocks o))
  | None => (Raise (OSError ENOENT), o)
  end.

Definition os_makedirs (dir : string) (mode : N) : M unit :=
  syscall (CMakedirs dir mode) sem_makedirs.
Definition os_open (path : string) (mode : N) : M nat :=
  syscall (COpen path mode) (sem_open path mode).
Definition os_flock (fd : nat) (nonblocking : bool) : M unit :=
  syscall (CFlock fd nonblocking) (sem_flock fd nonblocking).
Definition os_sameopenfile (fd1 fd2 : nat) : M bool :=
  syscall (CSameopenfile fd1 fd2) (sem_sameopenfile fd1 fd2).
Definition os_close (fd : nat) : M unit :=
  syscall (CClose fd) (sem_close fd).
Definition os_read_bytes (path : string) : M (list byte) :=
  syscall (CReadBytes path) (sem_read_bytes path).
Definition os_chmod (path : string) (mode : N) : M unit :=
  syscall (CChmod path mode) (sem_chmod path mode).
Definition os_rename (src dst : string) : M unit :=
  syscall (CRename src dst) (sem_rename src dst).
Definition os_unlink (path : string) : M unit :=
  syscall (CUnlink path) (sem_unlink path).

(** [tempfile.NamedTemporaryFile("wb", dir=..., prefix=..., delete=False)]:
    candidate names are drawn from the random source until one is free; the
    file is created empty with mode 0o600 and opened.  Returns the descriptor
    and the name.  [FileExistsError] when the candidates run out. *)
Fixpoint pick_name (o : OS) (base : string) (cands : list string)
  : option (string * list string) :=
  match cands with
  | [] => None
  | s :: rest =>
      match names o !! (base +:+ s) with
      | None => Some (base +:+ s, rest)
      | Some _ => pick_name o base rest
      end
  end.

Definition sem_mkstemp (file : string) (o : OS) : nat * OS :=
  let i := fresh_ino o in
  let fd := fresh_fd o in
  (fd, mkOS (<[file := i]> (names o)) (<[i := mkFile [] mode_0o600]> (files o))
            (<[fd := i]> (fds o)) (flocks o)).

Definition NamedTemporaryFile (dir prefix : string) : M (nat * string) := λ w,
  let c := CMkstemp dir prefix in
  match fault_of (next_event w) with
  | Some f => (Raise (exn_of_fault f), record c (Raised (exn_of_fault f)) (pop w))
  | None =>
      match pick_name (os w) (dir +:+ "/" +:+ prefix) (suffixes w) with
      | None =>
          (Raise (OSError EEXIST),
           record c (Raised (OSError EEXIST)) (set_suffixes [] (pop w)))
      | Some (file, rest) =>
          let '(fd, o') := sem_mkstemp file (os w) in
          (Ok (fd, file), record c Returned (set_os o' (set_suffixes rest (pop w))))
      end
  end.

(** Writing through a descriptor appends to its inode, byte by byte; every
    byte that went out is a state of its own in the history. *)
Definition append_byte (i : nat) (b : byte) (o : OS) : OS :=
  mkOS (names o) (alter (λ f, mkFile (content f ++ [b]) (perm f)) i (files o))
       (fds o) (flocks o).

Fixpoint write_bytes (fd i : nat) (data : list byte) (w : World) : World :=
  match data with
  | [] => w
  | b :: rest =>
      write_bytes fd i rest
        (record (CWrite fd [b]) Returned (set_os (append_byte i b (os w)) w))
  end.

Definition os_write (fd : nat) (data : list byte) : M unit := λ w,
  match fds (os w) !! fd with
  | None =>
      (Raise (OSError EBADF), record (CWrite fd data) (Raised (OSError EBADF)) (pop w))
  | Some i =>
      match next_event w with
      | Go => (Ok tt, write_bytes fd i data (pop w))
      | Fail f =>
          (Raise (exn_of_fault f),
           record (CWrite fd data) (Raised (exn_of_fault f)) (pop w))
      | Partial n f =>
          (Raise (exn_of_fault f),
           record (CWrite fd (drop n data)) (Raised (exn_of_fault f))
             (write_bytes fd i (take n data) (pop w)))
      end
  end.

(** ** Paths *)

(** A [pathlib.Path] by its two parts; [str(path)] joins them. *)
Record Path : Type := mkPath { parent : string; name : string }.

Definition path_str (p : Path) : string := parent p +:+ "/" +:+ name p.

(** The prefix handed to [NamedTemporaryFile]: [".%s.new" % path.name]. *)
Definition tmp_prefix (p : Path) : string := "." +:+ name p +:+ ".new".

(** ** The lock registry *)

(** [with_lock_dict]: the calling thread's dictionary is created on first
    use and handed to the decorated function, whose updates it keeps. *)
Definition with_lock_dict {A} (t : nat)
    (func : gmap string nat → A * gmap string nat) : M A := λ w,
  let locks := default ∅ (regs w !! t) in
  let '(a, locks') := func locks in
  (Ok a, set_regs (<[t := locks']> (regs w)) w).

Definition _set_lock (t : nat) (name : string) (fd : nat) : M unit :=
  with_lock_dict t (λ locks, (tt, <[name := fd]> locks)).

Definition _get_lock (t : nat) (name : string) : M (option nat) :=
  with_lock_dict t (λ locks, (locks !! name, locks)).

Definition _del_lock (t : nat) (name : string) : M unit :=
  with_lock_dict t (λ locks, (tt, delete name locks)).

Definition _has_lock (t : nat) (name : string) : M bool :=
  with_lock_dict t (λ locks, (bool_decide (is_Some (locks !! name)), locks)).

(** ** File locking *)

Definition have_lock (t : nat) (path : Path) : M bool :=
  _has_lock t (path_str path).

(** The body of the [while True] loop of [aquire_lock], [n] rounds of it;
    a loop that is still running after [n] rounds has not returned. *)
Fixpoint lock_loop (n : nat) (path : Path) (blocking : bool) (fd : nat) : M nat :=
  match n with
  | 0 => hang
  | S n' =>
      try_except (os_flock fd (negb blocking))
        (λ e, match e with
              | OSError _ => os_close fd ;; raise e
              | _ => raise e
              end) ;;
      fd_new ← os_open (path_str path) mode_0o660;
      same ← os_sameopenfile fd fd_new;
      if same : bool then os_close fd_new ;; mret fd
      else os_close fd ;; lock_loop n' path blocking fd_new
  end.

Definition aquire_lock_rounds (n : nat) (t : nat) (path : Path) (blocking : bool)
  : M unit :=
  held ← have_lock t path;
  if held : bool then mret tt
  else
    os_makedirs (parent path) mode_0o770 ;;
    fd ← os_open (path_str path) mode_0o660;
    fd ← lock_loop n path blocking fd;
    _set_lock t (path_str path) fd.

(** Nothing in this model replaces the file between the two [os.open] calls
    of a round, so the first round already leaves the loop (lemma
    [aquire_lock_rounds_S]). *)
Definition aquire_lock (t : nat) (path : Path) (blocking : bool) : M unit :=
  aquire_lock_rounds 1 t path blocking.

Definition try_aquire_lock (t : nat) (path : Path) : M bool :=
  try_except (aquire_lock t path false ;; mret true)
    (λ e, match e with
          | OSError en => if decide (en = EAGAIN) then mret false else raise e
          | _ => raise e
          end).

Definition release_lock (t : nat) (path : Path) : M unit :=
  held ← have_lock t path;
  if negb held then mret tt
  else
    fd ← _get_lock t (path_str path);
    match fd with
    | None => mret tt
    | Some fd =>
        try_except (os_close fd)
          (λ e, match e with
                | OSError en => if decide (en = EBADF) then mret tt else raise e
                | _ => raise e
                end) ;;
        _del_lock t (path_str path)
    end.

(** ** Text and bytes *)

(** A Python [str] is a sequence of code points, [bytes] a sequence of
    bytes.  [str.encode("utf-8")] and [bytes.decode("utf-8")] are the strict
    codec: no surrogates, no overlong forms, nothing above U+10FFFF. *)
Definition byte_of (n : N) : byte := default x00 (Byte.of_N n).

Definition cont (n : N) : byte := byte_of (128 + n mod 64)%N.

Definition is_surrogate (c : N) : bool := ((55296 <=? c) && (c <? 57344))%N.

Definition encode_cp (c : N) : option (list byte) :=
  if (c <? 128)%N then Some [byte_of c]
  else if (c <? 2048)%N then Some [byte_of (192 + c / 64)%N; cont c]
  else if (c <? 65536)%N then
    if is_surrogate c then None
    else Some [byte_of (224 + c / 4096)%N; cont (c / 64)%N; cont c]
  else if (c <? 1114112)%N then
    Some [byte_of (240 + c / 262144)%N; cont (c / 4096)%N; cont (c / 64)%N; cont c]
  else None.

Fixpoint encode_utf8 (s : list N) : option (list byte) :=
  match s with
  | [] => Some []
  | c :: rest => b ← encode_cp c; bs ← encode_utf8 rest; Some (b ++ bs)
  end.

(** The payload of a continuation byte [10xxxxxx]. *)
Definition tail6 (b : byte) : option N :=
  let n := Byte.to_N b in
  if ((128 <=? n) && (n <? 192))%N then Some (n - 128)%N else None.

Fixpoint decode_utf8 (bs : list byte) : option (list N) :=
  match bs with
  | [] => Some []
  | b0 :: r =>
      let n0 := Byte.to_N b0 in
      if (n0 <? 128)%N then cons n0 <$> decode_utf8 r
      else if (n0 <? 192)%N then None
      else if (n0 <? 224)%N then
        match r with
        | b1 :: r1 =>
            x1 ← tail6 b1;
            let c := ((n0 - 192) * 64 + x1)%N in
            if (c <? 128)%N then None else cons c <$> decode_utf8 r1
        | _ => None
        end
      else if (n0 <? 240)%N then
        match r with
        | b1 :: b2 :: r2 =>
            x1 ← tail6 b1; x2 ← tail6 b2;
            let c := ((n0 - 224) * 4096 + x1 * 64 + x2)%N in
            if (c <? 2048)%N || is_surrogate c then None
            else cons c <$> decode_utf8 r2
        | _ => None
        end
      else if (n0 <? 248)%N then
        match r with
        | b1 :: b2 :: b3 :: r3 =>
            x1 ← tail6 b1; x2 ← tail6 b2; x3 ← tail6 b3;
            let c := ((n0 - 240) * 262144 + x1 * 4096 + x2 * 64 + x3)%N in
            if (c <? 65536)%N || (1114112 <=? c)%N then None
            else cons c <$> decode_utf8 r3
        | _ => None
        end
      else None
  end.

(** What a caller may pass where the annotation says [str] or [bytes]. *)
Inductive pyarg : Type :=
  | PyText (s : list N)
  | PyBytes (b : list byte)
  | PyOther.

(** The builtins the module consumes without defining them: the values of
    the structured-literal format with [repr], [pprint.pformat] ([None] is
    its [UnicodeDecodeError]) and [ast.literal_eval] ([None] is a rejected
    text), and [exec] of a configuration script on a dictionary, which
    returns the dictionary as the script left it and what the script
    raised. *)
Class Builtins : Type := {
  Value : Type;
  repr : Value → list N;
  pformat : Value → option (list N);
  literal_eval : list N → option Value;
  exec : list byte → gmap string Value → gmap string Value * option exn
}.

(** ** Loading *)

Definition lift_option {A} (e : exn) (o : option A) : M A :=
  match o with
  | Some a => mret a
  | None => raise e
  end.

Definition _load_bytes_from_file (t : nat) (path : Path) (lock : bool)
  : M (list byte) :=
  (if lock then aquire_lock t path true else mret tt) ;;
  try_except
    (try_except (os_read_bytes (path_str path))
       (λ e, match e with
             | OSError ENOENT => mret []
             | _ => raise e
             end))
    (λ e, match e with
          | MKTerminate | MKTimeout =>
              (if lock then release_lock t path else mret tt) ;;
              raise e
          | _ =>
              if is_Exception e then
                (if lock then release_lock t path else mret tt) ;;
                raise (MKGeneralException CannotReadFile (path_str path) (Some e))
              else raise e
          end).

Definition load_bytes_from_file (t : nat) (path : Path) (default : list byte)
    (lock : bool) : M (list byte) :=
  data ← _load_bytes_from_file t path lock;
  mret (match data with [] => default | _ => data end).

Definition load_text_from_file (t : nat) (path : Path) (default : list N)
    (lock : bool) : M (list N) :=
  data ← _load_bytes_from_file t path lock;
  text ← lift_option UnicodeDecodeError (decode_utf8 data);
  mret (match text with [] => default | _ => text end).

Definition load_object_from_file `{Builtins} (t : nat) (path : Path)
    (default : Value) (lock : bool) : M Value :=
  data ← _load_bytes_from_file t path lock;
  content ← lift_option UnicodeDecodeError (decode_utf8 data);
  match content with
  | [] => mret default
  | _ => lift_option ValueError (literal_eval content)
  end.

(** [load_mk_file]: [default] is [None] or the dictionary the script is run
    on. *)
Definition load_mk_file `{Builtins} (t : nat) (path : Path)
    (default : option (gmap string Value)) (lock : bool)
  : M (gmap string Value) :=
  match default with
  | None => raise (MKGeneralException NeedConfigDict EmptyString None)
  | Some d =>
      (if lock then aquire_lock t path true else mret tt) ;;
      try_except
        (try_except
           (data ← os_read_bytes (path_str path);
            match exec data d with
            | (d', None) => mret d'
            | (d', Some e) =>
                match e with
                | OSError ENOENT => mret d'
                | _ => raise e
                end
            end)
           (λ e, match e with
                 | OSError ENOENT => mret d
                 | _ => raise e
                 end))
        (λ e, match e with
              | MKTerminate | MKTimeout => raise e
              | _ =>
                  if is_Exception e then
                    raise (MKGeneralException CannotReadConfig (path_str path) (Some e))
                  else raise e
              end)
  end.

Definition load_from_mk_file `{Builtins} (t : nat) (path : Path) (key : string)
    (default : Value) (lock : bool) : M Value :=
  d ← load_mk_file t path (Some {[ key := default ]}) false;
  lift_option (KeyError key) (d !! key).

(** ** Saving *)

(** The [except] clauses of [_save_data_to_file]; [tmp_path] is the value of
    the local variable when the exception arrives. *)
Definition save_except {A} (path : Path) (tmp_path : option string) (e : exn)
  : M A :=
  match e with
  | MKTerminate | MKTimeout => raise e
  | _ =>
      if is_Exception e then
        try_except
          (match tmp_path with
           | Some p => os_unlink p
           | None => mret tt
           end)
          (λ e2, match e2 with
                 | OSError en => if decide (en = ENOENT) then mret tt else raise e2
                 | _ => raise e2
                 end) ;;
        raise (MKGeneralException CannotWriteConfig (path_str path) (Some e))
      else raise e
  end.

(** The [try] block of [_save_data_to_file] with its [except] clauses. *)
Definition save_try (t : nat) (path : Path) (data : list byte) (mode : N)
  : M unit :=
  '(fd, tmp_path) ←
     try_except
       (aquire_lock t path true ;;
        NamedTemporaryFile (parent path) (tmp_prefix path))
       (save_except path None);
  try_except
    (try_finally (os_chmod tmp_path mode ;; os_write fd data) (os_close fd) ;;
     os_rename tmp_path (path_str path))
    (save_except path (Some tmp_path)).

Definition _save_data_to_file (t : nat) (path : Path) (data : list byte)
    (mode : N) : M unit :=
  try_finally (save_try t path data mode) (release_lock t path).

Definition save_text_to_file (t : nat) (path : Path) (content : pyarg) (mode : N)
  : M unit :=
  match content with
  | PyText s =>
      data ← lift_option UnicodeEncodeError (encode_utf8 s);
      _save_data_to_file t path data mode
  | _ => raise (TypeError "content argument must be Text, not bytes")
  end.

Definition save_bytes_to_file (t : nat) (path : Path) (content : pyarg) (mode : N)
  : M unit :=
  match content with
  | PyBytes b => _save_data_to_file t path b mode
  | _ => raise (TypeError "content argument must be bytes, not Text")
  end.

(** [six.ensure_binary]. *)
Definition ensure_binary (content : pyarg) : M (list byte) :=
  match content with
  | PyText s => lift_option UnicodeEncodeError (encode_utf8 s)
  | PyBytes b => mret b
  | PyOther => raise (TypeError "not expecting type")
  end.

Definition save_file (t : nat) (path : Path) (content : pyarg) (mode : N) : M unit :=
  data ← ensure_binary content;
  _save_data_to_file t path data mode.

(** The local [formatted_data] of [save_object_to_file]: [pformat] when
    [pretty], with [repr] as the fallback of its [UnicodeDecodeError], else
    [repr]. *)
Definition formatted_data `{Builtins} (data : Value) (pretty : bool) : list N :=
  if pretty then
    match pformat data with
    | Some s => s
    | None => repr data
    end
  else repr data.

Definition save_object_to_file `{Builtins} (t : nat) (path : Path) (data : Value)
    (pretty : bool) : M unit :=
  save_file t path (PyText (formatted_data data pretty ++ [10%N])) mode_0o660.

(** ** Context managers and the release of all locks *)

(** [release_lock] on a key of the registry.  The keys are the strings that
    [str(path)] gave when the lock was taken, and [Path] followed by [str]
    leaves such a string as it is; on [path_str path] this is
    [release_lock path]. *)
Definition release_lock_name (t : nat) (name : string) : M unit :=
  held ← _has_lock t name;
  if negb held then mret tt
  else
    fd ← _get_lock t name;
    match fd with
    | None => mret tt
    | Some fd =>
        try_except (os_close fd)
          (λ e, match e with
                | OSError en => if decide (en = EBADF) then mret tt else raise e
                | _ => raise e
                end) ;;
        _del_lock t name
    end.

Definition _del_all_locks (t : nat) : M unit :=
  with_lock_dict t (λ _, (tt, ∅)).

(** [list(locks.keys())]: a copy of the keys, in the order of the map. *)
Definition _get_lock_keys (t : nat) : M (list string) :=
  with_lock_dict t (λ locks, ((map_to_list locks).*1, locks)).

Definition _get_lock_map (t : nat) : M (gmap string nat) :=
  with_lock_dict t (λ locks, (locks, locks)).

(** The [for] loop of [release_all_locks]. *)
Fixpoint release_each (t : nat) (keys : list string) : M unit :=
  match keys with
  | [] => mret tt
  | k :: rest => release_lock_name t k ;; release_each t rest
  end.

(** [release_all_locks]; the map is fetched for the log line only. *)
Definition release_all_locks (t : nat) : M unit :=
  _get_lock_map t ;;
  keys ← _get_lock_keys t;
  release_each t keys ;;
  _del_all_locks t.

(** [with locked(path, blocking): body]. *)
Definition locked {A} (t : nat) (path : Path) (blocking : bool) (body : M A)
  : M A :=
  try_finally (aquire_lock t path blocking ;; body) (release_lock t path).

(** [with try_locked(path) as result: body]. *)
Definition try_locked {A} (t : nat) (path : Path) (body : bool → M A) : M A :=
  try_finally (result ← try_aquire_lock t path; body result)
              (release_lock t path).

(** [with cleanup_locks(): body]; the [except Exception] clause logs and
    re-raises. *)
Definition cleanup_locks {A} (t : nat) (body : M A) : M A :=
  try_finally body (try_except (release_all_locks t) (λ e, raise e)).

(** ** [.mk] files written by the module *)

(** The code points of an ASCII literal. *)
Definition text (s : string) : list N :=
  Ascii.N_of_ascii <$> String.list_ascii_of_string s.

(** ["# Written by Checkmk store\n\n"]. *)
Definition mk_header : list N := text "# Written by Checkmk store" ++ [10; 10]%N.

Definition save_mk_file (t : nat) (path : Path) (mk_content : list N)
    (add_header : bool) : M unit :=
  let content := [] in
  let content := if add_header then content ++ mk_header else content in
  let content := content ++ mk_content in
  let content := content ++ [10%N] in
  save_file t path (PyText content) mode_0o660.

(** ** Storage formats *)

Inductive StorageFormat : Set := STANDARD | RAW.

(** [self.value], which is also [str(self)]. *)
Definition format_value (f : StorageFormat) : list N :=
  match f with
  | STANDARD => text "standard"
  | RAW => text "raw"
  end.

Definition format_str (f : StorageFormat) : list N := format_value f.

(** [str.upper] is taken as it is from Python. *)
Class StrOps : Type := { upper : list N → list N }.

(** [cls[value.upper()]]: the member of that name, or [KeyError] with the
    name that was looked up. *)
Definition from_str `{StrOps} (value : list N) : StorageFormat + list N :=
  let name := upper value in
  if decide (name = text "STANDARD") then inl STANDARD
  else if decide (name = text "RAW") then inl RAW
  else inr name.

Definition extension (f : StorageFormat) : list N :=
  match f with
  | STANDARD => text ".mk"
  | RAW => text ".cfg"
  end.

Definition hosts_file (f : StorageFormat) : list N := text "hosts" ++ extension f.

Definition startswith (s p : list N) : bool := bool_decide (p `prefix_of` s).
Definition endswith (s p : list N) : bool := bool_decide (p `suffix_of` s).

Definition is_hosts_config (f : StorageFormat) (filename : list N) : bool :=
  startswith filename (text "/wato/")
  && endswith filename (text "/" ++ hosts_file f).

(** * What the statements speak about *)

(** The calling thread's lock dictionary, empty before its first use. *)
Definition locks_of (t : nat) (w : World) : gmap string nat :=
  default ∅ (regs w !! t).

(** [have_lock] as a predicate on the state. *)
Definition holds (t : nat) (path : Path) (w : World) : Prop :=
  is_Some (locks_of t w !! path_str path).

(** Nobody owns the [flock] of the file the path names. *)
Definition lock_free (path : Path) (o : OS) : Prop :=
  ∀ i, names o !! path_str path = Some i → flocks o !! i = None.

(** The environment injects no further fault. *)
Definition quiet (w : World) : Prop := faults w = [].

Definition is_flock (e : call * outcome * OS) : bool :=
  match e.1.1 with
  | CFlock _ _ => true
  | _ => false
  end.

(** The number of [flock] calls made so far. *)
Definition flock_calls (w : World) : nat := length (filter is_flock (hist w)).

Definition preserves {A} (R : relation World) (m : M A) : Prop :=
  ∀ w, R w (m w).2.

(** From [w] to [w']: the state moved along [Q], and every state the calls
    in between left is [Q]-after the state of [w]. *)
Definition Hist (Q : relation OS) (w w' : World) : Prop :=
  Q (os w) (os w') ∧
  ∃ new, hist w' = new ++ hist w ∧ Forall (λ e, Q (os w) e.2) new.

(** Names and inodes are as they were. *)
Definition fs_eq : relation OS :=
  λ o o', names o' = names o ∧ files o' = files o.

(** What is visible at [p] is as it was, or [p] was missing and is now an
    empty file. *)
Definition gap (p : string) : relation OS :=
  λ o o', visible o' p = visible o p ∨ (visible o p = None ∧ visible o' p = Some []).

(** Every name but [p] is as it was. *)
Definition names_out (p : string) : relation OS :=
  λ o o', ∀ q, q ≠ p → names o' !! q = names o !! q.

(** The exceptions the environment injects. *)
Definition injected (e : exn) : Prop := ∃ f, e = exn_of_fault f.

(** The errnos that report the state. *)
Definition state_errno (en : errno) : bool :=
  match en with
  | ENOENT | EAGAIN | EBADF | EEXIST => true
  | _ => false
  end.

Definition touch (t : nat) (w : World) : World :=
  set_regs (<[t := locks_of t w]> (regs w)) w.

(** Names, descriptors and lock owners of [o] are still there in [o']. *)
Definition grows (o o' : OS) : Prop :=
  names o ⊆ names o' ∧ fds o ⊆ fds o' ∧ flocks o ⊆ flocks o'.

(** [fd] is neither open nor a lock owner in [o]. *)
Definition fresh_for (o : OS) (fd : nat) : Prop :=
  fds o !! fd = None ∧ ∀ i, flocks o !! i ≠ Some fd.

(** After an [os.close fd] that may or may not have gone through. *)
Definition closed_or_not (fd : nat) (o o' : OS) : Prop :=
  o' = o ∨ o' = (sem_close fd o).2.

(** The [flock] of a round with its [except IOError] clause. *)
Definition flock_or_close (fd : nat) (nb : bool) : M unit :=
  try_except (os_flock fd nb)
    (λ e, match e with
          | OSError _ => os_close fd ;; raise e
          | _ => raise e
          end).

Definition Later (w w' : World) : Prop := faults w' `suffix_of` faults w.


(** The calls of the lock interface, each by some thread. *)
Inductive lock_op : Type :=
  | OpAquire (t : nat) (path : Path) (blocking : bool)
  | OpTry (t : nat) (path : Path)
  | OpRelease (t : nat) (path : Path).

Definition run_op (op : lock_op) (w : World) : World :=
  match op with
  | OpAquire t path blocking => (aquire_lock t path blocking w).2
  | OpTry t path => (try_aquire_lock t path w).2
  | OpRelease t path => (release_lock t path w).2
  end.

Definition run_ops (ops : list lock_op) (w : World) : World :=
  foldl (λ u op, run_op op u) w ops.

Definition is_EAGAIN (e : exn) : bool :=
  match e with
  | OSError EAGAIN => true
  | _ => false
  end.

Definition raises_only {A} (P : exn → Prop) (m : M A) : Prop :=
  ∀ w e w', m w = (Raise e, w') → P e.

(** Raised by a system call: an [OSError] or what a signal handler raises;
    not one of the exceptions the module itself constructs. *)
Definition from_os (e : exn) : Prop :=
  match e with
  | OSError _ | MKTerminate | MKTimeout | KeyboardInterrupt => True
  | _ => False
  end.

(** The target shows what it showed, or it shows all of [data]. *)
Definition old_or_new (p : string) (data : list byte) : relation OS :=
  λ o o', visible o' p = visible o p ∨ visible o' p = Some data.

(** What is visible at [p] is as it was. *)
Definition same_at (p : string) : relation OS :=
  λ o o', visible o' p = visible o p.

(** Only the inode [i] changed. *)
Definition only_inode (i : nat) : relation OS :=
  λ o o', names o' = names o ∧ fds o' = fds o ∧
          ∀ j, j ≠ i → files o' !! j = files o !! j.

Definition content_at (o : OS) (i : nat) : option (list byte) :=
  content <$> files o !! i.

(** An exception constructed by the module, not raised by a system call. *)
Definition is_general (e : exn) : bool :=
  match e with
  | MKGeneralException _ _ _ => true
  | _ => false
  end.

(** How [_load_bytes_from_file] reports a failure of the read that the
    environment causes: [MKTerminate] and [MKTimeout] are re-raised,
    [KeyboardInterrupt] is no [Exception] and passes, every other failure is
    wrapped. *)
Definition read_failure (path : Path) (f : fault) : exn :=
  match f with
  | F_MKTerminate => MKTerminate
  | F_MKTimeout => MKTimeout
  | F_KeyboardInterrupt => KeyboardInterrupt
  | _ => MKGeneralException CannotReadFile (path_str path) (Some (exn_of_fault f))
  end.

(** The builtins restricted to the literals [True] and [False], to run the
    object functions on closed examples: [repr] and [pformat] print the
    name, [literal_eval] reads it back with or without the final newline. *)
Definition bool_repr (b : bool) : list N :=
  if b then [84; 114; 117; 101]%N else [70; 97; 108; 115; 101]%N.

Definition bool_literal_eval (s : list N) : option bool :=
  if bool_decide (s = bool_repr true) || bool_decide (s = bool_repr true ++ [10%N])
  then Some true
  else if bool_decide (s = bool_repr false)
          || bool_decide (s = bool_repr false ++ [10%N])
  then Some false
  else None.

Definition bool_builtins : Builtins :=
  {| Value := bool;
     repr := bool_repr;
     pformat := λ b, Some (bool_repr b);
     literal_eval := bool_literal_eval;
     exec := λ _ d, (d, None) |}.

(** Where a call with [lock=True] leaves the lock: held after a result,
    released after an [MKGeneralException]. *)
Definition locked_after {A} (t : nat) (path : Path) (rw : Res A * World) : Prop :=
  match rw with
  | (Ok _, w') => holds t path w'
  | (Raise (MKGeneralException _ _ _), w') => ¬ holds t path w'
  | _ => True
  end.

(** Descriptors and lock owners only go away; names and inodes stay. *)
Definition shrinks (o o' : OS) : Prop :=
  names o' = names o ∧ files o' = files o ∧
  fds o' ⊆ fds o ∧ flocks o' ⊆ flocks o.

(** How [load_mk_file] reports what the script raised. *)
Definition config_failure (path : Path) (e : exn) : exn :=
  match e with
  | MKTerminate | MKTimeout => e
  | _ =>
      if is_Exception e
      then MKGeneralException CannotReadConfig (path_str path) (Some e)
      else e
  end.

(** The file a name leads to, contents and mode. *)
Definition file_at (o : OS) (p : string) : option File :=
  i ← names o !! p; files o !! i.

(** What [str.upper] does to ASCII. *)
Definition ascii_upper (c : N) : N :=
  if ((97 <=? c) && (c <=? 122))%N then (c - 32)%N else c.

Definition is_ascii (s : list N) : Prop := Forall (λ c, (c < 128)%N) s.



(** What a loader with [lock=True] does once [aquire_lock] has returned in
    [w1], by the outcome of the read [rb], made in [w1] with the lock held:
    [rw] is the outcome of the byte load.  A read that returns, or finds no
    file, ends the load there with the lock still held; so does a
    [KeyboardInterrupt], which no clause handles.  Any other failure of the
    read is followed by [release_lock], and the failure is propagated
    ([MKTerminate] and [MKTimeout] as they are, the rest as
    [MKGeneralException]) with the path no longer held, unless the release
    itself raises. *)
Definition load_after_lock (t : nat) (path : Path)
    (rb rw : Res (list byte) * World) : Prop :=
  match rb with
  | (Ok data, w2) => rw = (Ok data, w2) ∧ holds t path w2
  | (Raise (OSError ENOENT), w2) => rw = (Ok [], w2) ∧ holds t path w2
  | (Raise KeyboardInterrupt, w2) =>
      rw = (Raise KeyboardInterrupt, w2) ∧ holds t path w2
  | (Raise e, w2) =>
      match release_lock t path w2 with
      | (Ok _, w3) =>
          rw = (Raise (match e with
                       | MKTerminate | MKTimeout => e
                       | _ => MKGeneralException CannotReadFile
                                (path_str path) (Some e)
                       end), w3) ∧
          ¬ holds t path w3
      | (Raise e', w3) => rw = (Raise e', w3)
      | (Hang, _) => False
      end
  | (Hang, _) => False
  end.

(** ** A fragment of Python's literals *)
















(** ** Closed states for the examples *)

Definition p_demo : Path := mkPath "/tmp" "x.mk".

(** Nothing on disk, no candidate for temporary names. *)
Definition w_empty : World := mkWorld (mkOS ∅ ∅ ∅ ∅) ∅ [] [] [].

(** Nothing on disk and one candidate suffix. *)
Definition w_fresh : World := mkWorld (mkOS ∅ ∅ ∅ ∅) ∅ [] ["aaaa"] [].

(** The target exists and holds one byte. *)
Definition w_file : World :=
  mkWorld (mkOS {[ "/tmp/x.mk" := 0 ]} {[ 0 := mkFile [x61] mode_0o660 ]} ∅ ∅)
          ∅ [] [] [].




(** Thread 0 holds the lock on the demo path; nothing else is there. *)
Definition w_locked : World := run_ops [OpAquire 0 p_demo true] w_empty.

(** Thread 0 holds the lock on the demo path and one candidate suffix is
    left. *)
Definition w_locked_fresh : World := run_ops [OpAquire 0 p_demo true] w_fresh.

(** The target holds one byte that no UTF-8 text contains. *)
Definition w_bad_utf8 : World :=
  mkWorld (mkOS {[ "/tmp/x.mk" := 0 ]} {[ 0 := mkFile [xff] mode_0o660 ]} ∅ ∅)
          ∅ [] [] [].

(** [str.upper] on ASCII text. *)
Definition ascii_strops : StrOps := {| upper := fmap ascii_upper |}.

(** * Reasoning about computations *)

(** ** Relations every step of a computation keeps *)

Section Preserves.
Context (R : relation World) `{!PreOrder R}.

Lemma preserves_ret {A} (a : A) : preserves R (mret a).
Proof. intros w. simpl. reflexivity. Qed.

Lemma preserves_raise {A} e : preserves R (@raise A e).
Proof. intros w. simpl. reflexivity. Qed.

Lemma preserves_hang {A} : preserves R (@hang A).
Proof. intros w. simpl. reflexivity. Qed.

Lemma preserves_bind {A B} (m : M A) (k : A → M B) :
  preserves R m → (∀ a, preserves R (k a)) → preserves R (m ≫= k).
Proof.
  intros Hm Hk w. unfold mbind, M_bind, bind.
  specialize (Hm w). destruct (m w) as [[a|e|] w']; simpl in *; try done.
  etrans; [exact Hm | apply Hk].
Qed.

Lemma preserves_try_except {A} (m : M A) h :
  preserves R m → (∀ e, preserves R (h e)) → preserves R (try_except m h).
Proof.
  intros Hm Hh w. unfold try_except.
  specialize (Hm w). destruct (m w) as [[a|e|] w']; simpl in *; try done.
  etrans; [exact Hm | apply Hh].
Qed.

Lemma preserves_try_finally {A} (m : M A) f :
  preserves R m → preserves R f → preserves R (try_finally m f).
Proof.
  intros Hm Hf w. unfold try_finally.
  specialize (Hm w). destruct (m w) as [[a|e|] w']; simpl in *; try done.
  - specialize (Hf w'). destruct (f w') as [[[]|e|] w'']; simpl in *; by etrans.
  - specialize (Hf w'). destruct (f w') as [[[]|e'|] w'']; simpl in *; by etrans.
Qed.

Lemma preserves_lift_option {A} e (o : option A) : preserves R (lift_option e o).
Proof. destruct o; intros w; simpl; reflexivity. Qed.

(** A system call keeps [R] when both of its ways to end do. *)
Lemma preserves_syscall {A} c (sem : OS → Res A * OS) :
  (∀ w oc, R w (record c oc (pop w))) →
  (∀ w oc, R w (record c oc (set_os (sem (os w)).2 (pop w)))) →
  preserves R (syscall c sem).
Proof.
  intros Hf Hs w. unfold syscall.
  destruct (fault_of (next_event w)); simpl; [apply Hf|].
  specialize (Hs w). destruct (sem (os w)) as [r o']. apply Hs.
Qed.
End Preserves.

(** The clauses of a computation, one rule each. *)
Ltac pres_step :=
  lazymatch goal with
  | |- preserves _ (mret _) => apply preserves_ret; try apply _
  | |- preserves _ (raise _) => apply preserves_raise; try apply _
  | |- preserves _ hang => apply preserves_hang; try apply _
  | |- preserves _ (lift_option _ _) => apply preserves_lift_option; try apply _
  | |- preserves _ (_ ≫= _) => apply preserves_bind; [apply _ | | intros ?]
  | |- preserves _ (try_except _ _) =>
      apply preserves_try_except; [apply _ | | intros ?]
  | |- preserves _ (try_finally _ _) =>
      apply preserves_try_finally; [apply _ | | ]
  | |- preserves _ (match ?x with _ => _ end) => destruct x
  end.

(** ** The history relation of a preorder on operating system states *)

#[global] Instance Hist_preorder Q `{!PreOrder Q} : PreOrder (Hist Q).
Proof.
  split.
  - intros w. split; [reflexivity|]. by exists [].
  - intros w1 w2 w3 [H12 (n1 & E1 & F1)] [H23 (n2 & E2 & F2)].
    split; [by etrans|]. exists (n2 ++ n1). split.
    + by rewrite E2, E1, (assoc_L (++)).
    + apply Forall_app. split; [|done].
      eapply Forall_impl; [exact F2|]. intros e He. simpl in He. by etrans.
Qed.

Lemma Hist_mono (Q Q' : relation OS) w w' :
  (∀ o o', Q o o' → Q' o o') → Hist Q w w' → Hist Q' w w'.
Proof.
  intros HQ [H (n & E & F)]. split; [by apply HQ|].
  exists n. split; [done|]. eapply Forall_impl; [exact F|]. intros e. apply HQ.
Qed.

Lemma preserves_mono {A} (R R' : relation World) (m : M A) :
  (∀ w w', R w w' → R' w w') → preserves R m → preserves R' m.
Proof. intros HR Hm w. apply HR, Hm. Qed.

Lemma Hist_record Q `{!PreOrder Q} c oc w : Hist Q w (record c oc (pop w)).
Proof.
  split; simpl; [reflexivity|]. exists [(c, oc, os w)]. split; [done|].
  repeat constructor. simpl. reflexivity.
Qed.

Lemma Hist_record_os Q c oc o' w :
  Q (os w) o' → Hist Q w (record c oc (set_os o' (pop w))).
Proof.
  intros H. split; simpl; [done|]. exists [(c, oc, o')]. split; [done|].
  by repeat constructor.
Qed.

Lemma Hist_syscall {A} Q `{!PreOrder Q} c (sem : OS → Res A * OS) :
  (∀ o, Q o (sem o).2) → preserves (Hist Q) (syscall c sem).
Proof.
  intros H. apply preserves_syscall; intros w oc.
  - by apply Hist_record.
  - by apply Hist_record_os.
Qed.

Lemma Hist_with_lock_dict {A} Q `{!PreOrder Q} t
    (func : gmap string nat → A * gmap string nat) :
  preserves (Hist Q) (with_lock_dict t func).
Proof.
  intros w. unfold with_lock_dict. destruct (func _) as [a l]. simpl.
  split; simpl; [reflexivity|]. by exists [].
Qed.

(** ** Fresh inodes and descriptors *)

Lemma fresh_ino_files o : files o !! fresh_ino o = None.
Proof.
  apply not_elem_of_dom. intros H.
  apply (is_fresh (dom (files o) ∪ map_img (names o) ∪ map_img (fds o)
                     ∪ dom (flocks o))). fold (fresh_ino o). set_solver.
Qed.

Lemma fresh_ino_names o p : names o !! p ≠ Some (fresh_ino o).
Proof.
  intros H.
  apply (is_fresh (dom (files o) ∪ map_img (names o) ∪ map_img (fds o)
                     ∪ dom (flocks o))). fold (fresh_ino o).
  apply elem_of_union_l, elem_of_union_l, elem_of_union_r.
  apply elem_of_map_img. by exists p.
Qed.

Lemma fresh_ino_fds o fd : fds o !! fd ≠ Some (fresh_ino o).
Proof.
  intros H.
  apply (is_fresh (dom (files o) ∪ map_img (names o) ∪ map_img (fds o)
                     ∪ dom (flocks o))). fold (fresh_ino o).
  apply elem_of_union_l, elem_of_union_r.
  apply elem_of_map_img. by exists fd.
Qed.

Lemma fresh_ino_flocks o : flocks o !! fresh_ino o = None.
Proof.
  apply not_elem_of_dom. intros H.
  apply (is_fresh (dom (files o) ∪ map_img (names o) ∪ map_img (fds o)
                     ∪ dom (flocks o))). fold (fresh_ino o). set_solver.
Qed.

Lemma fresh_fd_fds o : fds o !! fresh_fd o = None.
Proof.
  apply not_elem_of_dom. intros H.
  apply (is_fresh (dom (fds o) ∪ map_img (flocks o))). fold (fresh_fd o).
  set_solver.
Qed.

Lemma fresh_fd_flocks o i : flocks o !! i ≠ Some (fresh_fd o).
Proof.
  intros H.
  apply (is_fresh (dom (fds o) ∪ map_img (flocks o))). fold (fresh_fd o).
  apply elem_of_union_r, elem_of_map_img. by exists i.
Qed.

(** ** Preorders on operating system states *)

#[global] Instance fs_eq_preorder : PreOrder fs_eq.
Proof.
  split; [by intros o|].
  intros o1 o2 o3 [H1 H2] [H3 H4]. split; congruence.
Qed.

#[global] Instance gap_preorder p : PreOrder (gap p).
Proof.
  split; [intros o; by left|].
  intros o1 o2 o3 [H1|[H1 H1']] [H2|[H2 H2']]; unfold gap.
  - left. congruence.
  - right. split; congruence.
  - right. split; congruence.
  - congruence.
Qed.

#[global] Instance names_out_preorder p : PreOrder (names_out p).
Proof.
  split; [by intros o q|].
  intros o1 o2 o3 H1 H2 q Hq. rewrite H2, H1; done.
Qed.

Lemma fs_eq_visible o o' p : fs_eq o o' → visible o' p = visible o p.
Proof. intros [H1 H2]. unfold visible. by rewrite H1, H2. Qed.

Lemma fs_eq_gap p o o' : fs_eq o o' → gap p o o'.
Proof. intros H. left. by apply fs_eq_visible. Qed.

Lemma fs_eq_names_out p o o' : fs_eq o o' → names_out p o o'.
Proof. intros [H1 H2] q _. by rewrite H1. Qed.

(** ** What the calls do to names and inodes *)

Lemma sem_flock_fs fd nb o : fs_eq o (sem_flock fd nb o).2.
Proof.
  unfold sem_flock. repeat case_match; by split.
Qed.

Lemma sem_close_fs fd o : fs_eq o (sem_close fd o).2.
Proof. unfold sem_close. repeat case_match; by split. Qed.

Lemma sem_sameopenfile_fs fd1 fd2 o : fs_eq o (sem_sameopenfile fd1 fd2 o).2.
Proof. unfold sem_sameopenfile. repeat case_match; by split. Qed.

Lemma sem_read_bytes_fs p o : fs_eq o (sem_read_bytes p o).2.
Proof. unfold sem_read_bytes. repeat case_match; by split. Qed.

Lemma sem_makedirs_fs o : fs_eq o (sem_makedirs o).2.
Proof. by split. Qed.

Lemma sem_open_gap path mode p o : gap p o (sem_open path mode o).2.
Proof.
  unfold sem_open. destruct (names o !! path) as [i|] eqn:E; simpl.
  { by left. }
  unfold gap, visible. simpl.
  destruct (decide (p = path)) as [->|Hne].
  - right. rewrite E, lookup_insert_eq. simpl. by rewrite lookup_insert_eq.
  - left. rewrite lookup_insert_ne by done.
    destruct (names o !! p) as [j|] eqn:Ej; simpl; [|done].
    rewrite lookup_insert_ne; [done|].
    intros <-. by apply (fresh_ino_names o p).
Qed.

Lemma sem_open_names_out path mode o : names_out path o (sem_open path mode o).2.
Proof.
  unfold sem_open. destruct (names o !! path) as [i|] eqn:E; simpl.
  { by intros q. }
  intros q Hq. simpl. by rewrite lookup_insert_ne.
Qed.

Lemma sem_unlink_gap path p o : path ≠ p → gap p o (sem_unlink path o).2.
Proof.
  intros Hne. unfold sem_unlink. destruct (names o !! path) eqn:E; simpl.
  - left. unfold visible. simpl. by rewrite lookup_delete_ne.
  - by left.
Qed.

(** ** The lock functions and the file system *)

Section LockHist.
Context (Q : relation OS) `{!PreOrder Q}.
Context (Q_fs : ∀ o o', fs_eq o o' → Q o o').

Lemma Hist_os_flock fd nb : preserves (Hist Q) (os_flock fd nb).
Proof. apply Hist_syscall; [apply _|]. intros o. apply Q_fs, sem_flock_fs. Qed.

Lemma Hist_os_close fd : preserves (Hist Q) (os_close fd).
Proof. apply Hist_syscall; [apply _|]. intros o. apply Q_fs, sem_close_fs. Qed.

Lemma Hist_os_sameopenfile fd1 fd2 : preserves (Hist Q) (os_sameopenfile fd1 fd2).
Proof.
  apply Hist_syscall; [apply _|]. intros o. apply Q_fs, sem_sameopenfile_fs.
Qed.

Lemma Hist_os_makedirs d m : preserves (Hist Q) (os_makedirs d m).
Proof. apply Hist_syscall; [apply _|]. intros o. apply Q_fs, sem_makedirs_fs. Qed.

Lemma Hist_os_read_bytes p : preserves (Hist Q) (os_read_bytes p).
Proof.
  apply Hist_syscall; [apply _|]. intros o. apply Q_fs, sem_read_bytes_fs.
Qed.

Lemma Hist_release_lock t path : preserves (Hist Q) (release_lock t path).
Proof.
  unfold release_lock, have_lock, _has_lock, _get_lock, _del_lock.
  repeat first
    [ apply Hist_with_lock_dict; apply _
    | apply Hist_os_close
    | pres_step ].
Qed.

Context (path : Path).
Context (Q_open : ∀ mode o, Q o (sem_open (path_str path) mode o).2).

Lemma Hist_os_open mode : preserves (Hist Q) (os_open (path_str path) mode).
Proof. apply Hist_syscall; [apply _|]. intros o. apply Q_open. Qed.

Lemma Hist_lock_loop n blocking fd :
  preserves (Hist Q) (lock_loop n path blocking fd).
Proof.
  revert fd. induction n as [|n IH]; intros fd; simpl.
  { apply preserves_hang; apply _. }
  repeat first
    [ apply Hist_os_flock | apply Hist_os_close | apply Hist_os_open
    | apply Hist_os_sameopenfile | apply IH
    | pres_step ].
Qed.

Lemma Hist_aquire_lock_rounds n t blocking :
  preserves (Hist Q) (aquire_lock_rounds n t path blocking).
Proof.
  unfold aquire_lock_rounds, have_lock, _has_lock, _set_lock.
  repeat first
    [ apply Hist_with_lock_dict; apply _
    | apply Hist_os_makedirs | apply Hist_os_open | apply Hist_lock_loop
    | pres_step ].
Qed.
End LockHist.

(** ** Unfolding computations step by step *)

Lemma bind_eq {A B} (m : M A) (k : A → M B) w :
  (m ≫= k) w =
  match m w with
  | (Ok a, w') => k a w'
  | (Raise e, w') => (Raise e, w')
  | (Hang, w') => (Hang, w')
  end.
Proof. reflexivity. Qed.

Lemma try_except_eq {A} (m : M A) h w :
  try_except m h w =
  match m w with
  | (Raise e, w') => h e w'
  | rw => rw
  end.
Proof. reflexivity. Qed.

Lemma ret_eq {A} (a : A) w : (mret a : M A) w = (Ok a, w).
Proof. reflexivity. Qed.

Lemma raise_eq {A} e w : @raise A e w = (Raise e, w).
Proof. reflexivity. Qed.

Lemma injected_not_state en : injected (OSError en) → state_errno en = false.
Proof. intros [f H]. destruct f; inversion H; done. Qed.

(** What a system call leaves behind, whichever way it ended. *)
Lemma syscall_inv {A} c (sem : OS → Res A * OS) w r w' :
  syscall c sem w = (r, w') →
  regs w' = regs w ∧ suffixes w' = suffixes w ∧ faults w' = tail (faults w) ∧
  hist w' = (c, outcome_of r, os w') :: hist w ∧
  ((∃ f, fault_of (next_event w) = Some f ∧ r = Raise (exn_of_fault f)
         ∧ os w' = os w)
   ∨ (fault_of (next_event w) = None ∧ sem (os w) = (r, os w'))).
Proof.
  unfold syscall. intros H.
  destruct (fault_of (next_event w)) as [f|] eqn:Ef.
  - inversion H; subst; simpl. repeat split; try done. left. by exists f.
  - destruct (sem (os w)) as [r0 o'] eqn:Es. inversion H; subst; simpl.
    repeat split; try done. by right.
Qed.

Lemma quiet_next w : quiet w → fault_of (next_event w) = None.
Proof. unfold quiet, next_event. by intros ->. Qed.

Lemma syscall_quiet {A} c (sem : OS → Res A * OS) w :
  quiet w →
  syscall c sem w =
    ((sem (os w)).1,
     record c (outcome_of (sem (os w)).1) (set_os (sem (os w)).2 (pop w))).
Proof.
  intros Hq. unfold syscall. rewrite (quiet_next w Hq).
  by destruct (sem (os w)).
Qed.

Lemma quiet_pop w : quiet w → quiet (pop w).
Proof. unfold quiet. simpl. by intros ->. Qed.

(** ** The registry *)

Lemma locks_of_insert t t' l w r :
  locks_of t' (set_regs (<[t := l]> r) w) =
  if decide (t = t') then l else default ∅ (r !! t').
Proof.
  unfold locks_of. simpl. rewrite lookup_insert. by case_decide.
Qed.

Lemma locks_of_touch t t' w : locks_of t' (touch t w) = locks_of t' w.
Proof.
  unfold touch. rewrite locks_of_insert. case_decide; by subst.
Qed.

Lemma touch_id t w : regs w !! t = Some (locks_of t w) → touch t w = w.
Proof.
  intros H. unfold touch. destruct w as [o r f s h]; simpl in *.
  unfold set_regs. simpl. f_equal. by apply insert_id.
Qed.

Lemma holds_regs t path w : holds t path w → regs w !! t = Some (locks_of t w).
Proof.
  unfold holds, locks_of. destruct (regs w !! t); simpl; [done|].
  rewrite lookup_empty. by intros [? ?].
Qed.

Lemma have_lock_eq t path w :
  have_lock t path w =
    (Ok (bool_decide (is_Some (locks_of t w !! path_str path))), touch t w).
Proof. reflexivity. Qed.

Lemma _get_lock_eq t name w :
  _get_lock t name w = (Ok (locks_of t w !! name), touch t w).
Proof. reflexivity. Qed.

Lemma _set_lock_eq t name fd w :
  _set_lock t name fd w =
    (Ok tt, set_regs (<[t := <[name := fd]> (locks_of t w)]> (regs w)) w).
Proof. reflexivity. Qed.

Lemma _del_lock_eq t name w :
  _del_lock t name w =
    (Ok tt, set_regs (<[t := delete name (locks_of t w)]> (regs w)) w).
Proof. reflexivity. Qed.

Lemma holds_touch t t' path w : holds t' path (touch t w) ↔ holds t' path w.
Proof. unfold holds. by rewrite locks_of_touch. Qed.

(** Acquiring a lock the thread already has: no system call, no change. *)
Lemma aquire_lock_rounds_held n t path blocking w :
  holds t path w → aquire_lock_rounds n t path blocking w = (Ok tt, w).
Proof.
  intros H. unfold aquire_lock_rounds. rewrite bind_eq, have_lock_eq.
  rewrite bool_decide_eq_true_2 by done.
  by rewrite (touch_id t w (holds_regs t path w H)).
Qed.

(** ** [release_lock], whichever way it ends *)

Lemma sem_close_res fd o :
  (sem_close fd o).1 = Ok tt ∨
  ((sem_close fd o).1 = Raise (OSError EBADF) ∧ (sem_close fd o).2 = o).
Proof. unfold sem_close. destruct (fds o !! fd); simpl; auto. Qed.

(** [release_lock] returns with the path no longer recorded, or the
    [os.close] was made to fail by the environment, and then nothing
    changed.  Other paths and other threads are not touched. *)
Lemma release_lock_spec t path w r w' :
  release_lock t path w = (r, w') →
  (∀ t', t' ≠ t → locks_of t' w' = locks_of t' w) ∧
  (∀ q, q ≠ path_str path → locks_of t w' !! q = locks_of t w !! q) ∧
  match r with
  | Ok _ =>
      ¬ holds t path w' ∧
      os w' = match locks_of t w !! path_str path with
              | Some fd => (sem_close fd (os w)).2
              | None => os w
              end
  | Raise e =>
      ∃ fd f, locks_of t w !! path_str path = Some fd ∧
              e = exn_of_fault f ∧ fault_of (next_event w) = Some f ∧
              locks_of t w' = locks_of t w ∧ os w' = os w ∧
              hist w' = (CClose fd, Raised e, os w) :: hist w
  | Hang => False
  end.
Proof.
  unfold release_lock. rewrite bind_eq, have_lock_eq.
  destruct (locks_of t w !! path_str path) as [fd|] eqn:Efd.
  2:{ rewrite bool_decide_eq_false_2 by (by intros [? ?]). simpl.
      intros [= <- <-]. split_and!.
      - intros t' _. apply locks_of_touch.
      - intros q _. by rewrite locks_of_touch.
      - rewrite holds_touch. unfold holds. rewrite Efd. by intros [? ?].
      - done. }
  rewrite bool_decide_eq_true_2 by eauto. simpl.
  rewrite bind_eq, _get_lock_eq, locks_of_touch, Efd.
  rewrite bind_eq, try_except_eq.
  destruct (os_close fd (touch t (touch t w))) as [r0 w1] eqn:Ec.
  apply syscall_inv in Ec as (Hregs & _ & _ & Hhist & Hos).
  assert (Hl : ∀ t', locks_of t' w1 = locks_of t' w).
  { intros t'. unfold locks_of at 1. rewrite Hregs.
    change (default ∅ (regs (touch t (touch t w)) !! t'))
      with (locks_of t' (touch t (touch t w))).
    by rewrite !locks_of_touch. }
  assert (Hdel : ∀ w2, _del_lock t (path_str path) w1 = (r, w2) →
    r = Ok tt ∧ os w2 = os w1 ∧
    (∀ t', t' ≠ t → locks_of t' w2 = locks_of t' w) ∧
    (∀ q, q ≠ path_str path → locks_of t w2 !! q = locks_of t w !! q) ∧
    ¬ holds t path w2).
  { intros w2. rewrite _del_lock_eq. intros [= <- <-]. split_and!; try done.
    - intros t' Hne. rewrite locks_of_insert. case_decide; [congruence|].
      apply Hl.
    - intros q Hq. rewrite locks_of_insert. case_decide; [|done].
      rewrite lookup_delete_ne by done. by rewrite Hl.
    - unfold holds. rewrite locks_of_insert. case_decide; [|done].
      rewrite lookup_delete_eq. by intros [? ?]. }
  destruct Hos as [(f & Hf & -> & Hos)|[Hf Hsem]].
  - intros H.
    assert (r = Raise (exn_of_fault f) ∧ w' = w1) as [-> ->].
    { destruct f; simpl in H; by inversion H. }
    split_and!.
    + intros t' _. apply Hl.
    + intros q _. by rewrite Hl.
    + exists fd, f. split_and!; try done. by rewrite Hhist, Hos.
  - simpl in Hsem. destruct (sem_close_res fd (os w)) as [He|[He Ho]].
    + rewrite Hsem in He. simpl in He. subst r0. simpl.
      intros H. apply Hdel in H as (-> & Hos' & H1 & H2 & H3).
      split_and!; try done. rewrite Hos'. by rewrite Hsem.
    + rewrite Hsem in He, Ho. simpl in He, Ho. subst r0. simpl.
      intros H. apply Hdel in H as (-> & Hos' & H1 & H2 & H3).
      split_and!; try done. rewrite Hos'. by rewrite Hsem.
Qed.

(** ** [aquire_lock]: descriptors and locks only grow *)

#[global] Instance grows_preorder : PreOrder grows.
Proof.
  split; [by intros o|].
  intros o1 o2 o3 (?&?&?) (?&?&?). split_and!; by etrans.
Qed.

Lemma fresh_for_grows o0 o fd :
  grows o0 o → fds o !! fd = None → (∀ i, flocks o !! i ≠ Some fd) →
  fresh_for o0 fd.
Proof.
  intros (_ & Hf & Hl) H1 H2. split.
  - by eapply lookup_weaken_None.
  - intros i Hi. apply (H2 i). by eapply lookup_weaken.
Qed.

Lemma sem_open_spec path mode o :
  ∃ i o', sem_open path mode o = (Ok (fresh_fd o), o') ∧
    names o' !! path = Some i ∧
    fds o' = <[fresh_fd o := i]> (fds o) ∧
    flocks o' = flocks o ∧
    names o ⊆ names o' ∧
    (names o !! path = None → flocks o !! i = None) ∧
    (∀ j, names o !! path = Some j → j = i ∧ names o' = names o).
Proof.
  unfold sem_open. destruct (names o !! path) as [i|] eqn:E.
  - exists i. eexists. split; [done|]. simpl. split_and!; try done.
    by intros j [= ->].
  - exists (fresh_ino o). eexists. split; [done|]. simpl. split_and!; try done.
    + apply lookup_insert_eq.
    + by apply insert_subseteq.
    + intros _. apply fresh_ino_flocks.
Qed.

Lemma sem_open_grows path mode o : grows o (sem_open path mode o).2.
Proof.
  destruct (sem_open_spec path mode o) as (i & o' & -> & _ & Hf & Hl & Hn & _).
  simpl. split_and!; [done| |by rewrite Hl].
  rewrite Hf. apply insert_subseteq, fresh_fd_fds.
Qed.

Lemma sem_flock_spec fd nb o r o' :
  sem_flock fd nb o = (r, o') →
  names o' = names o ∧ files o' = files o ∧ fds o' = fds o ∧
  flocks o ⊆ flocks o' ∧
  match r with
  | Ok _ => ∃ i, fds o !! fd = Some i ∧ flocks o' !! i = Some fd
  | Raise e =>
      o' = o ∧
      (e = OSError EBADF ∨
       (e = OSError EAGAIN ∧
        ∃ i owner, fds o !! fd = Some i ∧ flocks o !! i = Some owner ∧ owner ≠ fd))
  | Hang => o' = o ∧ nb = false
  end.
Proof.
  unfold sem_flock. destruct (fds o !! fd) as [i|] eqn:Efd.
  2:{ intros [= <- <-]. split_and!; auto. }
  destruct (flocks o !! i) as [owner|] eqn:El.
  - case_decide as Ho.
    + subst owner. intros [= <- <-]. split_and!; try done. by exists i.
    + destruct nb; intros [= <- <-]; split_and!; try done.
      right. split; [done|]. by exists i, owner.
  - intros [= <- <-]. simpl. split_and!; try done.
    + by apply insert_subseteq.
    + exists i. split; [done|]. apply lookup_insert_eq.
Qed.

Lemma sem_flock_grows fd nb o : grows o (sem_flock fd nb o).2.
Proof.
  destruct (sem_flock fd nb o) as [r o'] eqn:E.
  apply sem_flock_spec in E as (Hn & _ & Hf & Hl & _). simpl.
  split_and!; [by rewrite Hn|by rewrite Hf|done].
Qed.

(** Closing a descriptor that was opened after [o0] keeps what [o0] had. *)
Lemma sem_close_grows o0 o fd :
  grows o0 o → fresh_for o0 fd → grows o0 (sem_close fd o).2.
Proof.
  intros (Hn & Hf & Hl) [Hfd Hown]. unfold sem_close.
  destruct (fds o !! fd) as [i|] eqn:E; simpl; [|done].
  split_and!; simpl; [done| |].
  - apply map_subseteq_spec. intros k v Hk.
    rewrite lookup_delete_ne by (intros <-; congruence).
    by eapply lookup_weaken.
  - case_decide as Ho; [|done].
    apply map_subseteq_spec. intros k v Hk.
    assert (flocks o !! k = Some v) as Hk' by (by eapply lookup_weaken).
    rewrite lookup_delete_ne; [done|].
    intros <-. rewrite Ho in Hk'. injection Hk' as <-. by apply (Hown i).
Qed.

(** Closing a descriptor that owns no lock leaves the locks alone. *)
Lemma sem_close_flocks fd o :
  (∀ i, flocks o !! i ≠ Some fd) → flocks (sem_close fd o).2 = flocks o.
Proof.
  intros H. unfold sem_close. destruct (fds o !! fd) as [i|]; simpl; [|done].
  case_decide as Ho; [|done]. by destruct (H i).
Qed.

Lemma closed_or_not_grows o0 fd o o' :
  grows o0 o → fresh_for o0 fd → closed_or_not fd o o' → grows o0 o'.
Proof. intros Hg Hf [->| ->]; [done|]. by apply sem_close_grows. Qed.

Lemma closed_or_not_names fd o o' : closed_or_not fd o o' → names o' = names o.
Proof. intros [->| ->]; [done|]. apply (sem_close_fs fd o). Qed.

Lemma closed_or_not_flocks fd o o' :
  (∀ i, flocks o !! i ≠ Some fd) → closed_or_not fd o o' → flocks o' = flocks o.
Proof. intros H [->| ->]; [done|]. by apply sem_close_flocks. Qed.

Lemma closed_or_not_fds fd fd' o o' :
  fd' ≠ fd → closed_or_not fd o o' → fds o' !! fd' = fds o !! fd'.
Proof.
  intros Hne [->| ->]; [done|]. unfold sem_close.
  destruct (fds o !! fd); simpl; [|done]. by rewrite lookup_delete_ne.
Qed.

Lemma os_close_inv fd w r w' :
  os_close fd w = (r, w') →
  regs w' = regs w ∧ faults w' = tail (faults w) ∧
  closed_or_not fd (os w) (os w') ∧ r ≠ Hang.
Proof.
  intros H. apply syscall_inv in H as (Hr & _ & Hfa & _ & Hos).
  split_and!; try done.
  - destruct Hos as [(f & _ & _ & ->)|[_ Hs]]; [by left|].
    right. by rewrite Hs.
  - destruct Hos as [(f & _ & -> & _)|[_ Hs]]; [done|].
    destruct (sem_close_res fd (os w)) as [He|[He _]];
      rewrite Hs in He; simpl in He; by subst.
Qed.

Lemma os_open_inv path mode w r w' :
  os_open path mode w = (r, w') →
  regs w' = regs w ∧ faults w' = tail (faults w) ∧
  match r with
  | Ok fd => fd = fresh_fd (os w) ∧ os w' = (sem_open path mode (os w)).2
  | Raise e => os w' = os w ∧ injected e
  | Hang => False
  end.
Proof.
  intros H. apply syscall_inv in H as (Hr & _ & Hfa & _ & Hos).
  split_and!; try done.
  destruct Hos as [(f & _ & -> & ->)|[_ Hs]]; [split; [done|by exists f]|].
  destruct (sem_open_spec path mode (os w)) as (i & o' & Ho & _).
  rewrite Hs in Ho. injection Ho as -> <-. by rewrite Hs.
Qed.

Lemma os_sameopenfile_inv fd1 fd2 w r w' :
  os_sameopenfile fd1 fd2 w = (r, w') →
  regs w' = regs w ∧ faults w' = tail (faults w) ∧ os w' = os w ∧
  match r with
  | Ok same =>
      ∃ i j, fds (os w) !! fd1 = Some i ∧ fds (os w) !! fd2 = Some j ∧
             same = bool_decide (i = j)
  | Raise e => True
  | Hang => False
  end.
Proof.
  intros H. apply syscall_inv in H as (Hr & _ & Hfa & _ & Hos).
  split_and!; try done.
  - destruct Hos as [(f & _ & _ & ->)|[_ Hs]]; [done|].
    unfold sem_sameopenfile in Hs. repeat case_match; by simplify_eq.
  - destruct Hos as [(f & _ & -> & _)|[_ Hs]]; [done|].
    unfold sem_sameopenfile in Hs.
    destruct (fds (os w) !! fd1) as [i|], (fds (os w) !! fd2) as [j|];
      simplify_eq; try done.
    by exists i, j.
Qed.

Lemma flock_or_close_inv fd nb w r w' :
  flock_or_close fd nb w = (r, w') →
  regs w' = regs w ∧
  match r with
  | Ok _ =>
      names (os w') = names (os w) ∧ fds (os w') = fds (os w) ∧
      flocks (os w) ⊆ flocks (os w') ∧
      ∃ i, fds (os w) !! fd = Some i ∧ flocks (os w') !! i = Some fd
  | Raise e => closed_or_not fd (os w) (os w')
  | Hang => os w' = os w ∧ nb = false
  end.
Proof.
  unfold flock_or_close. rewrite try_except_eq.
  destruct (os_flock fd nb w) as [r0 w0] eqn:E0.
  apply syscall_inv in E0 as (Hr & _ & _ & _ & Hos).
  assert (Hclose : ∀ en, os w0 = os w →
    (os_close fd ;; raise (OSError en)) w0 = (r, w') →
    regs w' = regs w ∧ ∃ e, r = Raise e ∧ closed_or_not fd (os w) (os w')).
  { intros en Ho. rewrite bind_eq.
    destruct (os_close fd w0) as [rc wc] eqn:Ec.
    apply os_close_inv in Ec as (Hrc & _ & Hcl & Hh). rewrite Ho in Hcl.
    destruct rc as [[]|e|]; [| |done]; intros [= <- <-];
      (split; [congruence|eauto]). }
  destruct Hos as [(f & _ & -> & Ho)|[_ Hs]].
  - destruct f; simpl;
      try (intros [= <- <-]; split; [done|by left]);
      intros H; apply Hclose in H as (? & e & -> & ?); done.
  - apply sem_flock_spec in Hs as (Hn & _ & Hf & Hl & Hres).
    destruct r0 as [[]|e|].
    + intros [= <- <-]. split; [done|]. split_and!; done.
    + destruct Hres as [Ho [->|[-> _]]];
        intros H; apply Hclose in H as (? & e' & -> & ?); done.
    + intros [= <- <-]. split; [done|]. by destruct Hres as [-> ->].
Qed.

Lemma lock_loop_unfold n path blocking fd :
  lock_loop (S n) path blocking fd =
    (flock_or_close fd (negb blocking) ;;
     fd_new ← os_open (path_str path) mode_0o660;
     same ← os_sameopenfile fd fd_new;
     if same : bool then os_close fd_new ;; mret fd
     else os_close fd ;; lock_loop n path blocking fd_new).
Proof. reflexivity. Qed.

(** One pass through the loop on a descriptor [fd] of the file the path
    names.  [o0] is the state before [fd] was opened: what it had is kept,
    and on return [fd] is open on the file and owns its lock.  The second
    [os.open] finds the same file, so the loop is left after this pass:
    the result is that of a single round. *)
Lemma lock_loop_spec n path blocking fd o0 i w r w' :
  grows o0 (os w) → fresh_for o0 fd →
  names (os w) !! path_str path = Some i → fds (os w) !! fd = Some i →
  lock_loop (S n) path blocking fd w = (r, w') →
  regs w' = regs w ∧ grows o0 (os w') ∧
  lock_loop 1 path blocking fd w = (r, w') ∧
  match r with
  | Ok fd' =>
      fd' = fd ∧ names (os w') !! path_str path = Some i ∧
      fds (os w') !! fd = Some i ∧ flocks (os w') !! i = Some fd
  | _ => True
  end.
Proof.
  intros Hg Hfr Hn Hfd. rewrite !lock_loop_unfold, !bind_eq.
  destruct (flock_or_close fd (negb blocking) w) as [r1 w1] eqn:E1.
  apply flock_or_close_inv in E1 as [Hr1 H1].
  destruct r1 as [[]|e|].
  2:{ intros [= <- <-]. split_and!; try done.
      by eapply closed_or_not_grows. }
  2:{ intros [= <- <-]. destruct H1 as [H1 _]. split_and!; try done.
      by rewrite H1. }
  destruct H1 as (Hn1 & Hf1 & Hl1 & i' & Hi' & Hown).
  assert (i' = i) as -> by congruence.
  assert (Hg1 : grows o0 (os w1)).
  { destruct Hg as (?&?&?). split_and!; [by rewrite Hn1|by rewrite Hf1|by etrans]. }
  rewrite !bind_eq.
  destruct (os_open (path_str path) mode_0o660 w1) as [r2 w2] eqn:E2.
  apply os_open_inv in E2 as (Hr2 & _ & H2).
  destruct r2 as [fd2|e|]; [| |done].
  2:{ intros [= <- <-]. destruct H2 as [H2 _]. split_and!; try done;
        [congruence|by rewrite H2]. }
  destruct H2 as [-> Ho2].
  destruct (sem_open_spec (path_str path) mode_0o660 (os w1))
    as (i2 & o2 & Hs & Hn2 & Hf2 & Hl2 & Hsub2 & _ & Hsame).
  rewrite Hs in Ho2. simpl in Ho2. subst o2.
  destruct (Hsame i) as [-> Hnn]; [by rewrite Hn1|].
  set (fd2 := fresh_fd (os w1)) in *.
  assert (Hfd2 : fds (os w1) !! fd2 = None) by apply fresh_fd_fds.
  assert (Hne : fd ≠ fd2) by (intros ->; rewrite Hf1 in Hfd2; congruence).
  assert (Hfr2 : fresh_for o0 fd2).
  { apply (fresh_for_grows o0 (os w1)); [done|done|apply fresh_fd_flocks]. }
  assert (Hg2 : grows o0 (os w2)).
  { etrans; [exact Hg1|].
    pose proof (sem_open_grows (path_str path) mode_0o660 (os w1)) as G.
    by rewrite Hs in G. }
  rewrite !bind_eq.
  destruct (os_sameopenfile fd fd2 w2) as [r3 w3] eqn:E3.
  apply os_sameopenfile_inv in E3 as (Hr3 & _ & Ho3 & H3).
  destruct r3 as [same|e|]; [| |done].
  2:{ intros [= <- <-]. split_and!; try done; [congruence|by rewrite Ho3]. }
  destruct H3 as (a & b & Ha & Hb & ->).
  rewrite Hf2, lookup_insert_ne, Hf1, Hfd in Ha by done.
  rewrite Hf2, lookup_insert_eq in Hb. simplify_eq.
  rewrite bool_decide_eq_true_2 by done. rewrite !bind_eq.
  destruct (os_close fd2 w3) as [r4 w4] eqn:E4.
  apply os_close_inv in E4 as (Hr4 & _ & Hcl & Hh). rewrite Ho3 in Hcl.
  assert (Hg4 : grows o0 (os w4)) by (by eapply closed_or_not_grows).
  assert (regs w4 = regs w) as Hregs by congruence.
  destruct r4 as [[]|e|]; [| |done]; intros [= <- <-]; split_and!; try done.
  - rewrite (closed_or_not_names _ _ _ Hcl). congruence.
  - rewrite (closed_or_not_fds fd2 fd _ _ Hne Hcl), Hf2.
    rewrite lookup_insert_ne by done. congruence.
  - rewrite (closed_or_not_flocks fd2 (os w2) (os w4)); [by rewrite Hl2| |done].
    rewrite Hl2. apply fresh_fd_flocks.
Qed.

(** The result of [aquire_lock] does not depend on how many rounds of the
    loop the model allows, as long as it allows one. *)
Lemma aquire_lock_rounds_S n t path blocking w :
  aquire_lock_rounds (S n) t path blocking w = aquire_lock t path blocking w.
Proof.
  unfold aquire_lock, aquire_lock_rounds. rewrite !bind_eq, have_lock_eq.
  destruct (bool_decide _); [done|]. rewrite !bind_eq.
  destruct (os_makedirs (parent path) mode_0o770 (touch t w)) as [r0 w0] eqn:E0.
  destruct r0 as [[]|e|]; [|done|done]. rewrite !bind_eq.
  destruct (os_open (path_str path) mode_0o660 w0) as [r1 w1] eqn:E1.
  apply os_open_inv in E1 as (Hr1 & _ & H1).
  destruct r1 as [fd|e|]; [|done|done]. destruct H1 as [-> Ho1].
  destruct (sem_open_spec (path_str path) mode_0o660 (os w0))
    as (i & o1 & Hs & Hn & Hf & _).
  rewrite Hs in Ho1. simpl in Ho1. subst o1.
  rewrite !bind_eq.
  destruct (lock_loop (S n) path blocking (fresh_fd (os w0)) w1)
    as [r2 w2] eqn:E2.
  eapply (lock_loop_spec _ _ _ _ (os w0)) in E2 as (_ & _ & E2 & _).
  - by rewrite E2.
  - pose proof (sem_open_grows (path_str path) mode_0o660 (os w0)) as G.
    by rewrite Hs in G.
  - split; [apply fresh_fd_fds|apply fresh_fd_flocks].
  - exact Hn.
  - by rewrite Hf, lookup_insert_eq.
Qed.

Lemma os_makedirs_inv dir mode w r w' :
  os_makedirs dir mode w = (r, w') →
  regs w' = regs w ∧ faults w' = tail (faults w) ∧ os w' = os w.
Proof.
  intros H. apply syscall_inv in H as (Hr & _ & Hfa & _ & Hos).
  split_and!; try done.
  destruct Hos as [(f & _ & _ & ->)|[_ Hs]]; [done|].
  by injection Hs as _ <-.
Qed.

Lemma locks_of_regs t w w' : regs w' = regs w → locks_of t w' = locks_of t w.
Proof. unfold locks_of. by intros ->. Qed.

(** [aquire_lock] on a path the thread does not hold yet, whichever way it
    ends: names, descriptors and lock owners that were there are kept; if
    it returns, the path is recorded with a descriptor that was not open
    before, is open on the file the path names, and owns its lock; if it
    does not, no registry changed. *)
Lemma aquire_lock_spec t path blocking w r w' :
  aquire_lock t path blocking w = (r, w') → ¬ holds t path w →
  grows (os w) (os w') ∧
  match r with
  | Ok _ =>
      ∃ fd i,
        locks_of t w' = <[path_str path := fd]> (locks_of t w) ∧
        (∀ t', t' ≠ t → locks_of t' w' = locks_of t' w) ∧
        names (os w') !! path_str path = Some i ∧
        fds (os w') !! fd = Some i ∧
        flocks (os w') !! i = Some fd ∧
        fresh_for (os w) fd
  | _ => ∀ t', locks_of t' w' = locks_of t' w
  end.
Proof.
  unfold aquire_lock, aquire_lock_rounds. intros H Hnh.
  rewrite bind_eq, have_lock_eq in H.
  rewrite bool_decide_eq_false_2 in H by done. rewrite !bind_eq in H.
  destruct (os_makedirs (parent path) mode_0o770 (touch t w)) as [r0 w0] eqn:E0.
  apply os_makedirs_inv in E0 as (Hr0 & _ & Ho0). simpl in Ho0.
  assert (Hl0 : ∀ t', locks_of t' w0 = locks_of t' w).
  { intros t'. rewrite (locks_of_regs t' (touch t w) w0 Hr0).
    apply locks_of_touch. }
  destruct r0 as [[]|e|]; simplify_eq.
  2:{ split; [by rewrite Ho0|done]. }
  2:{ split; [by rewrite Ho0|done]. }
  rewrite !bind_eq in H.
  destruct (os_open (path_str path) mode_0o660 w0) as [r1 w1] eqn:E1.
  apply os_open_inv in E1 as (Hr1 & _ & H1).
  assert (Hl1 : ∀ t', locks_of t' w1 = locks_of t' w).
  { intros t'. by rewrite (locks_of_regs t' w0 w1 Hr1). }
  destruct r1 as [fd|e|]; [| |done].
  2:{ simplify_eq. destruct H1 as [-> _]. split; [by rewrite Ho0|done]. }
  destruct H1 as [-> Ho1].
  destruct (sem_open_spec (path_str path) mode_0o660 (os w0))
    as (i & o1 & Hs & Hn & Hf & _).
  rewrite Hs in Ho1. simpl in Ho1. subst o1.
  assert (Hg1 : grows (os w0) (os w1)).
  { pose proof (sem_open_grows (path_str path) mode_0o660 (os w0)) as G.
    by rewrite Hs in G. }
  assert (Hfr : fresh_for (os w0) (fresh_fd (os w0))).
  { split; [apply fresh_fd_fds|apply fresh_fd_flocks]. }
  rewrite !bind_eq in H.
  destruct (lock_loop 1 path blocking (fresh_fd (os w0)) w1) as [r2 w2] eqn:E2.
  eapply (lock_loop_spec _ _ _ _ (os w0)) in E2 as (Hr2 & Hg2 & _ & H2);
    [|done|done|exact Hn|by rewrite Hf, lookup_insert_eq].
  assert (Hl2 : ∀ t', locks_of t' w2 = locks_of t' w).
  { intros t'. by rewrite (locks_of_regs t' w1 w2 Hr2). }
  rewrite Ho0 in Hg2, Hfr.
  destruct r2 as [fd|e|]; simplify_eq; [|done|done].
  destruct H2 as (-> & Hn2 & Hf2 & Hl).
  rewrite _set_lock_eq in H. simplify_eq.
  split; [done|]. exists (fresh_fd (os w0)), i. split_and!; try done.
  - rewrite locks_of_insert, decide_True by done. by rewrite Hl2.
  - intros t' Hne. rewrite locks_of_insert, decide_False by done. apply Hl2.
  - by rewrite Ho0.
Qed.

(** ** Runs without injected faults *)

Lemma syscall_quiet_inv {A} c (sem : OS → Res A * OS) w :
  quiet w →
  ∃ w', syscall c sem w = ((sem (os w)).1, w') ∧ quiet w' ∧
        regs w' = regs w ∧ suffixes w' = suffixes w ∧
        os w' = (sem (os w)).2 ∧
        hist w' = (c, outcome_of (sem (os w)).1, (sem (os w)).2) :: hist w.
Proof.
  intros Hq. eexists. rewrite (syscall_quiet c sem w Hq).
  split_and!; try done. simpl. unfold quiet in *. simpl. by rewrite Hq.
Qed.

Lemma sem_flock_free fd nb o i :
  fds o !! fd = Some i → flocks o !! i = None →
  sem_flock fd nb o = (Ok tt, mkOS (names o) (files o) (fds o) (<[i := fd]> (flocks o))).
Proof. intros H1 H2. unfold sem_flock. by rewrite H1, H2. Qed.

Lemma sem_sameopenfile_same fd1 fd2 o i :
  fds o !! fd1 = Some i → fds o !! fd2 = Some i →
  sem_sameopenfile fd1 fd2 o = (Ok true, o).
Proof.
  intros H1 H2. unfold sem_sameopenfile. rewrite H1, H2.
  by rewrite bool_decide_eq_true_2.
Qed.

Lemma sem_close_open fd o i :
  fds o !! fd = Some i →
  sem_close fd o =
    (Ok tt, mkOS (names o) (files o) (delete fd (fds o))
              (if decide (flocks o !! i = Some fd) then delete i (flocks o)
               else flocks o)).
Proof. intros H. unfold sem_close. by rewrite H. Qed.

Lemma flock_calls_cons c oc o w w' :
  hist w' = (c, oc, o) :: hist w →
  flock_calls w' = (if is_flock (c, oc, o) then 1 else 0) + flock_calls w.
Proof.
  unfold flock_calls. intros ->. rewrite filter_cons.
  by destruct (is_flock (c, oc, o)) eqn:E; simpl; rewrite ?E.
Qed.

(** Without faults and without another owner of the lock, [aquire_lock]
    returns: one [flock] call, one more open descriptor, which owns the
    lock of the file. *)
Lemma aquire_lock_quiet t path blocking w :
  quiet w → ¬ holds t path w → lock_free path (os w) →
  ∃ w' i,
    aquire_lock t path blocking w = (Ok tt, w') ∧ quiet w' ∧
    suffixes w' = suffixes w ∧
    flock_calls w' = S (flock_calls w) ∧
    names (os w') = names (sem_open (path_str path) mode_0o660 (os w)).2 ∧
    names (os w') !! path_str path = Some i ∧
    fds (os w') = <[fresh_fd (os w) := i]> (fds (os w)) ∧
    flocks (os w') = <[i := fresh_fd (os w)]> (flocks (os w)) ∧
    flocks (os w) !! i = None ∧
    locks_of t w' = <[path_str path := fresh_fd (os w)]> (locks_of t w) ∧
    (∀ t', t' ≠ t → locks_of t' w' = locks_of t' w).
Proof.
  intros Hq Hnh Hfree. unfold aquire_lock, aquire_lock_rounds.
  rewrite bind_eq, have_lock_eq, bool_decide_eq_false_2 by done.
  rewrite !bind_eq. unfold os_makedirs.
  destruct (syscall_quiet_inv (CMakedirs (parent path) mode_0o770)
              sem_makedirs (touch t w) Hq)
    as (w0 & -> & Hq0 & Hr0 & Hs0 & Ho0 & Hh0). cbn [fst snd sem_makedirs] in *.
  change (os (touch t w)) with (os w) in *.
  change (suffixes (touch t w)) with (suffixes w) in *.
  change (hist (touch t w)) with (hist w) in *.
  rewrite !bind_eq. unfold os_open at 1.
  destruct (syscall_quiet_inv (COpen (path_str path) mode_0o660)
              (sem_open (path_str path) mode_0o660) w0 Hq0)
    as (w1 & -> & Hq1 & Hr1 & Hs1 & Ho1 & Hh1).
  destruct (sem_open_spec (path_str path) mode_0o660 (os w0))
    as (i & o1 & Hs & Hn & Hf & Hl & _ & Hnew & Hold).
  rewrite Hs in *. cbn [fst snd] in *. rewrite Ho0 in *.
  set (fd := fresh_fd (os w)) in *.
  assert (Hfd1 : fds (os w1) !! fd = Some i).
  { by rewrite Ho1, Hf, lookup_insert_eq. }
  assert (Hl1 : flocks (os w1) !! i = None).
  { rewrite Ho1, Hl. destruct (names (os w) !! path_str path) as [j|] eqn:Ej.
    - destruct (Hold j eq_refl) as [-> _]. by apply Hfree.
    - by apply Hnew. }
  rewrite !bind_eq, lock_loop_unfold, !bind_eq.
  unfold flock_or_close. rewrite try_except_eq. unfold os_flock.
  destruct (syscall_quiet_inv (CFlock fd (negb blocking))
              (sem_flock fd (negb blocking)) w1 Hq1)
    as (w2 & -> & Hq2 & Hr2 & Hs2 & Ho2 & Hh2).
  rewrite (sem_flock_free fd (negb blocking) (os w1) i Hfd1 Hl1) in *. cbn [fst snd] in *.
  rewrite !bind_eq. unfold os_open.
  destruct (syscall_quiet_inv (COpen (path_str path) mode_0o660)
              (sem_open (path_str path) mode_0o660) w2 Hq2)
    as (w3 & -> & Hq3 & Hr3 & Hs3 & Ho3 & Hh3).
  destruct (sem_open_spec (path_str path) mode_0o660 (os w2))
    as (i' & o3 & Hs' & Hn' & Hf' & Hl' & _ & _ & Hold').
  rewrite Hs' in *. cbn [fst snd] in *.
  destruct (Hold' i) as [<- Hnn]. { by rewrite Ho2; simpl; rewrite Ho1. }
  set (fd2 := fresh_fd (os w2)) in *.
  assert (Hfd2 : fds (os w2) !! fd2 = None) by apply fresh_fd_fds.
  assert (Hne : fd ≠ fd2).
  { intros E. rewrite <- E, Ho2 in Hfd2. simpl in Hfd2. congruence. }
  rewrite !bind_eq. unfold os_sameopenfile.
  destruct (syscall_quiet_inv (CSameopenfile fd fd2)
              (sem_sameopenfile fd fd2) w3 Hq3)
    as (w4 & -> & Hq4 & Hr4 & Hs4 & Ho4 & Hh4).
  assert (Hsm : sem_sameopenfile fd fd2 (os w3) = (Ok true, os w3)).
  { apply (sem_sameopenfile_same fd fd2 (os w3) i).
    - rewrite Ho3, Hf', lookup_insert_ne, Ho2 by done. done.
    - rewrite Ho3, Hf', lookup_insert_eq. done. }
  rewrite Hsm in *.
  cbn [fst snd] in *. rewrite !bind_eq. unfold os_close.
  destruct (syscall_quiet_inv (CClose fd2) (sem_close fd2) w4 Hq4)
    as (w5 & -> & Hq5 & Hr5 & Hs5 & Ho5 & Hh5).
  assert (Hcl : fds (os w4) !! fd2 = Some i).
  { rewrite Ho4, Ho3, Hf', lookup_insert_eq. done. }
  rewrite (sem_close_open fd2 (os w4) i Hcl) in *.
  cbn [fst snd] in *. rewrite ret_eq, _set_lock_eq.
  eexists _, i. split; [done|].
  assert (Hfl : flocks (os w4) = <[i := fd]> (flocks (os w))).
  { rewrite Ho4, Ho3, Hl', Ho2. simpl. by rewrite Ho1, Hl. }
  split_and!.
  - exact Hq5.
  - change (suffixes w5 = suffixes w). congruence.
  - change (flock_calls w5 = S (flock_calls w)).
    rewrite (flock_calls_cons _ _ _ _ _ Hh5), (flock_calls_cons _ _ _ _ _ Hh4),
      (flock_calls_cons _ _ _ _ _ Hh3), (flock_calls_cons _ _ _ _ _ Hh2),
      (flock_calls_cons _ _ _ _ _ Hh1), (flock_calls_cons _ _ _ _ _ Hh0).
    done.
  - rewrite Hs. change (names (os w5) = names o1).
    rewrite Ho5. simpl. rewrite Ho4, Ho3, Hnn, Ho2. simpl. by rewrite Ho1.
  - change (names (os w5) !! path_str path = Some i).
    rewrite Ho5. simpl. rewrite Ho4, Ho3, Hnn, Ho2. simpl. by rewrite Ho1.
  - change (fds (os w5) = <[fd := i]> (fds (os w))).
    rewrite Ho5. simpl. rewrite Ho4, Ho3, Hf', delete_insert_id by done.
    rewrite Ho2. simpl. by rewrite Ho1, Hf.
  - change (flocks (os w5) = <[i := fd]> (flocks (os w))).
    rewrite Ho5. simpl. rewrite Hfl, lookup_insert_eq.
    rewrite decide_False; [done|]. intros [= E]. done.
  - by rewrite <- Hl, <- Ho1.
  - rewrite locks_of_insert, decide_True by done. f_equal.
    rewrite <- (locks_of_touch t t w). unfold locks_of. congruence.
  - intros t' Ht. rewrite locks_of_insert, decide_False by done.
    rewrite <- (locks_of_touch t t' w). unfold locks_of. congruence.
Qed.

(** ** The environment script only shrinks *)

#[global] Instance Later_preorder : PreOrder Later.
Proof.
  split; [intros w; unfold Later; reflexivity|].
  intros w1 w2 w3 H1 H2. unfold Later in *. by etrans.
Qed.

Lemma Later_quiet w w' : Later w w' → quiet w → quiet w'.
Proof.
  unfold Later, quiet. intros H E. rewrite E in H.
  by apply suffix_nil_inv in H.
Qed.

Lemma Later_pop w w' : faults w' = faults (pop w) → Later w w'.
Proof.
  unfold Later. intros ->. simpl. destruct (faults w); [done|].
  by apply suffix_cons_r.
Qed.

Lemma Later_syscall {A} c (sem : OS → Res A * OS) : preserves Later (syscall c sem).
Proof. apply preserves_syscall; intros w oc; by apply Later_pop. Qed.

Lemma Later_with_lock_dict {A} t (func : gmap string nat → A * gmap string nat) :
  preserves Later (with_lock_dict t func).
Proof.
  intros w. unfold with_lock_dict. destruct (func _). unfold Later. simpl.
  reflexivity.
Qed.

Lemma write_bytes_faults fd i data w :
  faults (write_bytes fd i data w) = faults w.
Proof. revert w. induction data as [|b data IH]; intros w; [done|]. simpl. by rewrite IH. Qed.

Lemma Later_os_write fd data : preserves Later (os_write fd data).
Proof.
  intros w. unfold os_write.
  destruct (fds (os w) !! fd); [|by apply Later_pop].
  destruct (next_event w); simpl; apply Later_pop; simpl;
    by rewrite ?write_bytes_faults.
Qed.

Lemma Later_NamedTemporaryFile dir prefix :
  preserves Later (NamedTemporaryFile dir prefix).
Proof.
  intros w. unfold NamedTemporaryFile.
  destruct (fault_of (next_event w)); [by apply Later_pop|].
  destruct (pick_name _ _ _) as [[file rest]|]; by apply Later_pop.
Qed.

Ltac later_step :=
  first
    [ apply Later_syscall | apply Later_with_lock_dict | apply Later_os_write
    | apply Later_NamedTemporaryFile | pres_step ].

Lemma Later_lock_loop n path blocking fd :
  preserves Later (lock_loop n path blocking fd).
Proof.
  revert fd. induction n as [|n IH]; intros fd; simpl.
  { apply preserves_hang; apply _. }
  repeat first [ apply IH | later_step ].
Qed.

Lemma Later_aquire_lock t path blocking :
  preserves Later (aquire_lock t path blocking).
Proof.
  unfold aquire_lock, aquire_lock_rounds.
  repeat first [ apply Later_lock_loop | later_step ].
Qed.

Lemma Later_release_lock t path : preserves Later (release_lock t path).
Proof. unfold release_lock. repeat later_step. Qed.

Lemma Later_save_except {A} path tmp e : preserves Later (@save_except A path tmp e).
Proof. unfold save_except. repeat later_step. Qed.

Lemma Later_save_data t path data mode :
  preserves Later (_save_data_to_file t path data mode).
Proof.
  unfold _save_data_to_file, save_try.
  repeat first
    [ apply Later_aquire_lock | apply Later_release_lock
    | apply Later_save_except | later_step ].
Qed.

Lemma Later_load_bytes t path lock :
  preserves Later (_load_bytes_from_file t path lock).
Proof.
  unfold _load_bytes_from_file.
  repeat first
    [ apply Later_aquire_lock | apply Later_release_lock | later_step ].
Qed.

Lemma release_lock_quiet t path w fd :
  quiet w → locks_of t w !! path_str path = Some fd →
  ∃ w', release_lock t path w = (Ok tt, w') ∧ quiet w' ∧
        ¬ holds t path w' ∧ os w' = (sem_close fd (os w)).2 ∧
        (∀ t', t' ≠ t → locks_of t' w' = locks_of t' w) ∧
        (∀ q, q ≠ path_str path → locks_of t w' !! q = locks_of t w !! q).
Proof.
  intros Hq Hfd. destruct (release_lock t path w) as [r w'] eqn:E.
  pose proof (Later_release_lock t path w) as HL. rewrite E in HL.
  apply release_lock_spec in E as (H1 & H2 & H3).
  destruct r as [[]|e|]; [| |done].
  - exists w'. rewrite Hfd in H3. destruct H3 as [H3 H4].
    split_and!; try done. by eapply Later_quiet.
  - destruct H3 as (? & f & _ & _ & Hf & _).
    by rewrite (quiet_next w Hq) in Hf.
Qed.

Lemma aquire_lock_held t path blocking w :
  holds t path w → aquire_lock t path blocking w = (Ok tt, w).
Proof. apply aquire_lock_rounds_held. Qed.

(** ** The invariant of the lock registries *)








(** ** A lock somebody else owns *)

Lemma sem_flock_busy fd o i owner :
  fds o !! fd = Some i → flocks o !! i = Some owner → owner ≠ fd →
  sem_flock fd true o = (Raise (OSError EAGAIN), o).
Proof. intros H1 H2 H3. unfold sem_flock. by rewrite H1, H2, decide_False. Qed.

(** Without faults, a non-blocking acquisition of a lock that another
    descriptor owns ends in [EAGAIN], with the own descriptor closed
    again. *)
Lemma aquire_lock_busy t path w i owner :
  quiet w → ¬ holds t path w →
  names (os w) !! path_str path = Some i → flocks (os w) !! i = Some owner →
  ∃ w', aquire_lock t path false w = (Raise (OSError EAGAIN), w') ∧
        os w' = os w.
Proof.
  intros Hq Hnh Hn Hl. unfold aquire_lock, aquire_lock_rounds.
  rewrite bind_eq, have_lock_eq, bool_decide_eq_false_2 by done.
  rewrite !bind_eq. unfold os_makedirs.
  destruct (syscall_quiet_inv (CMakedirs (parent path) mode_0o770)
              sem_makedirs (touch t w) Hq)
    as (w0 & -> & Hq0 & _ & _ & Ho0 & _). cbn [fst snd sem_makedirs] in *.
  change (os (touch t w)) with (os w) in *.
  rewrite !bind_eq. unfold os_open at 1.
  destruct (syscall_quiet_inv (COpen (path_str path) mode_0o660)
              (sem_open (path_str path) mode_0o660) w0 Hq0)
    as (w1 & -> & Hq1 & _ & _ & Ho1 & _).
  rewrite Ho0 in *.
  assert (Hs : sem_open (path_str path) mode_0o660 (os w) =
    (Ok (fresh_fd (os w)),
     mkOS (names (os w)) (files (os w)) (<[fresh_fd (os w) := i]> (fds (os w)))
          (flocks (os w)))).
  { unfold sem_open. by rewrite Hn. }
  rewrite Hs in *. cbn [fst snd] in *.
  set (fd := fresh_fd (os w)) in *.
  assert (Hne : owner ≠ fd).
  { intros ->. by apply (fresh_fd_flocks (os w) i). }
  rewrite !bind_eq, lock_loop_unfold, !bind_eq.
  unfold flock_or_close. rewrite try_except_eq. unfold os_flock.
  destruct (syscall_quiet_inv (CFlock fd (negb false))
              (sem_flock fd (negb false)) w1 Hq1)
    as (w2 & -> & Hq2 & _ & _ & Ho2 & _).
  assert (Hb : sem_flock fd true (os w1) = (Raise (OSError EAGAIN), os w1)).
  { apply (sem_flock_busy fd (os w1) i owner);
      [rewrite Ho1; simpl; apply lookup_insert_eq|by rewrite Ho1|done]. }
  cbn [negb] in *. rewrite Hb in *. cbn [fst snd] in *.
  rewrite bind_eq. unfold os_close.
  destruct (syscall_quiet_inv (CClose fd) (sem_close fd) w2 Hq2)
    as (w3 & -> & Hq3 & _ & _ & Ho3 & _).
  assert (Hfd : fds (os w2) !! fd = Some i).
  { rewrite Ho2, Ho1. simpl. apply lookup_insert_eq. }
  rewrite (sem_close_open fd (os w2) i Hfd) in *. cbn [fst snd] in *.
  rewrite raise_eq. exists w3. split; [done|].
  rewrite Ho3, Ho2, Ho1. simpl.
  rewrite delete_insert_id by apply fresh_fd_fds.
  rewrite decide_False by congruence. by destruct (os w).
Qed.

Lemma try_aquire_lock_cases t path w :
  match aquire_lock t path false w with
  | (Ok _, w') => try_aquire_lock t path w = (Ok true, w')
  | (Raise e, w') =>
      try_aquire_lock t path w =
        (if is_EAGAIN e then Ok false else Raise e, w')
  | (Hang, w') => try_aquire_lock t path w = (Hang, w')
  end.
Proof.
  unfold try_aquire_lock. rewrite try_except_eq, bind_eq.
  destruct (aquire_lock t path false w) as [[[]|e|] w']; try done.
  destruct e as [en| | | | | | | | |]; try done.
  destruct en; done.
Qed.

(** While another descriptor owns the lock of the file, [try_aquire_lock]
    never returns [True] and never records the path, whatever the
    environment does. *)
Lemma try_aquire_lock_owned t path w i owner r w' :
  ¬ holds t path w →
  names (os w) !! path_str path = Some i → flocks (os w) !! i = Some owner →
  try_aquire_lock t path w = (r, w') →
  r ≠ Ok true ∧ ∀ t', locks_of t' w' = locks_of t' w.
Proof.
  intros Hnh Hn Hl H. pose proof (try_aquire_lock_cases t path w) as Hc.
  destruct (aquire_lock t path false w) as [r0 w0] eqn:E.
  apply aquire_lock_spec in E as [(Gn & _ & Gl) H0]; [|done].
  destruct r0 as [[]|e|].
  - destruct H0 as (fd & j & _ & _ & Hn' & _ & Hl' & [_ Hfr]).
    pose proof (lookup_weaken _ _ _ _ Hn Gn) as Hn2.
    pose proof (lookup_weaken _ _ _ _ Hl Gl) as Hl2.
    assert (j = i) as -> by congruence.
    assert (owner = fd) as -> by congruence.
    by destruct (Hfr i).
  - rewrite Hc in H. injection H as <- <-. split; [|done]. by destruct (is_EAGAIN e).
  - rewrite Hc in H. injection H as <- <-. by split.
Qed.

(** ** Which exceptions a computation can raise *)

Section RaisesOnly.
Context (P : exn → Prop).

Lemma raises_ret {A} (a : A) : raises_only P (mret a).
Proof. by intros w e w'. Qed.

Lemma raises_hang {A} : raises_only P (@hang A).
Proof. by intros w e w'. Qed.

Lemma raises_raise {A} e : P e → raises_only P (@raise A e).
Proof. intros He w e' w' [= <- _]. done. Qed.

Lemma raises_bind {A B} (m : M A) (k : A → M B) :
  raises_only P m → (∀ a, raises_only P (k a)) → raises_only P (m ≫= k).
Proof.
  intros Hm Hk w e w'. rewrite bind_eq.
  destruct (m w) as [[a|e0|] w0] eqn:E; [apply Hk| |done].
  intros [= <- <-]. by eapply Hm.
Qed.

Lemma raises_try_except {A} (m : M A) h :
  raises_only P m → (∀ e, P e → raises_only P (h e)) →
  raises_only P (try_except m h).
Proof.
  intros Hm Hh w e w'. rewrite try_except_eq.
  destruct (m w) as [[a|e0|] w0] eqn:E; [done| |done].
  apply Hh. by eapply Hm.
Qed.

Lemma raises_with_lock_dict {A} t (func : gmap string nat → A * gmap string nat) :
  raises_only P (with_lock_dict t func).
Proof. intros w e w'. unfold with_lock_dict. by destruct (func _). Qed.

Lemma raises_syscall {A} c (sem : OS → Res A * OS) :
  (∀ f, P (exn_of_fault f)) → (∀ o e o', sem o = (Raise e, o') → P e) →
  raises_only P (syscall c sem).
Proof.
  intros Hf Hs w e w' H. apply syscall_inv in H as (_ & _ & _ & _ & Hos).
  destruct Hos as [(f & _ & [= ->] & _)|[_ Hsem]]; [done|by eapply Hs].
Qed.
End RaisesOnly.

Lemma from_os_fault f : from_os (exn_of_fault f).
Proof. by destruct f. Qed.

Lemma raises_os_flock fd nb : raises_only from_os (os_flock fd nb).
Proof.
  apply raises_syscall; [apply from_os_fault|]. intros o e o' H.
  apply sem_flock_spec in H as (_ & _ & _ & _ & _ & [->|[-> _]]); done.
Qed.

Lemma raises_os_close fd : raises_only from_os (os_close fd).
Proof.
  apply raises_syscall; [apply from_os_fault|]. intros o e o' H.
  destruct (sem_close_res fd o) as [E|[E _]]; rewrite H in E; simpl in E;
    by simplify_eq.
Qed.

Lemma raises_os_open p m : raises_only from_os (os_open p m).
Proof.
  apply raises_syscall; [apply from_os_fault|]. intros o e o' H.
  destruct (sem_open_spec p m o) as (i & o1 & E & _). congruence.
Qed.

Lemma raises_os_sameopenfile fd1 fd2 : raises_only from_os (os_sameopenfile fd1 fd2).
Proof.
  apply raises_syscall; [apply from_os_fault|]. intros o e o'.
  unfold sem_sameopenfile. repeat case_match; intros; by simplify_eq.
Qed.

Lemma raises_os_makedirs d m : raises_only from_os (os_makedirs d m).
Proof. apply raises_syscall; [apply from_os_fault|]. by intros o e o'. Qed.

Lemma raises_os_read_bytes p : raises_only from_os (os_read_bytes p).
Proof.
  apply raises_syscall; [apply from_os_fault|]. intros o e o'.
  unfold sem_read_bytes. case_match; intros; by simplify_eq.
Qed.

Ltac raises_step :=
  lazymatch goal with
  | |- raises_only _ (mret _) => apply raises_ret
  | |- raises_only _ hang => apply raises_hang
  | |- raises_only _ (raise _) => apply raises_raise; try done
  | |- raises_only _ (with_lock_dict _ _) => apply raises_with_lock_dict
  | |- raises_only _ (os_flock _ _) => apply raises_os_flock
  | |- raises_only _ (os_close _) => apply raises_os_close
  | |- raises_only _ (os_open _ _) => apply raises_os_open
  | |- raises_only _ (os_sameopenfile _ _) => apply raises_os_sameopenfile
  | |- raises_only _ (os_makedirs _ _) => apply raises_os_makedirs
  | |- raises_only _ (os_read_bytes _) => apply raises_os_read_bytes
  | |- raises_only _ (_ ≫= _) => apply raises_bind; [|intros ?]
  | |- raises_only _ (try_except _ _) => apply raises_try_except; [|intros ? ?]
  | |- raises_only _ (match ?x with _ => _ end) => destruct x
  end.

Lemma raises_lock_loop n path blocking fd :
  raises_only from_os (lock_loop n path blocking fd).
Proof.
  revert fd. induction n as [|n IH]; intros fd; simpl.
  { apply raises_hang. }
  repeat first [ apply IH | raises_step ].
Qed.

Lemma raises_aquire_lock t path blocking :
  raises_only from_os (aquire_lock t path blocking).
Proof.
  unfold aquire_lock, aquire_lock_rounds, have_lock, _has_lock, _set_lock.
  repeat first [ apply raises_lock_loop | raises_step ].
Qed.

Lemma raises_release_lock t path : raises_only from_os (release_lock t path).
Proof.
  unfold release_lock, have_lock, _has_lock, _get_lock, _del_lock.
  repeat raises_step.
Qed.

Lemma try_finally_eq {A} (m : M A) f w :
  try_finally m f w =
  match m w with
  | (Hang, w') => (Hang, w')
  | (r, w') =>
      match f w' with
      | (Ok _, w'') => (r, w'')
      | (Raise e, w'') => (Raise e, w'')
      | (Hang, w'') => (Hang, w'')
      end
  end.
Proof. reflexivity. Qed.

(** A returned [aquire_lock] leaves the path recorded. *)
Lemma aquire_lock_ok_holds t path blocking w w' :
  aquire_lock t path blocking w = (Ok tt, w') → holds t path w'.
Proof.
  intros H. destruct (decide (holds t path w)) as [Hh|Hnh].
  - rewrite aquire_lock_held in H by done. by simplify_eq.
  - apply aquire_lock_spec in H as [_ (fd & i & Hl & _)]; [|done].
    unfold holds. rewrite Hl, lookup_insert_eq. eauto.
Qed.

(** ** Loading under the lock *)

(** [release_lock(path); raise e]: [e] is raised with the lock released,
    unless the release itself raised. *)
Lemma release_then_raise {A} t path e w :
  match (release_lock t path ;; raise e : M A) w with
  | (Raise e2, w2) => (e2 = e ∧ ¬ holds t path w2) ∨ from_os e2
  | _ => False
  end.
Proof.
  rewrite bind_eq. destruct (release_lock t path w) as [r2 w2] eqn:E2.
  apply release_lock_spec in E2 as (_ & _ & H2).
  destruct r2 as [[]|e2|]; [|right|done].
  - left. by destruct H2.
  - destruct H2 as (? & f & _ & -> & _). apply from_os_fault.
Qed.

(** [_load_bytes_from_file] with [lock=True]: a result is returned with the
    lock still held; an [MKGeneralException] is raised with the lock
    released. *)
Lemma load_bytes_locked_spec t path w :
  match _load_bytes_from_file t path true w with
  | (Ok _, w') => holds t path w'
  | (Raise (MKGeneralException _ _ _), w') => ¬ holds t path w'
  | _ => True
  end.
Proof.
  unfold _load_bytes_from_file. rewrite bind_eq.
  destruct (aquire_lock t path true w) as [r0 w0] eqn:E0.
  destruct r0 as [[]|e|]; [| |done].
  2:{ apply raises_aquire_lock in E0. by destruct e. }
  apply aquire_lock_ok_holds in E0. rewrite try_except_eq.
  destruct (try_except (os_read_bytes (path_str path)) _ w0) as [r1 w1] eqn:E1.
  assert (regs w1 = regs w0 ∧
          match r1 with Raise e => from_os e | _ => True end) as [Hr Hos].
  { rewrite try_except_eq in E1.
    destruct (os_read_bytes (path_str path) w0) as [r w2] eqn:E.
    pose proof E as Hraw. apply syscall_inv in E as (Hr & _).
    destruct r as [data|e|]; simplify_eq; try done.
    apply raises_os_read_bytes in Hraw.
    destruct e as [en| | | | | | | | |]; try done; try destruct en;
      unfold mret, M_ret, ret, raise in E1; by simplify_eq. }
  assert (Hh1 : holds t path w1).
  { unfold holds. by rewrite (locks_of_regs t w0 w1 Hr). }
  destruct r1 as [data|e|]; [done| |done].
  destruct e as [en| | | | | | | | |]; try done; cbn [is_Exception].
  - pose proof (release_then_raise (A:=list byte) t path
      (MKGeneralException CannotReadFile (path_str path) (Some (OSError en))) w1) as H.
    destruct ((release_lock t path ≫= _) w1) as [[?|e2|] w2]; try done.
    destruct H as [[-> ?]|?]; [done|by destruct e2].
  - pose proof (release_then_raise (A:=list byte) t path MKTerminate w1) as H.
    destruct ((release_lock t path ≫= _) w1) as [[?|e2|] w2]; try done.
    destruct H as [[-> ?]|?]; [done|by destruct e2].
  - pose proof (release_then_raise (A:=list byte) t path MKTimeout w1) as H.
    destruct ((release_lock t path ≫= _) w1) as [[?|e2|] w2]; try done.
    destruct H as [[-> ?]|?]; [done|by destruct e2].
Qed.

(** ** The temporary file *)

Lemma string_app_cons c (s1 s2 : string) :
  String c s1 +:+ s2 = String c (s1 +:+ s2).
Proof. reflexivity. Qed.

Lemma string_app_length (s1 s2 : string) :
  String.length (s1 +:+ s2) = String.length s1 + String.length s2.
Proof.
  induction s1 as [|c s1 IH]; [done|].
  rewrite string_app_cons. simpl. by rewrite IH.
Qed.

Lemma string_app_assoc (s1 s2 s3 : string) :
  (s1 +:+ s2) +:+ s3 = s1 +:+ (s2 +:+ s3).
Proof.
  induction s1 as [|c s1 IH]; [done|].
  rewrite !string_app_cons. by rewrite IH.
Qed.

Lemma string_app_inj_l (s a b : string) : s +:+ a = s +:+ b → a = b.
Proof.
  induction s as [|c s IH]; [done|].
  rewrite !string_app_cons. intros [= H]. by apply IH.
Qed.

(** The name of the temporary file is never the name of the target. *)
Lemma tmp_name_ne path s :
  (parent path +:+ "/" +:+ tmp_prefix path) +:+ s ≠ path_str path.
Proof.
  unfold path_str, tmp_prefix. rewrite !string_app_assoc.
  intros H. apply string_app_inj_l, string_app_inj_l in H.
  apply (f_equal String.length) in H. rewrite !string_app_length in H.
  simpl in H. lia.
Qed.

Lemma pick_name_spec o base cands file rest :
  pick_name o base cands = Some (file, rest) →
  names o !! file = None ∧ ∃ s, file = base +:+ s.
Proof.
  induction cands as [|s cands IH]; simpl; [done|].
  destruct (names o !! (base +:+ s)) eqn:E; [done|].
  intros [= <- <-]. eauto.
Qed.

(** A candidate that is free now is enough for a name to be found. *)
Lemma pick_name_some o base cands s :
  s ∈ cands → names o !! (base +:+ s) = None →
  is_Some (pick_name o base cands).
Proof.
  induction cands as [|c cands IH]; [by intros ?%elem_of_nil|].
  intros Hs Hfree. simpl. destruct (names o !! (base +:+ c)) eqn:E; [|eauto].
  apply elem_of_cons in Hs as [->|Hs]; [congruence|by apply IH].
Qed.

Lemma NamedTemporaryFile_inv dir prefix w r w' :
  NamedTemporaryFile dir prefix w = (r, w') →
  regs w' = regs w ∧ faults w' = tail (faults w) ∧
  hist w' = (CMkstemp dir prefix, outcome_of r, os w') :: hist w ∧
  match r with
  | Ok (fd, file) =>
      fd = fresh_fd (os w) ∧ names (os w) !! file = None ∧
      (∃ s, file = (dir +:+ "/" +:+ prefix) +:+ s) ∧
      os w' = (sem_mkstemp file (os w)).2
  | Raise e => os w' = os w
  | Hang => False
  end.
Proof.
  unfold NamedTemporaryFile.
  destruct (fault_of (next_event w)) as [f|].
  { intros [= <- <-]. by split_and!. }
  destruct (pick_name _ _ _) as [[file rest]|] eqn:E.
  - apply pick_name_spec in E as [Hfree Hs]. simpl.
    intros [= <- <-]. by split_and!.
  - intros [= <- <-]. by split_and!.
Qed.

(** ** What a reader of the target sees while it is written *)

#[global] Instance old_or_new_preorder p data : PreOrder (old_or_new p data).
Proof.
  split; [intros o; by left|].
  intros o1 o2 o3 H12 H23. unfold old_or_new in *.
  destruct H23 as [H|H]; [by rewrite H|by right].
Qed.

Lemma sem_mkstemp_gap file p o :
  names o !! file = None → gap p o (sem_mkstemp file o).2.
Proof.
  intros Hfree. unfold sem_mkstemp, gap, visible. simpl.
  destruct (decide (p = file)) as [->|Hne].
  - right. rewrite Hfree, lookup_insert_eq. simpl. by rewrite lookup_insert_eq.
  - left. rewrite lookup_insert_ne by done.
    destruct (names o !! p) as [j|] eqn:Ej; simpl; [|done].
    rewrite lookup_insert_ne; [done|].
    intros <-. by apply (fresh_ino_names o p).
Qed.

Lemma Hist_single Q c oc w w' :
  Q (os w) (os w') → hist w' = (c, oc, os w') :: hist w → Hist Q w w'.
Proof.
  intros HQ Hh. split; [done|]. exists [(c, oc, os w')]. split; [done|].
  by repeat constructor.
Qed.

Lemma Hist_NamedTemporaryFile p dir prefix :
  preserves (Hist (gap p)) (NamedTemporaryFile dir prefix).
Proof.
  intros w. destruct (NamedTemporaryFile dir prefix w) as [r w'] eqn:E.
  apply NamedTemporaryFile_inv in E as (_ & _ & Hh & H). simpl.
  eapply Hist_single; [|exact Hh].
  destruct r as [[fd file]|e|]; [| |done].
  - destruct H as (_ & Hfree & _ & ->). by apply sem_mkstemp_gap.
  - rewrite H. reflexivity.
Qed.

#[global] Instance same_at_preorder p : PreOrder (same_at p).
Proof.
  split; [by intros o|]. intros o1 o2 o3 H1 H2. unfold same_at in *. congruence.
Qed.

#[global] Instance only_inode_preorder i : PreOrder (only_inode i).
Proof.
  split; [by intros o|].
  intros o1 o2 o3 (?&?&H1) (?&?&H2). split_and!; try congruence.
  intros j Hj. by rewrite H2, H1.
Qed.

Lemma same_at_gap p o o' : same_at p o o' → gap p o o'.
Proof. intros H. by left. Qed.

Lemma fs_eq_same_at p o o' : fs_eq o o' → same_at p o o'.
Proof. apply fs_eq_visible. Qed.

Lemma only_inode_same_at i p o o' :
  names o !! p ≠ Some i → only_inode i o o' → same_at p o o'.
Proof.
  intros Hp (Hn & _ & Hf). unfold same_at, visible. rewrite Hn.
  destruct (names o !! p) as [j|]; simpl; [|done].
  rewrite Hf; [done|]. intros ->. done.
Qed.

(** Weakening the relation of a history, knowing where it starts. *)
Lemma Hist_mono_base (Q Q' : relation OS) w w' :
  (∀ o', Q (os w) o' → Q' (os w) o') → Hist Q w w' → Hist Q' w w'.
Proof.
  intros HQ [H (n & E & F)]. split; [by apply HQ|].
  exists n. split; [done|]. eapply Forall_impl; [exact F|]. intros e. apply HQ.
Qed.

Lemma sem_chmod_same file mode p o : same_at p o (sem_chmod file mode o).2.
Proof.
  unfold sem_chmod. destruct (names o !! file) as [i|]; simpl; [|done].
  unfold same_at, visible. simpl.
  destruct (names o !! p) as [j|]; simpl; [|done].
  rewrite lookup_alter. case_decide; [|done]. subst.
  by destruct (files o !! j).
Qed.

Lemma sem_unlink_same file p o : file ≠ p → same_at p o (sem_unlink file o).2.
Proof.
  intros Hne. unfold sem_unlink. destruct (names o !! file); simpl; [|done].
  unfold same_at, visible. simpl. by rewrite lookup_delete_ne.
Qed.

Lemma os_chmod_inv file mode w r w' :
  os_chmod file mode w = (r, w') →
  regs w' = regs w ∧ names (os w') = names (os w) ∧ fds (os w') = fds (os w) ∧
  (∀ j, content_at (os w') j = content_at (os w) j) ∧
  (∀ p, Hist (same_at p) w w') ∧
  match r with Raise e => from_os e | Hang => False | _ => True end.
Proof.
  intros H. pose proof H as Hc.
  apply syscall_inv in H as (Hr & _ & _ & Hh & Hos).
  assert (Ho : os w' = os w ∨ os w' = (sem_chmod file mode (os w)).2).
  { destruct Hos as [(f & _ & _ & ->)|[_ Hs]]; [by left|right; by rewrite Hs]. }
  assert (Hsem : ∀ o, names (sem_chmod file mode o).2 = names o ∧
                      fds (sem_chmod file mode o).2 = fds o ∧
                      ∀ j, content_at (sem_chmod file mode o).2 j = content_at o j).
  { intros o. unfold sem_chmod. destruct (names o !! file) as [i|]; simpl; [|done].
    split_and!; try done. intros j. unfold content_at. simpl.
    rewrite lookup_alter. case_decide; [|done]. subst.
    by destruct (files o !! j). }
  split_and!; try done.
  - destruct Ho as [->| ->]; [done|apply Hsem].
  - destruct Ho as [->| ->]; [done|apply Hsem].
  - intros j. destruct Ho as [->| ->]; [done|apply Hsem].
  - intros p. eapply Hist_single; [|exact Hh].
    destruct Ho as [->| ->]; [reflexivity|apply sem_chmod_same].
  - destruct r as [?|e|].
    + done.
    + destruct Hos as [(f & _ & [= ->] & _)|[_ Hs]]; [apply from_os_fault|].
      unfold sem_chmod in Hs. case_match; by simplify_eq.
    + destruct Hos as [(f & _ & ? & _)|[_ Hs]]; [done|].
      unfold sem_chmod in Hs. case_match; by simplify_eq.
Qed.

Lemma write_bytes_spec fd i data w :
  regs (write_bytes fd i data w) = regs w ∧
  Hist (only_inode i) w (write_bytes fd i data w) ∧
  content_at (os (write_bytes fd i data w)) i =
    (λ c, c ++ data) <$> content_at (os w) i.
Proof.
  revert w. induction data as [|b data IH]; intros w; simpl.
  { split_and!; [done|reflexivity|].
    unfold content_at. destruct (files (os w) !! i); simpl; [|done].
    by rewrite app_nil_r. }
  set (w1 := record (CWrite fd [b]) Returned (set_os (append_byte i b (os w)) w)).
  destruct (IH w1) as (Hr & HH & Hc). split_and!.
  - by rewrite Hr.
  - etrans; [|exact HH]. eapply Hist_single; [|done]. simpl.
    split_and!; try done. intros j Hj. simpl. by rewrite lookup_alter_ne.
  - rewrite Hc. unfold content_at. simpl. rewrite lookup_alter_eq.
    destruct (files (os w) !! i); simpl; [|done].
    by rewrite <- (assoc_L (++)).
Qed.

Lemma os_write_inv fd i data w r w' :
  fds (os w) !! fd = Some i →
  os_write fd data w = (r, w') →
  regs w' = regs w ∧ Hist (only_inode i) w w' ∧
  match r with
  | Ok _ => content_at (os w') i = (λ c, c ++ data) <$> content_at (os w) i
  | Raise e => from_os e
  | Hang => False
  end.
Proof.
  intros Hfd. unfold os_write. rewrite Hfd.
  destruct (next_event w) as [|f|n f].
  - intros [= <- <-]. destruct (write_bytes_spec fd i data (pop w)) as (?&?&?).
    by split_and!.
  - intros [= <- <-]. split_and!; [done| |apply from_os_fault].
    eapply Hist_single; [|done]. reflexivity.
  - intros [= <- <-].
    destruct (write_bytes_spec fd i (take n data) (pop w)) as (Hr & HH & _).
    split_and!; [done| |apply from_os_fault].
    etrans; [exact HH|]. eapply Hist_single; [|done]. reflexivity.
Qed.

Lemma os_rename_inv src dst w r w' :
  os_rename src dst w = (r, w') →
  regs w' = regs w ∧
  hist w' = (CRename src dst, outcome_of r, os w') :: hist w ∧
  match r with
  | Ok _ =>
      ∃ i, names (os w) !! src = Some i ∧
           names (os w') = <[dst := i]> (delete src (names (os w))) ∧
           files (os w') = files (os w)
  | Raise e => os w' = os w ∧ from_os e
  | Hang => False
  end.
Proof.
  intros H. apply syscall_inv in H as (Hr & _ & _ & Hh & Hos).
  split_and!; try done.
  destruct Hos as [(f & _ & -> & ->)|[_ Hs]]; [split; [done|apply from_os_fault]|].
  unfold sem_rename in Hs. destruct (names (os w) !! src) as [i|] eqn:E.
  - injection Hs as <- <-. exists i. by split_and!.
  - by injection Hs as <- <-.
Qed.

Lemma os_unlink_inv file w r w' :
  os_unlink file w = (r, w') →
  regs w' = regs w ∧
  hist w' = (CUnlink file, outcome_of r, os w') :: hist w ∧
  match r with
  | Ok _ =>
      names (os w') = delete file (names (os w)) ∧ files (os w') = files (os w)
  | Raise e =>
      os w' = os w ∧
      (injected e ∨ (e = OSError ENOENT ∧ names (os w) !! file = None))
  | Hang => False
  end.
Proof.
  intros H. apply syscall_inv in H as (Hr & _ & _ & Hh & Hos).
  split_and!; try done.
  destruct Hos as [(f & _ & -> & ->)|[_ Hs]]; [split; [done|left; by exists f]|].
  unfold sem_unlink in Hs. destruct (names (os w) !! file) as [i|] eqn:E.
  - by injection Hs as <- <-.
  - injection Hs as <- <-. split; [done|]. by right.
Qed.

Lemma from_os_not_general e : from_os e → is_general e = false.
Proof. by destruct e. Qed.

(** The [except] clauses before a temporary file exists: nothing happens to
    the state, some exception is raised. *)
Lemma save_except_none_spec {A} path e w :
  ∃ e', @save_except A path None e w = (Raise e', w).
Proof.
  unfold save_except.
  destruct e; simpl; eauto.
Qed.

(** The [except] clauses once the temporary file exists: some exception is
    raised, the target shows what it showed, and when that exception is the
    [MKGeneralException] the temporary name is gone. *)
Lemma save_except_some_spec {A} path file e w r w' :
  file ≠ path_str path → is_Some (names (os w) !! file) →
  @save_except A path (Some file) e w = (r, w') →
  regs w' = regs w ∧ Hist (same_at (path_str path)) w w' ∧
  ∃ e', r = Raise e' ∧
        (is_general e' = true → names (os w') = delete file (names (os w))).
Proof.
  intros Hne [i Hi] H.
  assert (Hraise : ∀ e0 : exn, is_general e0 = false →
    @raise A e0 w = (r, w') →
    regs w' = regs w ∧ Hist (same_at (path_str path)) w w' ∧
    ∃ e', r = Raise e' ∧
          (is_general e' = true → names (os w') = delete file (names (os w)))).
  { intros e0 Hg [= <- <-]. split_and!; [done|reflexivity|].
    exists e0. split; [done|]. congruence. }
  assert (Hclean :
    (try_except (os_unlink file)
       (λ e2, match e2 with
              | OSError en => if decide (en = ENOENT) then mret tt else raise e2
              | _ => raise e2
              end) ;;
     raise (MKGeneralException CannotWriteConfig (path_str path) (Some e)) : M A) w
      = (r, w') →
    regs w' = regs w ∧ Hist (same_at (path_str path)) w w' ∧
    ∃ e', r = Raise e' ∧
          (is_general e' = true → names (os w') = delete file (names (os w)))).
  { rewrite bind_eq, try_except_eq.
    destruct (os_unlink file w) as [r1 w1] eqn:E1.
    apply os_unlink_inv in E1 as (Hr1 & Hh1 & H1).
    destruct r1 as [[]|e1|]; [| |done].
    - destruct H1 as [Hn1 Hf1]. intros [= <- <-]. split_and!; [done| |].
      + eapply Hist_single; [|exact Hh1].
        unfold same_at, visible. rewrite Hn1, Hf1. by rewrite lookup_delete_ne.
      + eexists. split; [done|]. done.
    - destruct H1 as [Ho1 [[f ->]|[-> Hn]]]; [|congruence].
      assert (HH : Hist (same_at (path_str path)) w w1).
      { eapply Hist_single; [|exact Hh1]. rewrite Ho1. reflexivity. }
      destruct f; simpl; intros [= <- <-]; split_and!; try done;
        eexists; (split; [done|]); done. }
  unfold save_except in H.
  destruct e; simpl in H; try (by apply Hclean);
    (eapply Hraise; [|exact H]; done).
Qed.

Lemma same_at_old_or_new p data o o' : same_at p o o' → old_or_new p data o o'.
Proof. intros H. by left. Qed.

Lemma os_close_fs_inv fd p w r w' :
  os_close fd w = (r, w') →
  regs w' = regs w ∧ names (os w') = names (os w) ∧
  files (os w') = files (os w) ∧ Hist (same_at p) w w' ∧ r ≠ Hang.
Proof.
  intros H.
  pose proof (Hist_os_close (same_at p) (fs_eq_same_at p) fd w) as HH.
  rewrite H in HH. apply os_close_inv in H as (Hr & _ & Hcl & Hh).
  assert (fs_eq (os w) (os w')) as [Hn Hf].
  { destruct Hcl as [->| ->]; [reflexivity|apply sem_close_fs]. }
  by split_and!.
Qed.

(** From the temporary file to the rename.  [it] is the inode of the
    temporary file, which is empty, is not the target, and is what [fd]
    writes to.  If the rename is reached and goes through, the target shows
    all of [data]; every state before that, and every state of a failed
    run, shows what the target showed. *)
Lemma save_inner_spec path data mode fd file it w r w' :
  names (os w) !! file = Some it →
  names (os w) !! path_str path ≠ Some it →
  fds (os w) !! fd = Some it →
  content_at (os w) it = Some [] →
  (try_finally (os_chmod file mode ;; os_write fd data) (os_close fd) ;;
   os_rename file (path_str path)) w = (r, w') →
  regs w' = regs w ∧
  match r with
  | Ok _ =>
      Hist (old_or_new (path_str path) data) w w' ∧
      visible (os w') (path_str path) = Some data
  | Raise e =>
      Hist (same_at (path_str path)) w w' ∧ names (os w') = names (os w)
  | Hang => False
  end.
Proof.
  intros Hfile Hp Hfd Hc. set (p := path_str path) in *.
  rewrite bind_eq, try_finally_eq.
  destruct ((os_chmod file mode ;; os_write fd data) w) as [r2 w2] eqn:E.
  assert (Hbody : regs w2 = regs w ∧ names (os w2) = names (os w) ∧
    Hist (same_at p) w w2 ∧
    match r2 with
    | Ok _ => content_at (os w2) it = Some data
    | Raise _ => True
    | Hang => False
    end).
  { rewrite bind_eq in E.
    destruct (os_chmod file mode w) as [r1 w1] eqn:E1.
    apply os_chmod_inv in E1 as (Hr1 & Hn1 & Hf1 & Hc1 & HH1 & Hraw1).
    destruct r1 as [[]|e1|]; [| |done].
    2:{ injection E as <- <-. by split_and!. }
    apply (os_write_inv fd it) in E as (Hr2 & HH2 & H2); [|by rewrite Hf1].
    assert (HS : Hist (same_at p) w1 w2).
    { eapply Hist_mono_base; [|exact HH2]. intros o'.
      apply only_inode_same_at. by rewrite Hn1. }
    destruct HH2 as [(Hn2 & _) _].
    split_and!; [congruence|congruence|etrans; [apply HH1|exact HS]|].
    destruct r2 as [[]|e2|]; [|done|done].
    by rewrite H2, Hc1, Hc. }
  destruct Hbody as (Hr2 & Hn2 & HH2 & Hres2).
  destruct (os_close fd w2) as [r3 w3] eqn:E3.
  apply (os_close_fs_inv fd p) in E3 as (Hr3 & Hn3 & Hf3 & HH3 & Hh3).
  assert (HH : Hist (same_at p) w w3) by (by etrans).
  assert (Hn : names (os w3) = names (os w)) by congruence.
  assert (Hr : regs w3 = regs w) by congruence.
  destruct r2 as [[]|e2|]; [| |done].
  2:{ destruct r3 as [[]|e3|]; [| |done]; intros [= <- <-]; by split_and!. }
  destruct r3 as [[]|e3|]; [| |done].
  2:{ intros [= <- <-]. by split_and!. }
  intros E4. apply os_rename_inv in E4 as (Hr4 & Hh4 & H4).
  split; [congruence|].
  destruct r as [[]|e4|]; [| |done].
  - destruct H4 as (i & Hi & Hn4 & Hf4).
    assert (i = it) as -> by congruence.
    assert (Hv : visible (os w') p = Some data).
    { unfold visible. rewrite Hn4, lookup_insert_eq. simpl.
      rewrite Hf4, Hf3. unfold content_at in Hres2.
      by destruct (files (os w2) !! it); simplify_eq. }
    split; [|done].
    etrans; [eapply Hist_mono; [|exact HH]; apply same_at_old_or_new|].
    eapply Hist_single; [|exact Hh4]. by right.
  - destruct H4 as [Ho4 _]. split; [|congruence].
    etrans; [exact HH|]. eapply Hist_single; [|exact Hh4].
    rewrite Ho4. reflexivity.
Qed.

(** ** The [try] block of [_save_data_to_file] *)

Lemma Hist_aquire_lock_gap p t path blocking :
  preserves (Hist (gap p)) (aquire_lock t path blocking).
Proof.
  apply (Hist_aquire_lock_rounds (gap p) (fs_eq_gap p) path
           (λ m o, sem_open_gap (path_str path) m p o) 1 t blocking).
Qed.

Lemma Hist_aquire_lock_names_out t path blocking :
  preserves (Hist (names_out (path_str path))) (aquire_lock t path blocking).
Proof.
  apply (Hist_aquire_lock_rounds (names_out (path_str path))
           (fs_eq_names_out (path_str path)) path
           (λ m o, sem_open_names_out (path_str path) m o) 1 t blocking).
Qed.

Lemma sem_mkstemp_spec file o :
  names o !! file = None →
  let o' := (sem_mkstemp file o).2 in
  names o' = <[file := fresh_ino o]> (names o) ∧
  fds o' !! fresh_fd o = Some (fresh_ino o) ∧
  content_at o' (fresh_ino o) = Some [] ∧
  (∀ p, p ≠ file → same_at p o o').
Proof.
  intros Hfree. unfold sem_mkstemp. simpl. split_and!.
  - done.
  - apply lookup_insert_eq.
  - unfold content_at. simpl. by rewrite lookup_insert_eq.
  - intros p Hp. unfold same_at, visible. simpl.
    rewrite lookup_insert_ne by done.
    destruct (names o !! p) as [j|] eqn:Ej; simpl; [|done].
    rewrite lookup_insert_ne; [done|]. intros <-.
    by apply (fresh_ino_names o p).
Qed.

(** [w0] is the state in which the lock phase ended.  Up to there the
    target shows what it showed, or it was missing and is now the empty
    lock file, and no other name changed.  From there on the target shows
    what it showed in [w0] or all of [data].  A returned block leaves the
    target showing [data]; a block that raises the module's
    [MKGeneralException] leaves every name but the target as it found it. *)
Lemma save_try_spec t path data mode w r u :
  save_try t path data mode w = (r, u) →
  ∃ w0,
    Hist (gap (path_str path)) w w0 ∧
    names_out (path_str path) (os w) (os w0) ∧
    Hist (old_or_new (path_str path) data) w0 u ∧
    match r with
    | Ok _ => visible (os u) (path_str path) = Some data
    | Raise e =>
        is_general e = true → names_out (path_str path) (os w) (os u)
    | Hang => True
    end.
Proof.
  set (p := path_str path). unfold save_try.
  rewrite bind_eq, try_except_eq, bind_eq.
  destruct (aquire_lock t path true w) as [r0 w0] eqn:E0.
  assert (HG0 : Hist (gap p) w w0).
  { pose proof (Hist_aquire_lock_gap p t path true w) as H.
    by rewrite E0 in H. }
  assert (HN0 : names_out p (os w) (os w0)).
  { pose proof (Hist_aquire_lock_names_out t path true w) as H.
    rewrite E0 in H. apply H. }
  destruct r0 as [[]|e0|].
  3:{ intros [= <- <-]. exists w0. split_and!; try done; try reflexivity. }
  2:{ destruct (@save_except_none_spec (nat * string) path e0 w0) as [e' ->].
      intros [= <- <-]. exists w0. split_and!; try done; try reflexivity. }
  destruct (NamedTemporaryFile (parent path) (tmp_prefix path) w0)
    as [r1 w1] eqn:E1.
  apply NamedTemporaryFile_inv in E1 as (Hr1 & _ & Hh1 & H1).
  destruct r1 as [[fd file]|e1|]; [| |done].
  2:{ destruct (@save_except_none_spec (nat * string) path e1 w1) as [e' ->].
      intros [= <- <-]. exists w0. split_and!; try done.
      - eapply Hist_single; [|exact Hh1]. rewrite H1. reflexivity.
      - intros _. by rewrite H1. }
  destruct H1 as (-> & Hfree & [s ->] & Ho1).
  set (file := (parent path +:+ "/" +:+ tmp_prefix path) +:+ s) in *.
  assert (Hne : file ≠ p) by apply tmp_name_ne.
  destruct (sem_mkstemp_spec file (os w0) Hfree) as (Hn1 & Hfd1 & Hc1 & Hs1).
  rewrite <- Ho1 in Hn1, Hfd1, Hc1, Hs1.
  set (it := fresh_ino (os w0)) in *.
  assert (HS1 : Hist (same_at p) w0 w1).
  { eapply Hist_single; [|exact Hh1]. by apply Hs1. }
  rewrite try_except_eq.
  match goal with
  | |- context [match ?m w1 with _ => _ end] =>
      destruct (m w1) as [r2 w2] eqn:E2
  end.
  apply (save_inner_spec path data mode _ file it) in E2 as [Hr2 H2].
  2:{ by rewrite Hn1, lookup_insert_eq. }
  2:{ rewrite Hn1, lookup_insert_ne by done. apply fresh_ino_names. }
  2:{ done. }
  2:{ done. }
  destruct r2 as [[]|e2|]; [| |done].
  - destruct H2 as [HH2 Hv]. intros [= <- <-]. exists w0. split_and!; try done.
    etrans; [|exact HH2]. eapply Hist_mono; [|exact HS1].
    apply same_at_old_or_new.
  - destruct H2 as [HH2 Hn2]. intros E3.
    apply save_except_some_spec in E3 as (Hr3 & HH3 & e' & -> & Hg);
      [|done|by rewrite Hn2, Hn1, lookup_insert_eq].
    exists w0. split_and!; try done.
    + eapply Hist_mono; [apply same_at_old_or_new|].
      etrans; [exact HS1|]. by etrans.
    + intros He q Hq. rewrite (Hg He), Hn2, Hn1.
      rewrite delete_insert_id by done. by apply HN0.
Qed.

(** ** UTF-8 *)

Lemma to_N_byte_of n : (n < 256)%N → Byte.to_N (byte_of n) = n.
Proof.
  intros Hn. unfold byte_of. destruct (Byte.of_N n) as [b|] eqn:E; simpl.
  - by apply Byte.to_of_N.
  - apply Byte.of_N_None_iff in E. lia.
Qed.

Lemma tail6_cont n : tail6 (cont n) = Some (n mod 64)%N.
Proof.
  assert (n mod 64 < 64)%N by (by apply N.mod_upper_bound).
  pose proof (N.le_0_l (n mod 64)).
  unfold tail6, cont. rewrite to_N_byte_of by lia. cbv zeta.
  rewrite (proj2 (N.leb_le 128 (128 + n mod 64))) by lia.
  rewrite (proj2 (N.ltb_lt (128 + n mod 64) 192)) by lia.
  simpl. f_equal. lia.
Qed.

Lemma ltb_true a b : (a < b)%N → (a <? b)%N = true.
Proof. apply N.ltb_lt. Qed.

Lemma ltb_false a b : (b <= a)%N → (a <? b)%N = false.
Proof. apply N.ltb_ge. Qed.

Lemma split2 c : (c / 64 * 64 + c mod 64 = c)%N.
Proof. pose proof (N.div_mod' c 64). lia. Qed.

Lemma split3 c : (c / 4096 * 4096 + (c / 64) mod 64 * 64 + c mod 64 = c)%N.
Proof.
  pose proof (N.div_mod' c 64). pose proof (N.div_mod' (c / 64) 64).
  pose proof (N.Div0.div_div c 64 64) as E1. change (64 * 64)%N with 4096%N in E1.
  rewrite <- E1. lia.
Qed.

Lemma split4 c :
  (c / 262144 * 262144 + (c / 4096) mod 64 * 4096 + (c / 64) mod 64 * 64
   + c mod 64 = c)%N.
Proof.
  pose proof (N.div_mod' c 64). pose proof (N.div_mod' (c / 64) 64).
  pose proof (N.div_mod' (c / 64 / 64) 64).
  pose proof (N.Div0.div_div c 64 64) as E1. change (64 * 64)%N with 4096%N in E1.
  pose proof (N.Div0.div_div c 4096 64) as E2.
  change (4096 * 64)%N with 262144%N in E2.
  rewrite <- E2, <- E1. lia.
Qed.

Lemma decode_encode_cp c bs rest :
  encode_cp c = Some bs →
  decode_utf8 (bs ++ rest) = cons c <$> decode_utf8 rest.
Proof.
  unfold encode_cp, is_surrogate.
  destruct (N.ltb_spec c 128).
  { intros [= <-]. simpl. rewrite to_N_byte_of by lia.
    by rewrite ltb_true. }
  destruct (N.ltb_spec c 2048).
  { assert (c / 64 < 32)%N by (apply N.Div0.div_lt_upper_bound; lia).
    pose proof (N.le_0_l (c / 64)).
    intros [= <-]. simpl. rewrite to_N_byte_of by lia.
    rewrite tail6_cont. simpl.
    rewrite (ltb_false (192 + c / 64) 128), (ltb_false (192 + c / 64) 192),
      (ltb_true (192 + c / 64) 224) by lia.
    replace (192 + c / 64 - 192)%N with (c / 64)%N by lia.
    rewrite split2. by rewrite ltb_false. }
  destruct (N.ltb_spec c 65536).
  { assert (c / 4096 < 16)%N by (apply N.Div0.div_lt_upper_bound; lia).
    pose proof (N.le_0_l (c / 4096)).
    destruct (N.leb_spec 55296 c), (N.ltb_spec c 57344); simpl; try done;
      intros [= <-]; simpl; rewrite to_N_byte_of by lia;
      rewrite !tail6_cont; simpl;
      rewrite (ltb_false (224 + c / 4096) 128), (ltb_false (224 + c / 4096) 192),
        (ltb_false (224 + c / 4096) 224), (ltb_true (224 + c / 4096) 240) by lia;
      replace (224 + c / 4096 - 224)%N with (c / 4096)%N by lia;
      rewrite split3;
      unfold is_surrogate; rewrite (ltb_false c 2048) by lia; simpl.
    - rewrite (ltb_false c 57344) by lia. by rewrite andb_false_r.
    - rewrite (proj2 (N.leb_gt 55296 c)) by lia. done.
    - rewrite (proj2 (N.leb_gt 55296 c)) by lia. done. }
  destruct (N.ltb_spec c 1114112); [|done].
  assert (c / 262144 < 5)%N by (apply N.Div0.div_lt_upper_bound; lia).
  pose proof (N.le_0_l (c / 262144)).
  intros [= <-]. simpl. rewrite to_N_byte_of by lia.
  rewrite !tail6_cont. simpl.
  rewrite (ltb_false (240 + c / 262144) 128), (ltb_false (240 + c / 262144) 192),
    (ltb_false (240 + c / 262144) 224), (ltb_false (240 + c / 262144) 240),
    (ltb_true (240 + c / 262144) 248) by lia.
  replace (240 + c / 262144 - 240)%N with (c / 262144)%N by lia.
  rewrite split4.
  rewrite (ltb_false c 65536) by lia. simpl.
  by rewrite (proj2 (N.leb_gt 1114112 c)) by lia.
Qed.

(** Strict UTF-8: what [encode] produces, [decode] reads back. *)
Lemma decode_encode_utf8 s bs :
  encode_utf8 s = Some bs → decode_utf8 bs = Some s.
Proof.
  revert bs. induction s as [|c s IH]; intros bs; simpl.
  { by intros [= <-]. }
  destruct (encode_cp c) as [b|] eqn:Ec; simpl; [|done].
  destruct (encode_utf8 s) as [bs'|] eqn:Es; simpl; [|done].
  intros [= <-]. rewrite (decode_encode_cp c b bs' Ec).
  by rewrite (IH bs' eq_refl).
Qed.

(** ** Runs that the environment leaves alone *)

Lemma quiet_next_event w : quiet w → next_event w = Go.
Proof. unfold quiet, next_event. by intros ->. Qed.

Lemma load_bytes_quiet t path lock w :
  quiet w → (lock = true → holds t path w ∨ lock_free path (os w)) →
  ∃ w', _load_bytes_from_file t path lock w =
          (Ok (default [] (visible (os w) (path_str path))), w') ∧
        quiet w' ∧ (lock = false → regs w' = regs w ∧ os w' = os w).
Proof.
  intros Hq Hl.
  assert (∃ w1, (if lock then aquire_lock t path true else mret tt) w = (Ok tt, w1)
                ∧ quiet w1 ∧ (lock = false → w1 = w)
                ∧ default [] (visible (os w1) (path_str path))
                  = default [] (visible (os w) (path_str path)))
    as (w1 & E1 & Hq1 & Hw1 & Hv).
  { destruct lock; [|by exists w].
    destruct (Hl eq_refl) as [Hh|Hf].
    - exists w. by rewrite aquire_lock_held.
    - destruct (decide (is_Some (locks_of t w !! path_str path))) as [Hh|Hn].
      { exists w. by rewrite aquire_lock_held. }
      destruct (aquire_lock_quiet t path true w Hq Hn Hf) as (w1 & i & E & Hq1 & _).
      exists w1. split_and!; try done.
      pose proof (Hist_aquire_lock_gap (path_str path) t path true w) as [Hg _].
      rewrite E in Hg. simpl in Hg. destruct Hg as [->|[-> ->]]; done. }
  unfold _load_bytes_from_file. rewrite bind_eq, E1, !try_except_eq.
  unfold os_read_bytes.
  destruct (syscall_quiet_inv (CReadBytes (path_str path))
              (sem_read_bytes (path_str path)) w1 Hq1)
    as (w2 & -> & Hq2 & Hr2 & _ & Ho2 & _).
  rewrite <- Hv. unfold sem_read_bytes in *.
  destruct (visible (os w1) (path_str path)) as [data|]; simpl in *.
  all: exists w2; split_and!; try done; intros ->; by rewrite Hr2, Ho2, Hw1.
Qed.

Lemma write_bytes_fs fd i data w :
  names (os (write_bytes fd i data w)) = names (os w) ∧
  fds (os (write_bytes fd i data w)) = fds (os w) ∧
  suffixes (write_bytes fd i data w) = suffixes w.
Proof.
  revert w. induction data as [|b data IH]; intros w; [done|].
  simpl. destruct (IH (record (CWrite fd [b]) Returned
                         (set_os (append_byte i b (os w)) w))) as (-> & -> & ->).
  done.
Qed.

Lemma NamedTemporaryFile_quiet dir prefix w s :
  quiet w → s ∈ suffixes w →
  names (os w) !! ((dir +:+ "/" +:+ prefix) +:+ s) = None →
  ∃ file w',
    NamedTemporaryFile dir prefix w = (Ok (fresh_fd (os w), file), w') ∧
    quiet w' ∧ regs w' = regs w ∧
    names (os w') !! file = Some (fresh_ino (os w)) ∧
    fds (os w') !! fresh_fd (os w) = Some (fresh_ino (os w)).
Proof.
  intros Hq Hs Hn. unfold NamedTemporaryFile.
  rewrite (quiet_next w Hq).
  destruct (pick_name_some (os w) _ _ s Hs Hn) as [[file rest] E].
  rewrite E. simpl. eexists _, _. split; [done|].
  unfold quiet in *. simpl. rewrite Hq.
  split_and!; try done; by rewrite lookup_insert_eq.
Qed.

(** Once the temporary file is there, nothing but the environment stops the
    write, the close and the rename. *)
Lemma save_inner_quiet path data mode fd file it w :
  quiet w →
  names (os w) !! file = Some it → fds (os w) !! fd = Some it →
  ∃ w',
    (try_finally (os_chmod file mode ;; os_write fd data) (os_close fd) ;;
     os_rename file (path_str path)) w = (Ok tt, w') ∧
    quiet w' ∧ regs w' = regs w.
Proof.
  intros Hq Hn Hfd. rewrite bind_eq, try_finally_eq, bind_eq.
  unfold os_chmod.
  destruct (syscall_quiet_inv (CChmod file mode) (sem_chmod file mode) w Hq)
    as (w1 & -> & Hq1 & Hr1 & _ & Ho1 & _).
  unfold sem_chmod in *. rewrite Hn in *. simpl in Ho1. cbn [fst].
  assert (fds (os w1) !! fd = Some it) as Hfd1 by (by rewrite Ho1).
  assert (names (os w1) !! file = Some it) as Hn1 by (by rewrite Ho1).
  unfold os_write. rewrite Hfd1, (quiet_next_event w1 Hq1).
  set (w2 := write_bytes fd it data (pop w1)).
  assert (names (os w2) !! file = Some it ∧ fds (os w2) !! fd = Some it)
    as [Hn2 Hfd2].
  { unfold w2. destruct (write_bytes_fs fd it data (pop w1)) as (-> & -> & _).
    done. }
  assert (quiet w2) as Hq2.
  { unfold quiet, w2. rewrite write_bytes_faults. by apply quiet_pop. }
  assert (regs w2 = regs w1) as Hr2
    by (destruct (write_bytes_spec fd it data (pop w1)) as [? _]; done).
  clearbody w2. unfold os_close.
  destruct (syscall_quiet_inv (CClose fd) (sem_close fd) w2 Hq2)
    as (w3 & -> & Hq3 & Hr3 & _ & Ho3 & _).
  unfold sem_close in *. rewrite Hfd2 in *. cbn [fst snd] in *.
  unfold os_rename.
  destruct (syscall_quiet_inv (CRename file (path_str path))
              (sem_rename file (path_str path)) w3 Hq3)
    as (w4 & -> & Hq4 & Hr4 & _ & Ho4 & _).
  unfold sem_rename in *. rewrite Ho3 in *. cbn [names] in *.
  rewrite Hn2 in *. cbn [fst snd] in *.
  exists w4. split_and!; try done. congruence.
Qed.

Lemma save_data_quiet t path data mode w s :
  quiet w →
  holds t path w ∨ lock_free path (os w) →
  s ∈ suffixes w →
  names (os w) !! ((parent path +:+ "/" +:+ tmp_prefix path) +:+ s) = None →
  ∃ w', _save_data_to_file t path data mode w = (Ok tt, w') ∧ quiet w' ∧
        visible (os w') (path_str path) = Some data.
Proof.
  intros Hq Hl Hs Hn.
  assert (∃ w1, aquire_lock t path true w = (Ok tt, w1) ∧ quiet w1 ∧
                holds t path w1 ∧ suffixes w1 = suffixes w ∧
                names (os w1) !!
                  ((parent path +:+ "/" +:+ tmp_prefix path) +:+ s) = None)
    as (w1 & E1 & Hq1 & Hh1 & Hs1 & Hn1).
  { destruct (decide (is_Some (locks_of t w !! path_str path))) as [Hh|Hnh].
    { exists w. by rewrite aquire_lock_held. }
    destruct Hl as [Hh|Hf]; [done|].
    destruct (aquire_lock_quiet t path true w Hq Hnh Hf)
      as (w1 & i & E & Hq1 & Hs1 & _ & Hnm & _ & _ & _ & _ & Hlk & _).
    exists w1. split_and!; try done.
    - unfold holds. rewrite Hlk. by rewrite lookup_insert_eq.
    - rewrite Hnm. unfold sem_open.
      destruct (names (os w) !! path_str path); simpl; [done|].
      rewrite lookup_insert_ne; [done|]. intros Heq. symmetry in Heq.
      by apply tmp_name_ne in Heq. }
  rewrite <- Hs1 in Hs.
  destruct (NamedTemporaryFile_quiet (parent path) (tmp_prefix path) w1 s Hq1 Hs Hn1)
    as (file & w2 & E2 & Hq2 & Hr2 & Hnf & Hfd).
  destruct (save_inner_quiet path data mode _ _ _ w2 Hq2 Hnf Hfd)
    as (w3 & E3 & Hq3 & Hr3).
  assert (save_try t path data mode w = (Ok tt, w3)) as Etry.
  { unfold save_try. rewrite bind_eq, try_except_eq, bind_eq, E1, E2.
    by rewrite try_except_eq, E3. }
  pose proof (save_try_spec t path data mode w _ _ Etry) as (_ & _ & _ & _ & Hv).
  assert (holds t path w3) as [fd Hh3].
  { unfold holds. rewrite (locks_of_regs t w1 w3); [done|]. congruence. }
  destruct (release_lock_quiet t path w3 fd Hq3 Hh3) as (w4 & E4 & Hq4 & _ & Ho4 & _).
  exists w4. unfold _save_data_to_file. rewrite try_finally_eq, Etry, E4.
  split_and!; try done.
  rewrite Ho4, (fs_eq_visible (os w3)); [done|]. apply sem_close_fs.
Qed.

Lemma load_bytes_fault t path lock w f :
  fault_of (next_event w) = Some f → (lock = true → holds t path w) →
  ∃ e w', _load_bytes_from_file t path lock w = (Raise e, w') ∧
          (lock = false → e = read_failure path f).
Proof.
  intros Hf Hl.
  assert ((if lock then aquire_lock t path true else mret tt) w = (Ok tt, w)) as E1.
  { destruct lock; [|done]. by apply aquire_lock_held, Hl. }
  unfold _load_bytes_from_file. rewrite bind_eq, E1, !try_except_eq.
  unfold os_read_bytes, syscall. rewrite Hf.
  set (w1 := record _ _ _). clearbody w1.
  destruct lock.
  - destruct (release_lock t path w1) as [[[]|e|] u] eqn:E.
    3: by apply release_lock_spec in E as (_ & _ & ?).
    all: destruct f; cbn -[release_lock]; rewrite ?bind_eq, ?E;
      eexists _, _; (split; [reflexivity|done]).
  - destruct f; cbn; eexists _, _; (split; [reflexivity|done]).
Qed.

Lemma load_from_mk_file_eq `{Builtins} t path key dflt lock w :
  load_from_mk_file t path key dflt lock w
  = load_from_mk_file t path key dflt false w.
Proof. reflexivity. Qed.

Lemma load_mk_file_unlocked_inv `{Builtins} t path d w r w' :
  load_mk_file t path (Some d) false w = (r, w') →
  regs w' = regs w ∧ os w' = os w ∧
  ∃ oc, hist w' = (CReadBytes (path_str path), oc, os w) :: hist w.
Proof.
  unfold load_mk_file. rewrite bind_eq, ret_eq, !try_except_eq, bind_eq.
  unfold os_read_bytes.
  destruct (syscall _ _ w) as [r0 w0] eqn:E0.
  apply syscall_inv in E0 as (Hr & _ & _ & Hh & Hc).
  assert (os w0 = os w) as Ho.
  { destruct Hc as [(f & _ & _ & ?)|[_ Hs]]; [done|].
    unfold sem_read_bytes in Hs. by destruct (visible (os w) (path_str path));
      injection Hs as _ <-. }
  intros E.
  destruct r0 as [data|e|].
  - destruct (exec data d) as [d' [e|]];
      [|injection E as _ <-; rewrite Hr, Ho, Hh, Ho; eauto].
    destruct e as [[]| | | | | | | | |]; simpl in E; injection E as _ <-;
      rewrite Hr, Ho, Hh, Ho; eauto.
  - destruct e as [[]| | | | | | | | |]; simpl in E; injection E as _ <-;
      rewrite Hr, Ho, Hh, Ho; eauto.
  - injection E as _ <-. rewrite Hr, Ho, Hh, Ho; eauto.
Qed.

(** ** The [except] clauses, exception by exception *)



(** * The claims *)

(** C3.  Lock acquisition is re-entrant and non-counting.  Whatever the
    state and the environment, [aquire_lock] on a path the calling thread's
    registry records returns at once, makes no system call and changes
    nothing.  In a run without faults on a free lock: the first acquisition
    makes one [flock] call and registers the one descriptor it leaves open;
    acquiring [n] more times changes nothing; a single [release_lock] then
    returns with the path no longer held, the descriptor closed and the
    lock gone; and the next acquisition takes a fresh lock with a new
    [flock] call and succeeds. *)
Theorem aquire_lock_reentrant_non_counting
    (t : nat) (path : Path) (blocking : bool) (n : nat) (w : World) :
  quiet w → ¬ holds t path w → lock_free path (os w) →
  (∀ u b, holds t path u → aquire_lock t path b u = (Ok tt, u)) ∧
  ∃ w1 fd,
    aquire_lock t path blocking w = (Ok tt, w1) ∧
    locks_of t w1 = <[path_str path := fd]> (locks_of t w) ∧
    flock_calls w1 = S (flock_calls w) ∧
    fds (os w) !! fd = None ∧
    dom (fds (os w1)) = {[fd]} ∪ dom (fds (os w)) ∧
    Nat.iter n (λ u, (aquire_lock t path blocking u).2) w1 = w1 ∧
    ∃ w2,
      release_lock t path w1 = (Ok tt, w2) ∧
      ¬ holds t path w2 ∧
      fds (os w2) = fds (os w) ∧ flocks (os w2) = flocks (os w) ∧
      ∃ w3,
        aquire_lock t path blocking w2 = (Ok tt, w3) ∧
        holds t path w3 ∧
        flock_calls w3 = S (flock_calls w2).
Proof.
  intros Hq Hnh Hfree. split.
  { intros u b Hu. by apply aquire_lock_held. }
  destruct (aquire_lock_quiet t path blocking w Hq Hnh Hfree)
    as (w1 & i & E1 & Hq1 & _ & Hc1 & Hnn & Hn1 & Hf1 & Hl1 & Hli & Hreg & _).
  set (fd := fresh_fd (os w)) in *.
  assert (Hfd : fds (os w) !! fd = None) by apply fresh_fd_fds.
  assert (Hh1 : holds t path w1).
  { unfold holds. rewrite Hreg, lookup_insert_eq. eauto. }
  exists w1, fd. split_and!; try done.
  { by rewrite Hf1, dom_insert_L. }
  { induction n as [|k IH]; [done|]. simpl. rewrite IH.
    by rewrite (aquire_lock_held t path blocking w1 Hh1). }
  destruct (release_lock_quiet t path w1 fd Hq1) as (w2 & E2 & Hq2 & Hnh2 & Ho2 & _).
  { by rewrite Hreg, lookup_insert_eq. }
  assert (Hfd1 : fds (os w1) !! fd = Some i) by (by rewrite Hf1, lookup_insert_eq).
  rewrite (sem_close_open fd (os w1) i Hfd1) in Ho2. simpl in Ho2.
  assert (Hf2 : fds (os w2) = fds (os w)).
  { rewrite Ho2. simpl. by rewrite Hf1, delete_insert_id. }
  assert (Hl2 : flocks (os w2) = flocks (os w)).
  { rewrite Ho2. simpl. rewrite Hl1, lookup_insert_eq.
    rewrite decide_True by done. by rewrite delete_insert_id. }
  exists w2. split_and!; try done.
  assert (Hfree2 : lock_free path (os w2)).
  { intros j Hj. rewrite Hl2. rewrite Ho2 in Hj. simpl in Hj.
    rewrite Hn1 in Hj. by injection Hj as <-. }
  destruct (aquire_lock_quiet t path blocking w2 Hq2 Hnh2 Hfree2)
    as (w3 & i3 & E3 & _ & _ & Hc3 & _ & _ & _ & _ & _ & Hreg3 & _).
  exists w3. split_and!; try done.
  unfold holds. rewrite Hreg3, lookup_insert_eq. eauto.
Qed.

Lemma aquire_lock_reentrant_non_counting_witness :
  (∀ u b, holds 0 p_demo u → aquire_lock 0 p_demo b u = (Ok tt, u)) ∧
  ∃ w1 fd,
    aquire_lock 0 p_demo true w_empty = (Ok tt, w1) ∧
    locks_of 0 w1 = <[path_str p_demo := fd]> (locks_of 0 w_empty) ∧
    flock_calls w1 = S (flock_calls w_empty) ∧
    fds (os w_empty) !! fd = None ∧
    dom (fds (os w1)) = {[fd]} ∪ dom (fds (os w_empty)) ∧
    Nat.iter 3 (λ u, (aquire_lock 0 p_demo true u).2) w1 = w1 ∧
    ∃ w2,
      release_lock 0 p_demo w1 = (Ok tt, w2) ∧
      ¬ holds 0 p_demo w2 ∧
      fds (os w2) = fds (os w_empty) ∧ flocks (os w2) = flocks (os w_empty) ∧
      ∃ w3,
        aquire_lock 0 p_demo true w2 = (Ok tt, w3) ∧
        holds 0 p_demo w3 ∧
        flock_calls w3 = S (flock_calls w2).
Proof.
  apply (aquire_lock_reentrant_non_counting 0 p_demo true 3 w_empty).
  - reflexivity.
  - intros [fd H]. vm_compute in H. discriminate.
  - intros i H. vm_compute in H. discriminate.
Defined.






(** C6, as stated, fails: a load with [lock=True] that succeeds returns
    with the lock still held.  Here the file exists and holds one byte. *)
Lemma load_with_lock_still_held :
  (load_bytes_from_file 0 p_demo [] true w_file).1 = Ok [x61] ∧
  holds 0 p_demo (load_bytes_from_file 0 p_demo [] true w_file).2.
Proof.
  split.
  - vm_compute. reflexivity.
  - vm_compute. eauto.
Qed.

(** C6, amended.  Called with [lock=True], each of [load_bytes_from_file],
    [load_text_from_file] and [load_object_from_file] runs [aquire_lock]
    first.  When that raises, the exception propagates and no read is made.
    When it returns, the thread holds the lock and the read is the next
    call; a read that returns (or finds no file) is not followed by a
    release, so the thread still holds the lock when the load ends, with its
    result or with the error of the decoding; the lock is released only when
    the read fails, before the failure propagates: after a result the path
    is held, after an [MKGeneralException] it is not.  The three loaders end
    in the state in which the byte load ends and raise what it raises. *)
Theorem load_with_lock_keeps_lock `{Builtins}
    (t : nat) (path : Path) (db : list byte) (dt : list N) (dv : Value)
    (w : World) :
  (locked_after t path (load_bytes_from_file t path db true w) ∧
   locked_after t path (load_text_from_file t path dt true w) ∧
   locked_after t path (load_object_from_file t path dv true w)) ∧
  ((load_bytes_from_file t path db true w).2
     = (_load_bytes_from_file t path true w).2 ∧
   (load_text_from_file t path dt true w).2
     = (_load_bytes_from_file t path true w).2 ∧
   (load_object_from_file t path dv true w).2
     = (_load_bytes_from_file t path true w).2 ∧
   ∀ e, (_load_bytes_from_file t path true w).1 = Raise e →
        (load_bytes_from_file t path db true w).1 = Raise e ∧
        (load_text_from_file t path dt true w).1 = Raise e ∧
        (load_object_from_file t path dv true w).1 = Raise e) ∧
  (∀ e w1, aquire_lock t path true w = (Raise e, w1) →
           _load_bytes_from_file t path true w = (Raise e, w1)) ∧
  (∀ w1, aquire_lock t path true w = (Ok tt, w1) →
         holds t path w1 ∧
         load_after_lock t path (os_read_bytes (path_str path) w1)
           (_load_bytes_from_file t path true w)).
Proof.
  split.
  { pose proof (load_bytes_locked_spec t path w) as HL.
    unfold load_bytes_from_file, load_text_from_file, load_object_from_file.
    rewrite !bind_eq.
    destruct (_load_bytes_from_file t path true w) as [[data|e|] w']; [| |done].
    2:{ by destruct e. }
    split_and!; [done| |].
    - rewrite bind_eq. by destruct (decode_utf8 data).
    - rewrite bind_eq. destruct (decode_utf8 data) as [[|c s]|]; simpl; try done.
      by destruct (literal_eval (c :: s)). }
  split_and!.
  - unfold load_bytes_from_file. rewrite bind_eq.
    by destruct (_load_bytes_from_file t path true w) as [[?|?|] ?].
  - unfold load_text_from_file. rewrite bind_eq.
    destruct (_load_bytes_from_file t path true w) as [[data|?|] ?]; try done.
    rewrite bind_eq. by destruct (decode_utf8 data).
  - unfold load_object_from_file. rewrite bind_eq.
    destruct (_load_bytes_from_file t path true w) as [[data|?|] ?]; try done.
    rewrite bind_eq. destruct (decode_utf8 data) as [[|c s]|]; try done.
    simpl. by destruct (literal_eval (c :: s)).
  - intros e He.
    unfold load_bytes_from_file, load_text_from_file, load_object_from_file.
    rewrite !bind_eq.
    destruct (_load_bytes_from_file t path true w) as [r u]. simpl in He.
    by subst r.
  - intros e w1 E. unfold _load_bytes_from_file. by rewrite bind_eq, E.
  - intros w1 E. pose proof (aquire_lock_ok_holds _ _ _ _ _ E) as Hh.
    split; [done|].
    unfold _load_bytes_from_file. rewrite bind_eq, E, !try_except_eq.
    destruct (os_read_bytes (path_str path) w1) as [rb w2] eqn:Eb.
    pose proof Eb as Hb. apply syscall_inv in Hb as (Hr & _ & _ & _ & Hos).
    assert (holds t path w2) as Hh2.
    { unfold holds. by rewrite (locks_of_regs t w1 w2 Hr). }
    unfold load_after_lock.
    destruct Hos as [(f & _ & -> & _)|[_ Hsem]].
    + clear Eb.
      assert (match release_lock t path w2 with
              | (Ok _, w3) => ¬ holds t path w3
              | (Raise _, _) => True
              | (Hang, _) => False
              end) as HR.
      { destruct (release_lock t path w2) as [[[]|e'|] w3] eqn:ER; [|done|].
        - by apply release_lock_spec in ER as (_ & _ & ? & _).
        - by apply release_lock_spec in ER as (_ & _ & ?). }
      destruct f; cbn -[release_lock holds]; rewrite ?bind_eq;
        try (by split);
        by destruct (release_lock t path w2) as [[[]|e'|] w3].
    + unfold sem_read_bytes in Hsem.
      destruct (visible (os w1) (path_str path)); injection Hsem as <- _; done.
Qed.

Lemma load_with_lock_keeps_lock_witness :
  holds 0 p_demo (aquire_lock 0 p_demo true w_file).2 ∧
  _load_bytes_from_file 0 p_demo true w_file
  = (Ok [x61],
     (os_read_bytes (path_str p_demo) (aquire_lock 0 p_demo true w_file).2).2).
Proof.
  pose proof (@load_with_lock_keeps_lock bool_builtins 0 p_demo [] [] true
                w_file) as (_ & _ & _ & H).
  specialize (H (aquire_lock 0 p_demo true w_file).2).
  destruct H as [Hh Hl].
  { vm_compute. reflexivity. }
  split; [exact Hh|].
  unfold load_after_lock in Hl.
  destruct (os_read_bytes (path_str p_demo) (aquire_lock 0 p_demo true w_file).2)
    as [rb w2] eqn:Eb.
  assert (rb = Ok [x61]) as ->.
  { apply (f_equal fst) in Eb. vm_compute in Eb. rewrite <- Eb. reflexivity. }
  apply Hl.
Defined.

(** C1.  Atomic visibility of [_save_data_to_file].  The history of the
    call, with the state every system call left and every byte written a
    state of its own, splits at the state [w0] in which the lock phase
    ended.  Up to [w0] a reader of the target sees what it saw before the
    call, or, when the target was missing, the empty file that locking
    creates.  From [w0] on, through the creation of the temporary file, the
    chmod, the write, the rename, the cleanup and the release, a reader
    sees what the target showed in [w0] or all of [data]: never a prefix,
    never an empty file the rename brought.  After a normal return the
    target shows exactly [data].  This holds under every environment. *)
Theorem save_data_atomic
    (t : nat) (path : Path) (data : list byte) (mode : N) (w : World) :
  let '(r, w') := _save_data_to_file t path data mode w in
  (∃ w0, Hist (gap (path_str path)) w w0 ∧
         Hist (old_or_new (path_str path) data) w0 w') ∧
  match r with
  | Ok _ => visible (os w') (path_str path) = Some data
  | _ => True
  end.
Proof.
  set (p := path_str path). unfold _save_data_to_file. rewrite try_finally_eq.
  destruct (save_try t path data mode w) as [r0 u] eqn:E0.
  apply save_try_spec in E0 as (w0 & HG & _ & HO & Hres). fold p in HG, HO, Hres.
  pose proof (Hist_release_lock fs_eq (λ _ _ H, H) t path u) as HR.
  destruct (release_lock t path u) as [r1 w'] eqn:E1. simpl in HR.
  assert (HO' : Hist (old_or_new p data) w0 w').
  { etrans; [exact HO|]. eapply Hist_mono; [|exact HR].
    intros o o' H. by apply same_at_old_or_new, fs_eq_same_at. }
  assert (Hv : visible (os w') p = visible (os u) p).
  { apply fs_eq_visible, HR. }
  destruct r0 as [[]|e0|].
  - destruct r1 as [[]|e1|]; (split; [by exists w0|]); try done. by rewrite Hv.
  - destruct r1 as [[]|e1|]; (split; [by exists w0|]); done.
  - split; [by exists w0|done].
Qed.







(** C9.  [save_text_to_file] with a content that is not text, and
    [save_bytes_to_file] with a content that is not bytes, raise [TypeError]
    and leave the whole state as it was: no system call is made, so no lock
    is taken and no file touched, and the lock registries are not even
    looked at. *)
Theorem save_type_mismatch_rejected
    (t : nat) (path : Path) (content : pyarg) (mode : N) (w : World) :
  match content with
  | PyText _ => True
  | _ =>
      save_text_to_file t path content mode w
      = (Raise (TypeError "content argument must be Text, not bytes"), w)
  end ∧
  match content with
  | PyBytes _ => True
  | _ =>
      save_bytes_to_file t path content mode w
      = (Raise (TypeError "content argument must be bytes, not Text"), w)
  end.
Proof. by destruct content. Qed.

(** C10.  [load_from_mk_file] does not look at its [lock] argument: the
    call is the same computation for [lock=True] and [lock=False].  Under
    every environment it makes exactly one system call, the read of the
    file, none of them an [open], [flock] or [close]; the lock registries
    and the operating system state are what they were.  So the calling
    thread holds the lock on the path after the call only if it held it
    before. *)
Theorem load_from_mk_file_never_locks `{Builtins}
    (t : nat) (path : Path) (key : string) (dflt : Value) (lock : bool)
    (w : World) :
  load_from_mk_file t path key dflt lock w
  = load_from_mk_file t path key dflt false w ∧
  let w' := (load_from_mk_file t path key dflt lock w).2 in
  regs w' = regs w ∧ os w' = os w ∧
  flock_calls w' = flock_calls w ∧
  (∃ oc, hist w' = (CReadBytes (path_str path), oc, os w) :: hist w) ∧
  (¬ holds t path w → ¬ holds t path w').
Proof.
  split; [done|]. unfold load_from_mk_file. rewrite bind_eq.
  destruct (load_mk_file t path (Some {[key := dflt]}) false w) as [r u] eqn:E.
  apply load_mk_file_unlocked_inv in E as (Hr & Ho & oc & Hh).
  assert (∀ w', w' = u →
            regs w' = regs w ∧ os w' = os w ∧ flock_calls w' = flock_calls w ∧
            (∃ oc, hist w' = (CReadBytes (path_str path), oc, os w) :: hist w) ∧
            (¬ holds t path w → ¬ holds t path w')) as Hu.
  { intros w' ->. split_and!; eauto.
    - unfold flock_calls. by rewrite Hh.
    - unfold holds. by rewrite (locks_of_regs t w u Hr). }
  destruct r as [d|e|]; cbv zeta; [|by apply Hu..].
  apply Hu. by destruct (d !! key).
Qed.

(** C8.  Without faults, a load of a path that does not exist returns the
    caller's default, and so does a load of a file that exists and is empty
    ([lock=True] on a lock that is free or the caller's own).  When the
    environment makes the read fail, no default is returned: the three
    loaders raise, and for [lock=False] what they raise is the read failure
    ([MKGeneralException] "Cannot read file" around the error, or the
    [MKTerminate], [MKTimeout] or [KeyboardInterrupt] itself). *)
Theorem load_default_semantics `{Builtins}
    (t : nat) (path : Path) (db : list byte) (dt : list N) (dv : Value)
    (lock : bool) (w : World) :
  (quiet w → (lock = true → holds t path w ∨ lock_free path (os w)) →
   names (os w) !! path_str path = None
   ∨ visible (os w) (path_str path) = Some [] →
   (load_bytes_from_file t path db lock w).1 = Ok db ∧
   (load_text_from_file t path dt lock w).1 = Ok dt ∧
   (load_object_from_file t path dv lock w).1 = Ok dv) ∧
  (∀ f, fault_of (next_event w) = Some f → (lock = true → holds t path w) →
   ∃ e, (load_bytes_from_file t path db lock w).1 = Raise e ∧
        (load_text_from_file t path dt lock w).1 = Raise e ∧
        (load_object_from_file t path dv lock w).1 = Raise e ∧
        (lock = false → e = read_failure path f)).
Proof.
  unfold load_bytes_from_file, load_text_from_file, load_object_from_file.
  rewrite !bind_eq. split.
  - intros Hq Hl Hv.
    destruct (load_bytes_quiet t path lock w Hq Hl) as (w' & -> & _).
    assert (default [] (visible (os w) (path_str path)) = []) as ->.
    { destruct Hv as [Hv| ->]; [|done]. unfold visible. by rewrite Hv. }
    done.
  - intros f Hf Hl.
    destruct (load_bytes_fault t path lock w f Hf Hl) as (e & w' & -> & He).
    by exists e.
Qed.

Lemma load_default_semantics_witness :
  (@load_bytes_from_file 0 p_demo [x64] false w_fresh).1 = Ok [x64] ∧
  (@load_text_from_file 0 p_demo [100%N] false w_fresh).1 = Ok [100%N] ∧
  (@load_object_from_file bool_builtins 0 p_demo true false w_fresh).1 = Ok true.
Proof.
  apply (@load_default_semantics bool_builtins 0 p_demo [x64] [100%N] true false
           w_fresh).
  - reflexivity.
  - discriminate.
  - left. vm_compute. reflexivity.
Defined.

(** * Further properties *)

(** ** Releasing by key *)

Lemma release_lock_name_eq t path :
  release_lock_name t (path_str path) = release_lock t path.
Proof. reflexivity. Qed.

#[global] Instance shrinks_preorder : PreOrder shrinks.
Proof.
  split; [by intros o|].
  intros o1 o2 o3 (?&?&?&?) (?&?&?&?). split_and!; try congruence; by etrans.
Qed.

Lemma sem_close_shrinks fd o : shrinks o (sem_close fd o).2.
Proof.
  unfold sem_close. destruct (fds o !! fd) as [i|]; simpl; [|done].
  split_and!; simpl; try done.
  - apply delete_subseteq.
  - case_decide; [apply delete_subseteq|done].
Qed.

Lemma release_lock_name_spec t name w r w' :
  release_lock_name t name w = (r, w') →
  (∀ t', t' ≠ t → locks_of t' w' = locks_of t' w) ∧
  (∀ q, q ≠ name → locks_of t w' !! q = locks_of t w !! q) ∧
  match r with
  | Ok _ =>
      locks_of t w' !! name = None ∧
      faults w' = match locks_of t w !! name with
                  | Some _ => tail (faults w)
                  | None => faults w
                  end ∧
      os w' = match locks_of t w !! name with
              | Some fd => (sem_close fd (os w)).2
              | None => os w
              end
  | Raise e =>
      ∃ fd f, locks_of t w !! name = Some fd ∧
              e = exn_of_fault f ∧ fault_of (next_event w) = Some f ∧
              locks_of t w' = locks_of t w ∧ os w' = os w
  | Hang => False
  end.
Proof.
  unfold release_lock_name. rewrite bind_eq.
  change (_has_lock t name w)
    with (Ok (bool_decide (is_Some (locks_of t w !! name))), touch t w).
  destruct (locks_of t w !! name) as [fd|] eqn:Efd.
  2:{ rewrite bool_decide_eq_false_2 by (by intros [? ?]). simpl.
      intros [= <- <-]. split_and!; try done.
      - intros t' _. apply locks_of_touch.
      - intros q _. by rewrite locks_of_touch.
      - by rewrite locks_of_touch. }
  rewrite bool_decide_eq_true_2 by eauto. simpl.
  rewrite bind_eq, _get_lock_eq, locks_of_touch, Efd.
  rewrite bind_eq, try_except_eq.
  destruct (os_close fd (touch t (touch t w))) as [r0 w1] eqn:Ec.
  apply syscall_inv in Ec as (Hregs & _ & Hfl & _ & Hos).
  assert (Hl : ∀ t', locks_of t' w1 = locks_of t' w).
  { intros t'. unfold locks_of at 1. rewrite Hregs.
    change (default ∅ (regs (touch t (touch t w)) !! t'))
      with (locks_of t' (touch t (touch t w))).
    by rewrite !locks_of_touch. }
  assert (Hdel : ∀ w2, _del_lock t name w1 = (r, w2) →
    r = Ok tt ∧ os w2 = os w1 ∧ faults w2 = faults w1 ∧
    (∀ t', t' ≠ t → locks_of t' w2 = locks_of t' w) ∧
    (∀ q, q ≠ name → locks_of t w2 !! q = locks_of t w !! q) ∧
    locks_of t w2 !! name = None).
  { intros w2. rewrite _del_lock_eq. intros [= <- <-]. split_and!; try done.
    - intros t' Hne. rewrite locks_of_insert. case_decide; [congruence|].
      apply Hl.
    - intros q Hq. rewrite locks_of_insert. case_decide; [|done].
      rewrite lookup_delete_ne by done. by rewrite Hl.
    - rewrite locks_of_insert. case_decide; [|done]. apply lookup_delete_eq. }
  destruct Hos as [(f & Hf & -> & Hos)|[Hf Hsem]].
  - intros H.
    assert (r = Raise (exn_of_fault f) ∧ w' = w1) as [-> ->].
    { destruct f; simpl in H; by inversion H. }
    split_and!.
    + intros t' _. apply Hl.
    + intros q _. by rewrite Hl.
    + exists fd, f. split_and!; try done.
  - simpl in Hsem. destruct (sem_close_res fd (os w)) as [He|[He Ho]].
    + rewrite Hsem in He. simpl in He. subst r0. simpl.
      intros H. apply Hdel in H as (-> & Hos' & Hf' & H1 & H2 & H3).
      split_and!; try done; [by rewrite Hf'|]. rewrite Hos'. by rewrite Hsem.
    + rewrite Hsem in He, Ho. simpl in He, Ho. subst r0. simpl.
      intros H. apply Hdel in H as (-> & Hos' & Hf' & H1 & H2 & H3).
      split_and!; try done; [by rewrite Hf'|]. rewrite Hos'. by rewrite Hsem.
Qed.

Lemma sem_close_self fd o :
  fds (sem_close fd o).2 !! fd = None ∧
  ∀ i, fds o !! fd = Some i → flocks o !! i = Some fd →
       flocks (sem_close fd o).2 !! i = None.
Proof.
  unfold sem_close. destruct (fds o !! fd) as [j|] eqn:E; simpl.
  - split; [apply lookup_delete_eq|]. intros i [= ->] Hi.
    rewrite decide_True by done. apply lookup_delete_eq.
  - split; [done|]. by intros i.
Qed.

Lemma sem_close_other fd fd' o i :
  fd ≠ fd' → fds o !! fd = Some i → flocks o !! i = Some fd →
  fds (sem_close fd' o).2 !! fd = Some i ∧
  flocks (sem_close fd' o).2 !! i = Some fd.
Proof.
  intros Hne Hfd Hi. unfold sem_close.
  destruct (fds o !! fd') as [j|] eqn:E; simpl; [|done].
  split; [by rewrite lookup_delete_ne|].
  case_decide as Hj; [|done].
  rewrite lookup_delete_ne; [done|]. intros ->. congruence.
Qed.

(** The loop releases key after key; it stops at the first [os.close] that
    the environment makes fail, with that key and the later ones still
    recorded. *)
Lemma release_each_spec t keys w r w' :
  release_each t keys w = (r, w') →
  (∀ t', t' ≠ t → locks_of t' w' = locks_of t' w) ∧
  locks_of t w' ⊆ locks_of t w ∧
  shrinks (os w) (os w') ∧
  match r with
  | Ok _ => ∀ k, k ∈ keys → locks_of t w' !! k = None
  | Raise e => from_os e ∧ ∃ k, k ∈ keys ∧ is_Some (locks_of t w' !! k)
  | Hang => False
  end.
Proof.
  revert w. induction keys as [|k rest IH]; intros w.
  { intros [= <- <-]. split_and!; try done. by intros k ?%elem_of_nil. }
  cbn [release_each]. rewrite bind_eq.
  destruct (release_lock_name t k w) as [r1 w1] eqn:E1.
  apply release_lock_name_spec in E1 as (Hot & Hq & Hr1).
  destruct r1 as [[]|e|]; [| |done].
  - destruct Hr1 as (Hk & _ & Ho1). intros E.
    apply IH in E as (Hot' & Hsub & Hsh & Hr).
    assert (locks_of t w1 ⊆ locks_of t w) as Hsub1.
    { apply map_subseteq_spec. intros q v Hv.
      destruct (decide (q = k)) as [->|Hne]; [congruence|]. by rewrite <- Hq. }
    assert (shrinks (os w) (os w1)) as Hsh1.
    { rewrite Ho1. destruct (locks_of t w !! k); [apply sem_close_shrinks|done]. }
    split_and!.
    + intros t' Ht. by rewrite Hot', Hot.
    + by etrans.
    + by etrans.
    + destruct r as [[]|e|]; [| |done].
      * intros k' [->|Hin]%elem_of_cons; [|by apply Hr].
        by eapply lookup_weaken_None.
      * destruct Hr as (He & k' & Hin & Hs). split; [done|].
        exists k'. split; [by right|done].
  - destruct Hr1 as (fd & f & Hfd & -> & _ & Hl & Ho). intros [= <- <-].
    split_and!; try done.
    + by rewrite Hl.
    + by rewrite Ho.
    + apply from_os_fault.
    + exists k. split; [by left|]. rewrite Hl. eauto.
Qed.

Lemma release_each_quiet t keys w :
  quiet w →
  ∃ w', release_each t keys w = (Ok tt, w') ∧ quiet w' ∧
        ∀ k fd, k ∈ keys → locks_of t w !! k = Some fd →
          fds (os w') !! fd = None ∧
          ∀ i, fds (os w) !! fd = Some i → flocks (os w) !! i = Some fd →
               flocks (os w') !! i = None.
Proof.
  revert w. induction keys as [|k rest IH]; intros w Hq.
  { exists w. split_and!; try done. by intros k fd ?%elem_of_nil. }
  cbn [release_each]. rewrite bind_eq.
  destruct (release_lock_name t k w) as [r1 w1] eqn:E1.
  apply release_lock_name_spec in E1 as (Hot & Hoq & Hr1).
  destruct r1 as [[]|e|]; [| |done].
  2:{ destruct Hr1 as (? & f & _ & _ & Hf & _).
      by rewrite (quiet_next w Hq) in Hf. }
  destruct Hr1 as (Hk & Hf1 & Ho1).
  assert (quiet w1) as Hq1.
  { unfold quiet in *. rewrite Hf1, Hq. by destruct (locks_of t w !! k). }
  destruct (IH w1 Hq1) as (w' & E & Hq' & Hcl).
  exists w'. split_and!; try done.
  pose proof (release_each_spec t rest w1 _ _ E) as (_ & _ & (_ & _ & Hfds & Hfl) & _).
  intros k' fd Hin Hfd.
  destruct (decide (k' = k)) as [->|Hne].
  - rewrite Hfd in Ho1. destruct (sem_close_self fd (os w)) as [Hc1 Hc2].
    rewrite <- Ho1 in Hc1, Hc2. split.
    + by eapply lookup_weaken_None.
    + intros i Hi Hfi. eapply lookup_weaken_None; [|exact Hfl]. by apply Hc2.
  - apply elem_of_cons in Hin as [?|Hin]; [done|].
    destruct (Hcl k' fd Hin) as [Hc1 Hc2]; [by rewrite Hoq|].
    split; [done|]. intros i Hi Hfi.
    destruct (locks_of t w !! k) as [fdk|] eqn:Ek.
    2:{ rewrite Ho1 in Hc2. by apply Hc2. }
    destruct (decide (fd = fdk)) as [->|Hfdne].
    + destruct (sem_close_self fdk (os w)) as [_ Hs].
      eapply lookup_weaken_None; [|exact Hfl]. rewrite Ho1. by apply Hs.
    + destruct (sem_close_other fd fdk (os w) i Hfdne Hi Hfi) as [H1 H2].
      rewrite <- Ho1 in H1, H2. by apply Hc2.
Qed.

Lemma release_all_locks_unfold t w :
  release_all_locks t w =
  match release_each t (map_to_list (locks_of t w)).*1 (touch t (touch t w)) with
  | (Ok _, u) => (Ok tt, set_regs (<[t := ∅]> (regs u)) u)
  | (Raise e, u) => (Raise e, u)
  | (Hang, u) => (Hang, u)
  end.
Proof.
  unfold release_all_locks. rewrite bind_eq.
  change (_get_lock_map t w) with (Ok (locks_of t w), touch t w).
  cbv beta iota. rewrite bind_eq.
  change (_get_lock_keys t (touch t w))
    with (Ok (map_to_list (locks_of t (touch t w))).*1, touch t (touch t w)).
  cbv beta iota. rewrite locks_of_touch, bind_eq.
  by destruct (release_each _ _ _) as [[[]|e|] u].
Qed.

Lemma release_all_locks_spec t w :
  match release_all_locks t w with
  | (Ok _, w') => locks_of t w' = ∅
  | (Raise e, w') => from_os e ∧ ∃ k, is_Some (locks_of t w' !! k)
  | (Hang, _) => False
  end.
Proof.
  rewrite release_all_locks_unfold.
  destruct (release_each _ _ _) as [r u] eqn:E.
  apply release_each_spec in E as (_ & _ & _ & Hr).
  destruct r as [[]|e|]; [| |done].
  - rewrite locks_of_insert. by rewrite decide_True.
  - destruct Hr as (He & k & _ & Hk). eauto.
Qed.

(** X1.  [release_all_locks] under any environment.  When it returns, the
    calling thread's registry is empty.  It raises only when the environment
    makes an [os.close] fail with something other than [EBADF]; then the
    loop stops, [_del_all_locks] is not reached, and the registry still
    records the lock whose close failed (and nothing it did not record
    before).  It never blocks.  Either way the registries of the other
    threads, the names and the file contents are untouched, and no
    descriptor is opened and no lock taken. *)
Theorem release_all_locks_outcome (t : nat) (w : World) :
  match release_all_locks t w with
  | (Ok _, w') => locks_of t w' = ∅
  | (Raise e, w') =>
      from_os e ∧ locks_of t w' ⊆ locks_of t w ∧
      ∃ k, is_Some (locks_of t w' !! k)
  | (Hang, _) => False
  end ∧
  (∀ t', t' ≠ t →
     locks_of t' (release_all_locks t w).2 = locks_of t' w) ∧
  shrinks (os w) (os (release_all_locks t w).2).
Proof.
  rewrite release_all_locks_unfold.
  destruct (release_each _ _ _) as [r u] eqn:E.
  apply release_each_spec in E as (Hot & Hsub & Hsh & Hr).
  rewrite locks_of_touch, locks_of_touch in Hsub.
  assert (∀ t', t' ≠ t → locks_of t' u = locks_of t' w) as Hot'.
  { intros t' Ht. by rewrite Hot, !locks_of_touch. }
  destruct r as [[]|e|]; [| |done]; simpl.
  - split_and!; try done.
    + rewrite locks_of_insert. by rewrite decide_True.
    + intros t' Ht. rewrite locks_of_insert. rewrite decide_False by done.
      by apply Hot'.
  - destruct Hr as (He & k & _ & Hk). split_and!; eauto.
Qed.

(** X2.  [release_all_locks] without faults: it returns, the registry is
    empty, every descriptor the registry recorded is closed, and the
    [flock] each of them owned is gone. *)
Theorem release_all_locks_quiet (t : nat) (w : World) :
  quiet w →
  ∃ w', release_all_locks t w = (Ok tt, w') ∧ quiet w' ∧
        locks_of t w' = ∅ ∧
        ∀ p fd, locks_of t w !! p = Some fd →
          fds (os w') !! fd = None ∧
          ∀ i, fds (os w) !! fd = Some i → flocks (os w) !! i = Some fd →
               flocks (os w') !! i = None.
Proof.
  intros Hq. rewrite release_all_locks_unfold.
  destruct (release_each_quiet t (map_to_list (locks_of t w)).*1
              (touch t (touch t w)) Hq) as (u & -> & Hqu & Hcl).
  eexists. split; [done|]. split_and!; try done.
  - rewrite locks_of_insert. by rewrite decide_True.
  - intros p fd Hp. apply (Hcl p fd).
    + apply list_elem_of_fmap. exists (p, fd). split; [done|].
      by apply elem_of_map_to_list.
    + by rewrite !locks_of_touch.
Qed.

Lemma release_all_locks_quiet_witness :
  ∃ w', release_all_locks 0 w_locked = (Ok tt, w') ∧ locks_of 0 w' = ∅ ∧
        fds (os w') !! 0 = None.
Proof.
  pose proof (release_all_locks_quiet 0 w_locked) as H.
  destruct H as (w' & E & _ & Hl & Hc).
  { vm_compute. reflexivity. }
  exists w'. split; [exact E|]. split; [exact Hl|].
  apply (Hc "/tmp/x.mk" 0). vm_compute. reflexivity.
Defined.

(** X3.  [cleanup_locks].  The block's result comes through whenever the
    release at the end goes through, and then the registry is empty; the
    only other exit is the exception of an [os.close] that the environment
    made fail, and then a lock stays recorded.  The call blocks only when
    the block does. *)
Theorem cleanup_locks_outcome {A} (t : nat) (body : M A) (w : World) :
  match cleanup_locks t body w with
  | (Ok a, w') => locks_of t w' = ∅ ∧ ∃ u, body w = (Ok a, u)
  | (Raise e, w') =>
      (locks_of t w' = ∅ ∧ ∃ u, body w = (Raise e, u)) ∨
      (from_os e ∧ ∃ k, is_Some (locks_of t w' !! k))
  | (Hang, w') => body w = (Hang, w')
  end.
Proof.
  unfold cleanup_locks. rewrite try_finally_eq.
  destruct (body w) as [r u]. rewrite try_except_eq.
  pose proof (release_all_locks_spec t u) as H.
  destruct r as [a|e|]; [| |done];
    destruct (release_all_locks t u) as [[[]|e'|] w']; try done;
    rewrite ?raise_eq; eauto.
Qed.

Lemma release_lock_not_held t path w :
  ¬ holds t path w → release_lock t path w = (Ok tt, touch t w).
Proof.
  intros Hn. unfold release_lock. rewrite bind_eq, have_lock_eq.
  by rewrite bool_decide_eq_false_2.
Qed.

(** X4.  [with locked(path, blocking)].  The block runs only after
    [aquire_lock] returned, and then the thread holds the lock.  When
    [aquire_lock] raises, the block is skipped, that exception reaches the
    caller, and the [finally] clause makes no system call.  When the
    statement ends normally the path is not held any more, also when the
    thread held it before it entered: the lock is not counted. *)
Theorem locked_outcome {A} (t : nat) (path : Path) (blocking : bool)
    (body : M A) (w : World) :
  (∀ w1, aquire_lock t path blocking w = (Ok tt, w1) →
     holds t path w1 ∧
     locked t path blocking body w
     = try_finally body (release_lock t path) w1) ∧
  (∀ e w1, aquire_lock t path blocking w = (Raise e, w1) →
     (locked t path blocking body w).1 = Raise e ∧
     os (locked t path blocking body w).2 = os w1 ∧
     hist (locked t path blocking body w).2 = hist w1 ∧
     ¬ holds t path (locked t path blocking body w).2) ∧
  (∀ a w', locked t path blocking body w = (Ok a, w') → ¬ holds t path w').
Proof.
  split_and!.
  - intros w1 E. split; [by eapply aquire_lock_ok_holds|].
    unfold locked. by rewrite !try_finally_eq, bind_eq, E.
  - intros e w1 E.
    assert (¬ holds t path w) as Hn.
    { intros Hh. by rewrite aquire_lock_held in E. }
    pose proof (aquire_lock_spec t path blocking w _ _ E Hn) as [_ Hl].
    assert (¬ holds t path w1) as Hn1.
    { unfold holds. by rewrite Hl. }
    unfold locked. rewrite try_finally_eq, bind_eq, E.
    rewrite (release_lock_not_held t path w1 Hn1). simpl.
    split_and!; try done. by rewrite holds_touch.
  - intros a w'. unfold locked. rewrite try_finally_eq.
    destruct ((aquire_lock t path blocking ≫= λ _, body) w) as [[a'|e|] u];
      [| |done].
    + destruct (release_lock t path u) as [[[]|e|] u'] eqn:E; [|done..].
      intros [= <- <-]. by apply release_lock_spec in E as (_ & _ & ? & _).
    + destruct (release_lock t path u) as [[[]|e'|] u'] eqn:E; done.
Qed.

(** X5.  Nesting [locked] on one path.  In a run without faults, on a lock
    that is free or the thread's own, the inner statement releases the lock
    when it ends: the rest of the outer block runs with [have_lock] false. *)
Theorem nested_locked_releases_outer (t : nat) (path : Path) (b1 b2 : bool)
    (w : World) :
  quiet w → holds t path w ∨ lock_free path (os w) →
  ∃ w', locked t path b1
          (locked t path b2 (mret tt) ;; have_lock t path) w
        = (Ok false, w').
Proof.
  intros Hq Hl.
  assert (∃ w1, aquire_lock t path b1 w = (Ok tt, w1) ∧ quiet w1 ∧
                holds t path w1) as (w1 & E1 & Hq1 & Hh1).
  { destruct (decide (is_Some (locks_of t w !! path_str path))) as [Hh|Hn].
    { exists w. by rewrite aquire_lock_held. }
    destruct Hl as [?|Hf]; [done|].
    destruct (aquire_lock_quiet t path b1 w Hq Hn Hf)
      as (w1 & i & E & Hq1 & _ & _ & _ & _ & _ & _ & _ & Hlk & _).
    exists w1. split_and!; try done.
    unfold holds. rewrite Hlk, lookup_insert_eq. eauto. }
  destruct Hh1 as [fd Hfd].
  destruct (release_lock_quiet t path w1 fd Hq1 Hfd)
    as (w2 & E2 & Hq2 & Hn2 & _).
  unfold locked at 1. rewrite try_finally_eq, bind_eq, E1, bind_eq.
  unfold locked. rewrite try_finally_eq, bind_eq.
  rewrite (aquire_lock_held t path b2 w1) by (by exists fd).
  rewrite ret_eq, E2, have_lock_eq.
  rewrite bool_decide_eq_false_2 by done.
  rewrite release_lock_not_held by (by rewrite holds_touch).
  eauto.
Qed.

Lemma nested_locked_releases_outer_witness :
  ∃ w', locked 0 p_demo true
          (locked 0 p_demo true (mret tt) ;; have_lock 0 p_demo) w_empty
        = (Ok false, w').
Proof.
  apply (nested_locked_releases_outer 0 p_demo true true w_empty).
  - reflexivity.
  - right. intros i H. vm_compute in H. discriminate.
Defined.

(** X6.  [try_aquire_lock] on a lock that another descriptor owns, without
    faults: it returns [False] and leaves the operating system state and
    every registry exactly as they were, so the descriptor it opened for the
    attempt is closed again and the owner keeps its lock. *)
Theorem try_aquire_lock_busy_no_leak (t : nat) (path : Path) (w : World)
    (i owner : nat) :
  quiet w → ¬ holds t path w →
  names (os w) !! path_str path = Some i → flocks (os w) !! i = Some owner →
  ∃ w', try_aquire_lock t path w = (Ok false, w') ∧ quiet w' ∧
        os w' = os w ∧ ∀ t', locks_of t' w' = locks_of t' w.
Proof.
  intros Hq Hn Hi Ho.
  destruct (aquire_lock_busy t path w i owner Hq Hn Hi Ho) as (w' & E & Hos).
  pose proof (try_aquire_lock_cases t path w) as Hc. rewrite E in Hc.
  simpl in Hc. exists w'. split_and!; try done.
  - pose proof (Later_aquire_lock t path false w) as HL. rewrite E in HL.
    by eapply Later_quiet.
  - by apply (try_aquire_lock_owned t path w i owner _ _ Hn Hi Ho Hc).
Qed.

Lemma try_aquire_lock_busy_no_leak_witness :
  ∃ w', try_aquire_lock 1 p_demo w_locked = (Ok false, w') ∧ quiet w' ∧
        os w' = os w_locked ∧ ∀ t', locks_of t' w' = locks_of t' w_locked.
Proof.
  apply (try_aquire_lock_busy_no_leak 1 p_demo w_locked 0 0).
  - vm_compute. reflexivity.
  - intros [fd H]. vm_compute in H. discriminate.
  - vm_compute. reflexivity.
  - vm_compute. reflexivity.
Defined.

(** X7.  [with try_locked(path) as result].  The block always runs (unless
    the attempt itself raises), and when the statement ends normally the path
    is not held, whatever [result] was.  When another descriptor owns the
    lock and there are no faults, the block runs with [result] false in the
    operating system state of the call. *)
Theorem try_locked_outcome {A} (t : nat) (path : Path) (body : bool → M A)
    (w : World) :
  (∀ a w', try_locked t path body w = (Ok a, w') → ¬ holds t path w') ∧
  (∀ i owner,
     quiet w → ¬ holds t path w →
     names (os w) !! path_str path = Some i →
     flocks (os w) !! i = Some owner →
     ∃ w1, try_locked t path body w
           = try_finally (body false) (release_lock t path) w1 ∧
           os w1 = os w ∧ ∀ t', locks_of t' w1 = locks_of t' w).
Proof.
  split.
  - intros a w'. unfold try_locked. rewrite try_finally_eq.
    destruct ((try_aquire_lock t path ≫= body) w) as [[a'|e|] u]; [| |done].
    + destruct (release_lock t path u) as [[[]|e|] u'] eqn:E; [|done..].
      intros [= <- <-]. by apply release_lock_spec in E as (_ & _ & ? & _).
    + destruct (release_lock t path u) as [[[]|e'|] u'] eqn:E; done.
  - intros i owner Hq Hn Hi Ho.
    destruct (aquire_lock_busy t path w i owner Hq Hn Hi Ho) as (w1 & E & Hos).
    pose proof (try_aquire_lock_cases t path w) as Hc. rewrite E in Hc.
    simpl in Hc. exists w1. split_and!; try done.
    + unfold try_locked. by rewrite !try_finally_eq, bind_eq, Hc.
    + by apply (try_aquire_lock_owned t path w i owner _ _ Hn Hi Ho Hc).
Qed.

(** ** The registries and the operating system *)



(** X9.  [aquire_lock] and the lock file.  When the call returns on a path
    the thread did not hold and whose name was free, the file now exists
    and is empty; a file that was there shows what it showed. *)
Theorem aquire_lock_creates_file (t : nat) (path : Path) (blocking : bool)
    (w : World) :
  match aquire_lock t path blocking w with
  | (Ok _, w') =>
      (¬ holds t path w → names (os w) !! path_str path = None →
       visible (os w') (path_str path) = Some []) ∧
      (∀ d, visible (os w) (path_str path) = Some d →
            visible (os w') (path_str path) = Some d)
  | _ => True
  end.
Proof.
  pose proof (Hist_aquire_lock_gap (path_str path) t path blocking w) as [Hg _].
  destruct (aquire_lock t path blocking w) as [[[]|e|] w'] eqn:E; [|done..].
  simpl in Hg. split.
  - intros Hh Hp. clear Hg. revert E.
    unfold aquire_lock, aquire_lock_rounds.
    rewrite bind_eq, have_lock_eq, bool_decide_eq_false_2 by done.
    rewrite bind_eq.
    destruct (os_makedirs (parent path) mode_0o770 (touch t w)) as [r1 w1] eqn:E1.
    apply syscall_inv in E1 as (_ & _ & _ & _ & Ho1).
    destruct r1 as [[]|e|]; [|done..].
    destruct Ho1 as [(? & _ & ? & _)|[_ Ho1]]; [done|].
    injection Ho1 as Ho1. change (os (touch t w)) with (os w) in Ho1.
    rewrite bind_eq.
    destruct (os_open (path_str path) mode_0o660 w1) as [r2 w2] eqn:E2.
    apply os_open_inv in E2 as (_ & _ & Ho2).
    destruct r2 as [fd|e|]; [|done..]. destruct Ho2 as [_ Ho2].
    assert (visible (os w2) (path_str path) = Some []) as Hv2.
    { rewrite Ho2, <- Ho1. unfold visible, sem_open. rewrite Hp.
      cbn [snd names files]. rewrite lookup_insert_eq. cbn [mbind option_bind].
      by rewrite lookup_insert_eq. }
    rewrite bind_eq.
    pose proof (Hist_lock_loop (gap (path_str path)) (fs_eq_gap (path_str path))
                  path (λ m o, sem_open_gap (path_str path) m (path_str path) o)
                  1 blocking fd w2) as [Hg _].
    destruct (lock_loop 1 path blocking fd w2) as [[fd'|e|] w3]; [|done..].
    rewrite _set_lock_eq. intros [= <-]. simpl in *.
    destruct Hg as [Hg|[Hg _]]; congruence.
  - intros d Hd. destruct Hg as [Hg|[Hg _]]; congruence.
Qed.

(** X10.  [release_lock] at the edges.  On a path the thread does not hold
    it returns without a system call and changes nothing.  When the
    descriptor it recorded is not open any more, the [EBADF] of [os.close]
    is swallowed: the call still returns and the path is no longer
    recorded. *)
Theorem release_lock_edge_cases (t : nat) (path : Path) (w : World) :
  (¬ holds t path w →
   (release_lock t path w).1 = Ok tt ∧
   os (release_lock t path w).2 = os w ∧
   hist (release_lock t path w).2 = hist w ∧
   ∀ t', locks_of t' (release_lock t path w).2 = locks_of t' w) ∧
  (∀ fd, locks_of t w !! path_str path = Some fd →
         fds (os w) !! fd = None → fault_of (next_event w) = None →
         (release_lock t path w).1 = Ok tt ∧
         os (release_lock t path w).2 = os w ∧
         ¬ holds t path (release_lock t path w).2).
Proof.
  split.
  - intros Hn. rewrite release_lock_not_held by done. simpl.
    split_and!; try done. intros t'. apply locks_of_touch.
  - intros fd Hfd Hclosed Hf.
    destruct (release_lock t path w) as [r w'] eqn:E.
    apply release_lock_spec in E as (_ & _ & Hr).
    destruct r as [[]|e|]; [| |done]; simpl.
    + destruct Hr as [Hh Ho]. split_and!; try done.
      rewrite Ho, Hfd. unfold sem_close. by rewrite Hclosed.
    + destruct Hr as (? & f & _ & _ & Hf' & _). congruence.
Qed.

(** ** When a lock is reported busy *)

Lemma not_EAGAIN_fault f : is_EAGAIN (exn_of_fault f) = false.
Proof. by destruct f. Qed.

Lemma raises_not_EAGAIN_close fd :
  raises_only (λ e, is_EAGAIN e = false) (os_close fd).
Proof.
  apply raises_syscall; [apply not_EAGAIN_fault|]. intros o e o' H.
  destruct (sem_close_res fd o) as [E|[E _]]; rewrite H in E; simpl in E;
    by simplify_eq.
Qed.

Lemma raises_not_EAGAIN_open p mode :
  raises_only (λ e, is_EAGAIN e = false) (os_open p mode).
Proof.
  apply raises_syscall; [apply not_EAGAIN_fault|]. intros o e o'.
  unfold sem_open. by destruct (names o !! p).
Qed.

Lemma raises_not_EAGAIN_sameopenfile fd1 fd2 :
  raises_only (λ e, is_EAGAIN e = false) (os_sameopenfile fd1 fd2).
Proof.
  apply raises_syscall; [apply not_EAGAIN_fault|]. intros o e o'.
  unfold sem_sameopenfile. destruct (fds o !! fd1), (fds o !! fd2);
    by intros [= <- _].
Qed.

Lemma raises_not_EAGAIN_makedirs d mode :
  raises_only (λ e, is_EAGAIN e = false) (os_makedirs d mode).
Proof.
  apply raises_syscall; [apply not_EAGAIN_fault|]. by intros o e o'.
Qed.

(** [EAGAIN] leaves the [flock] step only when another descriptor owns the
    lock of the file. *)
Lemma flock_or_close_EAGAIN fd w e w' :
  flock_or_close fd true w = (Raise e, w') → is_EAGAIN e = true →
  ∃ i owner, fds (os w) !! fd = Some i ∧ flocks (os w) !! i = Some owner.
Proof.
  unfold flock_or_close. rewrite try_except_eq.
  destruct (os_flock fd true w) as [r0 w0] eqn:E0.
  apply syscall_inv in E0 as (_ & _ & _ & _ & Hos).
  assert (∀ e0, is_EAGAIN e0 = false →
            (match e0 with
             | OSError _ => os_close fd ;; raise e0
             | _ => raise e0
             end : M unit) w0 = (Raise e, w') → is_EAGAIN e = false) as Hh.
  { intros e0 He0 H.
    assert ((os_close fd ;; raise e0 : M unit) w0 = (Raise e, w') →
            is_EAGAIN e = false) as Hc.
    { rewrite bind_eq. destruct (os_close fd w0) as [[[]|e1|] w1] eqn:E1.
      - by intros [= <- _].
      - intros [= <- _]. by eapply raises_not_EAGAIN_close.
      - done. }
    destruct e0; try (by apply Hc); by injection H as <- _. }
  destruct Hos as [(f & _ & -> & _)|[_ Hsem]].
  { intros H He. apply Hh in H; [congruence|apply not_EAGAIN_fault]. }
  unfold sem_flock in Hsem.
  destruct (fds (os w) !! fd) as [i|] eqn:Ei.
  2:{ injection Hsem as <- _. intros H He.
      apply (Hh (OSError EBADF) eq_refl) in H. congruence. }
  destruct (flocks (os w) !! i) as [owner|] eqn:Eo.
  2:{ by injection Hsem as <- _. }
  intros _ _. eauto.
Qed.

Lemma aquire_lock_EAGAIN t path w e w' :
  aquire_lock t path false w = (Raise e, w') → is_EAGAIN e = true →
  ∃ i owner, names (os w) !! path_str path = Some i ∧
             flocks (os w) !! i = Some owner.
Proof.
  unfold aquire_lock, aquire_lock_rounds. rewrite bind_eq, have_lock_eq.
  destruct (bool_decide _); [done|].
  rewrite bind_eq.
  destruct (os_makedirs (parent path) mode_0o770 (touch t w)) as [r1 w1] eqn:E1.
  destruct r1 as [[]|e1|]; [| |done].
  2:{ intros [= <- _] He.
      pose proof (raises_not_EAGAIN_makedirs _ _ _ _ _ E1). congruence. }
  apply os_makedirs_inv in E1 as (_ & _ & Ho1).
  change (os (touch t w)) with (os w) in Ho1.
  rewrite bind_eq.
  destruct (os_open (path_str path) mode_0o660 w1) as [r2 w2] eqn:E2.
  destruct r2 as [fd|e2|]; [| |done].
  2:{ intros [= <- _] He.
      pose proof (raises_not_EAGAIN_open _ _ _ _ _ E2). congruence. }
  apply os_open_inv in E2 as (_ & _ & -> & Ho2).
  rewrite Ho1 in Ho2.
  rewrite bind_eq.
  destruct (lock_loop 1 path false (fresh_fd (os w1)) w2) as [r3 w3] eqn:E3.
  destruct r3 as [fd'|e3|]; [by rewrite _set_lock_eq| |done].
  intros [= <- <-] He. revert E3.
  rewrite lock_loop_unfold, bind_eq.
  destruct (flock_or_close (fresh_fd (os w1)) (negb false) w2)
    as [r4 w4] eqn:E4.
  destruct r4 as [[]|e4|]; [| |done].
  - (* the lock was taken: nothing later raises EAGAIN *)
    intros H. exfalso.
    assert (raises_only (λ e, is_EAGAIN e = false)
              (fd_new ← os_open (path_str path) mode_0o660;
               same ← os_sameopenfile (fresh_fd (os w1)) fd_new;
               if same : bool
               then os_close fd_new ;; mret (fresh_fd (os w1))
               else os_close (fresh_fd (os w1)) ;;
                    lock_loop 0 path false fd_new)) as Hrest.
    { apply raises_bind; [apply raises_not_EAGAIN_open|]. intros fd_new.
      apply raises_bind; [apply raises_not_EAGAIN_sameopenfile|]. intros same.
      destruct same.
      - apply raises_bind; [apply raises_not_EAGAIN_close|].
        intros ?. apply raises_ret.
      - apply raises_bind; [apply raises_not_EAGAIN_close|].
        intros ?. apply raises_hang. }
    specialize (Hrest _ _ _ H). congruence.
  - intros [= <-].
    destruct (flock_or_close_EAGAIN _ _ _ _ E4 He) as (i & owner & Hi & Hown).
    destruct (sem_open_spec (path_str path) mode_0o660 (os w))
      as (i0 & o' & Hs & Hni & Hfds & Hfl & _ & Hnew & Hold).
    rewrite Hs in Ho2. simpl in Ho2. rewrite Ho2 in Hi, Hown. rewrite Ho1 in Hi.
    rewrite Hfds, lookup_insert_eq in Hi. injection Hi as <-.
    rewrite Hfl in Hown.
    destruct (names (os w) !! path_str path) as [j|] eqn:Ej.
    + destruct (Hold j eq_refl) as [-> _]. eauto.
    + rewrite Hnew in Hown; done.
Qed.

(** X11.  [try_aquire_lock] never reports a free lock as busy, whatever the
    environment does: when it returns [False], the path named a file whose
    [flock] some descriptor owned when the call was made (and the calling
    thread did not have the path in its registry). *)
Theorem try_aquire_lock_false_means_busy (t : nat) (path : Path) (w : World) :
  match try_aquire_lock t path w with
  | (Ok false, _) =>
      ¬ holds t path w ∧
      ∃ i owner, names (os w) !! path_str path = Some i ∧
                 flocks (os w) !! i = Some owner
  | _ => True
  end.
Proof.
  pose proof (try_aquire_lock_cases t path w) as Hc.
  destruct (aquire_lock t path false w) as [[[]|e|] u] eqn:E; rewrite Hc;
    [done| |done].
  destruct (is_EAGAIN e) eqn:He; [|done]. split.
  - intros Hh. by rewrite aquire_lock_held in E.
  - by eapply aquire_lock_EAGAIN.
Qed.

(** ** Saving and loading *)

Lemma encode_utf8_app a b :
  encode_utf8 (a ++ b)
  = x ← encode_utf8 a; y ← encode_utf8 b; Some (x ++ y).
Proof.
  induction a as [|c a IH]; simpl.
  - by destruct (encode_utf8 b).
  - rewrite IH. destruct (encode_cp c) as [bc|]; simpl; [|done].
    destruct (encode_utf8 a) as [ba|]; simpl; [|done].
    destruct (encode_utf8 b) as [bb|]; simpl; [|done].
    by rewrite app_assoc.
Qed.

Lemma save_mk_file_eq t path mk_content add_header :
  save_mk_file t path mk_content add_header
  = save_file t path
      (PyText ((if add_header then mk_header else []) ++ mk_content ++ [10%N]))
      mode_0o660.
Proof.
  unfold save_mk_file. cbv zeta.
  destruct add_header; [rewrite <- app_assoc|]; reflexivity.
Qed.

(** X12.  Bytes written by [save_bytes_to_file] with its default mode are
    what [load_bytes_from_file] returns, in a run without faults on a lock
    that is free or the thread's own; except that after saving the empty
    byte string the loader returns the caller's default, as for a missing
    file. *)
Theorem save_load_bytes_roundtrip (t : nat) (path : Path) (b dflt : list byte)
    (s : string) (w : World) :
  quiet w → holds t path w ∨ lock_free path (os w) →
  s ∈ suffixes w →
  names (os w) !! ((parent path +:+ "/" +:+ tmp_prefix path) +:+ s) = None →
  ∃ w1 w2,
    save_bytes_to_file t path (PyBytes b) mode_0o660 w = (Ok tt, w1) ∧
    load_bytes_from_file t path dflt false w1
    = (Ok (match b with [] => dflt | _ => b end), w2).
Proof.
  intros Hq Hl Hs Hn.
  destruct (save_data_quiet t path b mode_0o660 w s Hq Hl Hs Hn)
    as (w1 & E1 & Hq1 & Hv1).
  destruct (load_bytes_quiet t path false w1 Hq1) as (w2 & E2 & _); [done|].
  exists w1, w2. split; [done|].
  unfold load_bytes_from_file. by rewrite bind_eq, E2, Hv1.
Qed.

Lemma save_load_bytes_roundtrip_witness :
  ∃ w1 w2,
    save_bytes_to_file 0 p_demo (PyBytes [x61; x62]) mode_0o660 w_fresh
    = (Ok tt, w1) ∧
    load_bytes_from_file 0 p_demo [] false w1 = (Ok [x61; x62], w2).
Proof.
  apply (save_load_bytes_roundtrip 0 p_demo [x61; x62] [] "aaaa" w_fresh).
  - reflexivity.
  - right. intros i H. vm_compute in H. discriminate.
  - apply list_elem_of_here.
  - vm_compute. reflexivity.
Defined.



(** X14.  A text that UTF-8 cannot encode (a lone surrogate) is refused
    before anything happens: [save_text_to_file] and [save_file] raise
    [UnicodeEncodeError] itself, not the [MKGeneralException] of a failed
    write, and the state is untouched; [save_mk_file] and
    [save_object_to_file] pass the same error on. *)
Theorem save_unencodable_text `{Builtins} (t : nat) (path : Path) (txt : list N)
    (mode : N) (w : World) :
  encode_utf8 txt = None →
  save_text_to_file t path (PyText txt) mode w = (Raise UnicodeEncodeError, w) ∧
  save_file t path (PyText txt) mode w = (Raise UnicodeEncodeError, w) ∧
  (∀ hdr, save_mk_file t path txt hdr w = (Raise UnicodeEncodeError, w)) ∧
  (∀ v pretty, formatted_data v pretty = txt →
     save_object_to_file t path v pretty w = (Raise UnicodeEncodeError, w)).
Proof.
  intros He.
  assert (∀ pre, encode_utf8 (pre ++ txt ++ [10%N]) = None) as Hpre.
  { intros pre. rewrite !encode_utf8_app, He.
    by destruct (encode_utf8 pre). }
  split_and!.
  - unfold save_text_to_file. by rewrite bind_eq, He.
  - unfold save_file, ensure_binary. by rewrite bind_eq, He.
  - intros hdr. rewrite save_mk_file_eq. unfold save_file, ensure_binary.
    by rewrite bind_eq, Hpre.
  - intros v pretty <-. unfold save_object_to_file, save_file, ensure_binary.
    rewrite bind_eq. pose proof (Hpre []) as H0. simpl in H0. by rewrite H0.
Qed.

Lemma save_unencodable_text_witness :
  save_text_to_file 0 p_demo (PyText [55296%N]) mode_0o660 w_fresh
  = (Raise UnicodeEncodeError, w_fresh).
Proof.
  apply (@save_unencodable_text bool_builtins 0 p_demo [55296%N] mode_0o660
           w_fresh).
  vm_compute. reflexivity.
Defined.

(** X15.  A file whose bytes are not valid UTF-8, read without faults:
    [load_text_from_file] and [load_object_from_file] raise
    [UnicodeDecodeError] itself (the decoding is outside the [try] block),
    and with [lock=True] the thread still holds the lock afterwards. *)
Theorem load_invalid_utf8 `{Builtins} (t : nat) (path : Path) (data : list byte)
    (dt : list N) (dv : Value) (lock : bool) (w : World) :
  quiet w → (lock = true → holds t path w ∨ lock_free path (os w)) →
  visible (os w) (path_str path) = Some data → decode_utf8 data = None →
  (load_text_from_file t path dt lock w).1 = Raise UnicodeDecodeError ∧
  (load_object_from_file t path dv lock w).1 = Raise UnicodeDecodeError ∧
  (lock = true → holds t path (load_text_from_file t path dt lock w).2 ∧
                 holds t path (load_object_from_file t path dv lock w).2).
Proof.
  intros Hq Hl Hv Hd.
  destruct (load_bytes_quiet t path lock w Hq Hl) as (w' & E & _).
  rewrite Hv in E. change (default [] (Some data)) with data in E.
  unfold load_text_from_file, load_object_from_file.
  rewrite !bind_eq, E, !bind_eq, Hd. cbn [lift_option]. rewrite !raise_eq.
  split_and!; try done. intros ->.
  pose proof (load_bytes_locked_spec t path w) as HL. by rewrite E in HL.
Qed.

Lemma load_invalid_utf8_witness :
  (load_text_from_file 0 p_demo [] false w_bad_utf8).1 = Raise UnicodeDecodeError.
Proof.
  apply (@load_invalid_utf8 bool_builtins 0 p_demo [xff] [] true false
           w_bad_utf8).
  - reflexivity.
  - discriminate.
  - vm_compute. reflexivity.
  - vm_compute. reflexivity.
Defined.

(** X16.  [save_mk_file] never writes an empty file: after it,
    [load_text_from_file] returns the header (when asked for), the content
    and the final newline, and never the default. *)
Theorem save_mk_file_roundtrip (t : nat) (path : Path) (mk_content dflt : list N)
    (add_header : bool) (s : string) (w : World) :
  quiet w → holds t path w ∨ lock_free path (os w) →
  s ∈ suffixes w →
  names (os w) !! ((parent path +:+ "/" +:+ tmp_prefix path) +:+ s) = None →
  is_Some (encode_utf8 mk_content) →
  ∃ w1 w2,
    save_mk_file t path mk_content add_header w = (Ok tt, w1) ∧
    load_text_from_file t path dflt false w1
    = (Ok ((if add_header then mk_header else []) ++ mk_content ++ [10%N]), w2).
Proof.
  intros Hq Hl Hs Hn [bs Hbs].
  set (txt := (if add_header then mk_header else []) ++ mk_content ++ [10%N]).
  assert (is_Some (encode_utf8 txt)) as [bt Hbt].
  { unfold txt. rewrite !encode_utf8_app, Hbs.
    destruct add_header; vm_compute; eauto. }
  destruct (save_data_quiet t path bt mode_0o660 w s Hq Hl Hs Hn)
    as (w1 & E1 & Hq1 & Hv1).
  destruct (load_bytes_quiet t path false w1 Hq1) as (w2 & E2 & _); [done|].
  exists w1, w2. split.
  - rewrite save_mk_file_eq. fold txt. unfold save_file, ensure_binary.
    by rewrite bind_eq, Hbt.
  - unfold load_text_from_file. rewrite bind_eq, E2, Hv1.
    change (default [] (Some bt)) with bt.
    rewrite bind_eq, (decode_encode_utf8 _ _ Hbt). cbn [lift_option].
    rewrite ret_eq. fold txt.
    assert (txt ≠ []) as Hne.
    { unfold txt. destruct add_header; [done|]. by destruct mk_content. }
    by destruct txt.
Qed.

Lemma save_mk_file_roundtrip_witness :
  ∃ w1 w2,
    save_mk_file 0 p_demo (text "x = 1") true w_fresh = (Ok tt, w1) ∧
    load_text_from_file 0 p_demo [] false w1
    = (Ok (mk_header ++ text "x = 1" ++ [10%N]), w2).
Proof.
  apply (save_mk_file_roundtrip 0 p_demo (text "x = 1") [] true "aaaa" w_fresh).
  - reflexivity.
  - right. intros i H. vm_compute in H. discriminate.
  - apply list_elem_of_here.
  - vm_compute. reflexivity.
  - vm_compute. eauto.
Defined.

(** ** Configuration files *)

Lemma load_mk_file_locked_eq `{Builtins} t path d w :
  load_mk_file t path (Some d) true w
  = (aquire_lock t path true ;; load_mk_file t path (Some d) false) w.
Proof.
  unfold load_mk_file. rewrite !bind_eq.
  destruct (aquire_lock t path true w) as [[[]|e|] w1]; [|done..].
  by rewrite bind_eq, ret_eq.
Qed.

(** X17.  [load_mk_file] with [lock=True] never gives the lock back: once
    [aquire_lock] has returned, the thread holds the lock on every way out,
    with the dictionary or with the [MKGeneralException] of a failed read
    alike.  A failure of [aquire_lock] itself reaches the caller as the
    operating system's exception, not as [MKGeneralException]. *)
Theorem load_mk_file_keeps_lock `{Builtins} (t : nat) (path : Path)
    (d : gmap string Value) (w : World) :
  match load_mk_file t path (Some d) true w with
  | (Ok _, w') => holds t path w'
  | (Raise (MKGeneralException _ _ _), w') => holds t path w'
  | (Raise e, w') =>
      holds t path w' ∨ ∃ u, aquire_lock t path true w = (Raise e, u)
  | (Hang, _) => True
  end.
Proof.
  rewrite load_mk_file_locked_eq, bind_eq.
  pose proof (raises_aquire_lock t path true w) as Hraw.
  destruct (aquire_lock t path true w) as [[[]|e|] w1] eqn:E1; [| |done].
  - apply aquire_lock_ok_holds in E1.
    destruct (load_mk_file t path (Some d) false w1) as [r w'] eqn:E2.
    apply load_mk_file_unlocked_inv in E2 as (Hr & _).
    assert (holds t path w') as Hh.
    { unfold holds. by rewrite (locks_of_regs t w1 w' Hr). }
    destruct r as [?|e|]; [done| |done]. destruct e; auto.
  - specialize (Hraw e w1 eq_refl). destruct e; try done; eauto.
Qed.

(** X18.  [load_mk_file] at the edges.  Without a default dictionary it
    raises before any locking or reading, whatever [lock] is.  Without
    faults and unlocked: a missing file gives the default dictionary as it
    was passed; a file that is there gives the dictionary as the script
    left it, also when the script ended with the [ENOENT] error, which the
    handler for the missing file swallows as well; any other exception of
    the script is reported. *)
Theorem load_mk_file_edge_cases `{Builtins} (t : nat) (path : Path)
    (d : gmap string Value) (w : World) :
  (∀ lock, load_mk_file t path None lock w
           = (Raise (MKGeneralException NeedConfigDict EmptyString None), w)) ∧
  (quiet w →
   (load_mk_file t path (Some d) false w).1
   = match visible (os w) (path_str path) with
     | None => Ok d
     | Some data =>
         match exec data d with
         | (d', None) => Ok d'
         | (d', Some (OSError ENOENT)) => Ok d'
         | (_, Some e) => Raise (config_failure path e)
         end
     end).
Proof.
  split; [done|]. intros Hq.
  unfold load_mk_file. rewrite bind_eq, ret_eq, !try_except_eq, bind_eq.
  unfold os_read_bytes. rewrite (syscall_quiet _ _ w Hq).
  unfold sem_read_bytes.
  destruct (visible (os w) (path_str path)) as [data|]; simpl; [|done].
  destruct (exec data d) as [d' [e|]]; [|done].
  destruct e as [[]| | | | | | | | |]; done.
Qed.

(** X19.  [load_from_mk_file] on a missing file, without faults, returns
    the caller's default, whatever [lock] is; on a file that is there it
    returns what the script left under the key, and raises [KeyError] when
    the script removed the key. *)
Theorem load_from_mk_file_default `{Builtins} (t : nat) (path : Path)
    (key : string) (dflt : Value) (lock : bool) (w : World) :
  quiet w →
  (visible (os w) (path_str path) = None →
   (load_from_mk_file t path key dflt lock w).1 = Ok dflt) ∧
  (∀ data d', visible (os w) (path_str path) = Some data →
     exec data {[ key := dflt ]} = (d', None) →
     (load_from_mk_file t path key dflt lock w).1
     = match d' !! key with Some v => Ok v | None => Raise (KeyError key) end).
Proof.
  intros Hq. unfold load_from_mk_file, load_mk_file.
  rewrite !bind_eq, ret_eq, !try_except_eq, bind_eq.
  unfold os_read_bytes. rewrite (syscall_quiet _ _ w Hq).
  unfold sem_read_bytes. split.
  - intros ->. simpl. by rewrite lookup_singleton_eq.
  - intros data d' -> Hex. simpl. rewrite Hex. simpl. by destruct (d' !! key).
Qed.

Lemma load_from_mk_file_default_witness :
  (@load_from_mk_file bool_builtins 0 p_demo "k" true true w_fresh).1 = Ok true.
Proof.
  apply (@load_from_mk_file_default bool_builtins 0 p_demo "k" true true w_fresh).
  - reflexivity.
  - vm_compute. reflexivity.
Defined.

(** ** What a save leaves behind *)

Lemma write_bytes_files fd i data w j :
  files (os (write_bytes fd i data w)) !! j
  = if decide (j = i)
    then (λ f, mkFile (content f ++ data) (perm f)) <$> files (os w) !! i
    else files (os w) !! j.
Proof.
  revert w. induction data as [|b data IH]; intros w; simpl.
  - case_decide; [subst|done]. destruct (files (os w) !! i) as [[c m]|]; simpl;
      by rewrite ?app_nil_r.
  - rewrite IH. simpl. case_decide; [subst|].
    + rewrite lookup_alter_eq.
      destruct (files (os w) !! i) as [[c m]|]; simpl; [|done].
      by rewrite <- app_assoc.
    + by rewrite lookup_alter_ne.
Qed.

(** Without faults the inner block leaves the target name on the inode of
    the temporary file, which holds what it held followed by [data], with
    the mode asked for; no other inode changes. *)
Lemma save_inner_quiet_os path data mode fd file it w :
  quiet w →
  names (os w) !! file = Some it → fds (os w) !! fd = Some it →
  ∃ w',
    (try_finally (os_chmod file mode ;; os_write fd data) (os_close fd) ;;
     os_rename file (path_str path)) w = (Ok tt, w') ∧
    quiet w' ∧ regs w' = regs w ∧
    names (os w') = <[path_str path := it]> (delete file (names (os w))) ∧
    ∀ j, files (os w') !! j
         = if decide (j = it)
           then (λ f, mkFile (content f ++ data) mode) <$> files (os w) !! it
           else files (os w) !! j.
Proof.
  intros Hq Hn Hfd. rewrite bind_eq, try_finally_eq, bind_eq.
  unfold os_chmod.
  destruct (syscall_quiet_inv (CChmod file mode) (sem_chmod file mode) w Hq)
    as (w1 & -> & Hq1 & Hr1 & _ & Ho1 & _).
  unfold sem_chmod in *. rewrite Hn in *. simpl in Ho1. cbn [fst].
  assert (fds (os w1) !! fd = Some it) as Hfd1 by (by rewrite Ho1).
  assert (names (os w1) = names (os w)) as Hn1 by (by rewrite Ho1).
  unfold os_write. rewrite Hfd1, (quiet_next_event w1 Hq1).
  set (w2 := write_bytes fd it data (pop w1)).
  assert (names (os w2) = names (os w) ∧ fds (os w2) !! fd = Some it)
    as [Hn2 Hfd2].
  { unfold w2. destruct (write_bytes_fs fd it data (pop w1)) as (-> & -> & _).
    done. }
  assert (quiet w2) as Hq2.
  { unfold quiet, w2. rewrite write_bytes_faults. by apply quiet_pop. }
  assert (regs w2 = regs w1) as Hr2
    by (destruct (write_bytes_spec fd it data (pop w1)) as [? _]; done).
  assert (∀ j, files (os w2) !! j
               = if decide (j = it)
                 then (λ f, mkFile (content f ++ data) mode) <$> files (os w) !! it
                 else files (os w) !! j) as Hf2.
  { intros j. unfold w2. rewrite write_bytes_files.
    change (os (pop w1)) with (os w1). rewrite Ho1. simpl.
    case_decide; [subst|].
    - rewrite lookup_alter_eq. by destruct (files (os w) !! it).
    - by rewrite lookup_alter_ne. }
  clearbody w2. unfold os_close.
  destruct (syscall_quiet_inv (CClose fd) (sem_close fd) w2 Hq2)
    as (w3 & -> & Hq3 & Hr3 & _ & Ho3 & _).
  unfold sem_close in *. rewrite Hfd2 in *. cbn [fst snd] in *.
  unfold os_rename.
  destruct (syscall_quiet_inv (CRename file (path_str path))
              (sem_rename file (path_str path)) w3 Hq3)
    as (w4 & -> & Hq4 & Hr4 & _ & Ho4 & _).
  unfold sem_rename in *. rewrite Ho3 in *. cbn [names] in *.
  rewrite Hn2, Hn in *. cbn [fst snd] in *.
  exists w4. split_and!; try done.
  - congruence.
  - by rewrite Ho4.
  - intros j. rewrite Ho4. simpl. apply Hf2.
Qed.

(** X20.  What a save leaves behind, in a run without faults on a lock
    that is free or the thread's own.  The target is a file with exactly
    the new contents and the mode that was asked for.  When the thread
    held the lock already, which is how the module uses the function and
    makes [aquire_lock] return at once, every other name leads where it led
    before, to a file with the same contents and mode; in particular the
    temporary name is gone again. *)
Theorem save_data_result (t : nat) (path : Path) (data : list byte) (mode : N)
    (s : string) (w : World) :
  quiet w → holds t path w ∨ lock_free path (os w) →
  s ∈ suffixes w →
  names (os w) !! ((parent path +:+ "/" +:+ tmp_prefix path) +:+ s) = None →
  ∃ w', _save_data_to_file t path data mode w = (Ok tt, w') ∧
        file_at (os w') (path_str path) = Some (mkFile data mode) ∧
        (holds t path w →
         ∀ q, q ≠ path_str path →
              names (os w') !! q = names (os w) !! q ∧
              file_at (os w') q = file_at (os w) q).
Proof.
  intros Hq Hl Hs Hn.
  assert (∃ w1, aquire_lock t path true w = (Ok tt, w1) ∧ quiet w1 ∧
                holds t path w1 ∧ suffixes w1 = suffixes w ∧
                names (os w1) !!
                  ((parent path +:+ "/" +:+ tmp_prefix path) +:+ s) = None ∧
                (holds t path w → w1 = w))
    as (w1 & E1 & Hq1 & Hh1 & Hs1 & Hn1 & Hsame).
  { destruct (decide (is_Some (locks_of t w !! path_str path))) as [Hh|Hnh].
    { exists w. by rewrite aquire_lock_held. }
    destruct Hl as [Hh|Hf]; [done|].
    destruct (aquire_lock_quiet t path true w Hq Hnh Hf)
      as (w1 & i & E & Hq1 & Hs1 & _ & Hnm & _ & _ & _ & _ & Hlk & _).
    exists w1. split_and!; try done.
    - unfold holds. rewrite Hlk. by rewrite lookup_insert_eq.
    - rewrite Hnm. unfold sem_open.
      destruct (names (os w) !! path_str path); simpl; [done|].
      rewrite lookup_insert_ne; [done|]. intros Heq. symmetry in Heq.
      by apply tmp_name_ne in Heq. }
  rewrite <- Hs1 in Hs.
  destruct (NamedTemporaryFile_quiet (parent path) (tmp_prefix path) w1 s Hq1 Hs Hn1)
    as (file & w2 & E2 & Hq2 & Hr2 & Hnf & Hfd).
  pose proof (NamedTemporaryFile_inv _ _ _ _ _ E2)
    as (_ & _ & _ & _ & Hfree & [s0 Hfile] & Ho2).
  set (it := fresh_ino (os w1)) in *.
  destruct (save_inner_quiet_os path data mode _ _ _ w2 Hq2 Hnf Hfd)
    as (w3 & E3 & Hq3 & Hr3 & Hn3 & Hf3).
  assert (save_try t path data mode w = (Ok tt, w3)) as Etry.
  { unfold save_try. rewrite bind_eq, try_except_eq, bind_eq, E1, E2.
    by rewrite try_except_eq, E3. }
  assert (holds t path w3) as [fd Hh3].
  { unfold holds. rewrite (locks_of_regs t w1 w3); [done|]. congruence. }
  destruct (release_lock_quiet t path w3 fd Hq3 Hh3) as (w4 & E4 & Hq4 & _ & Ho4 & _).
  destruct (sem_close_fs fd (os w3)) as [Hn4 Hf4]. rewrite <- Ho4 in Hn4, Hf4.
  assert (names (os w3) = <[path_str path := it]> (names (os w1))) as Hn3'.
  { rewrite Hn3, Ho2. simpl. by rewrite delete_insert_id. }
  assert (∀ j, files (os w3) !! j
               = if decide (j = it) then Some (mkFile data mode)
                 else files (os w1) !! j) as Hf3'.
  { intros j. rewrite Hf3, Ho2. simpl. case_decide; [subst|].
    - by rewrite lookup_insert_eq.
    - by rewrite lookup_insert_ne. }
  exists w4. unfold _save_data_to_file. rewrite try_finally_eq, Etry, E4.
  split_and!; try done.
  - unfold file_at. rewrite Hn4, Hf4, Hn3', lookup_insert_eq. simpl.
    rewrite Hf3'. by rewrite decide_True.
  - intros Hheld q Hne. rewrite <- (Hsame Hheld).
    assert (names (os w4) !! q = names (os w1) !! q) as Hnq.
    { rewrite Hn4, Hn3'. by rewrite lookup_insert_ne. }
    split; [done|]. unfold file_at.
    rewrite Hnq, Hf4. destruct (names (os w1) !! q) as [j|] eqn:Ej; simpl; [|done].
    rewrite Hf3'. rewrite decide_False; [done|].
    intros ->. by apply (fresh_ino_names (os w1) q).
Qed.

Lemma save_data_result_witness :
  ∃ w', _save_data_to_file 0 p_demo [x61] mode_0o600 w_locked_fresh
        = (Ok tt, w') ∧
        file_at (os w') "/tmp/x.mk" = Some (mkFile [x61] mode_0o600) ∧
        names (os w') !! "/tmp/.x.mk.newaaaa" = None.
Proof.
  pose proof (save_data_result 0 p_demo [x61] mode_0o600 "aaaa" w_locked_fresh)
    as H.
  destruct H as (w' & E & Hf & Ho).
  - vm_compute. reflexivity.
  - left. vm_compute. eauto.
  - replace (suffixes w_locked_fresh) with ["aaaa"] by (vm_compute; reflexivity).
    apply list_elem_of_here.
  - vm_compute. reflexivity.
  - exists w'. split; [exact E|]. split; [exact Hf|].
    pose proof (Ho ltac:(vm_compute; eauto) "/tmp/.x.mk.newaaaa") as [Hn _].
    { vm_compute. discriminate. }
    rewrite Hn. vm_compute. reflexivity.
Defined.

Lemma gap_same_at p o1 o2 o3 : gap p o1 o2 → same_at p o2 o3 → gap p o1 o3.
Proof.
  unfold gap, same_at. intros [H|[H1 H2]] H3; [left|right]; [|split];
    congruence.
Qed.

(** A [try] block that raises has not renamed: the target shows what it
    showed, or the empty file that locking created. *)
Lemma save_try_raise_spec t path data mode w e u :
  save_try t path data mode w = (Raise e, u) →
  gap (path_str path) (os w) (os u).
Proof.
  set (p := path_str path). unfold save_try.
  rewrite bind_eq, try_except_eq, bind_eq.
  destruct (aquire_lock t path true w) as [r0 w0] eqn:E0.
  assert (HG0 : gap p (os w) (os w0)).
  { pose proof (Hist_aquire_lock_gap p t path true w) as [H _].
    by rewrite E0 in H. }
  destruct r0 as [[]|e0|]; [| |done].
  2:{ destruct (@save_except_none_spec (nat * string) path e0 w0) as [e' ->].
      by intros [= <- <-]. }
  destruct (NamedTemporaryFile (parent path) (tmp_prefix path) w0)
    as [r1 w1] eqn:E1.
  apply NamedTemporaryFile_inv in E1 as (Hr1 & _ & Hh1 & H1).
  destruct r1 as [[fd file]|e1|]; [| |done].
  2:{ destruct (@save_except_none_spec (nat * string) path e1 w1) as [e' ->].
      intros [= <- <-]. by rewrite H1. }
  destruct H1 as (-> & Hfree & [s ->] & Ho1).
  set (file := (parent path +:+ "/" +:+ tmp_prefix path) +:+ s) in *.
  assert (Hne : file ≠ p) by apply tmp_name_ne.
  destruct (sem_mkstemp_spec file (os w0) Hfree) as (Hn1 & Hfd1 & Hc1 & Hs1).
  rewrite <- Ho1 in Hn1, Hfd1, Hc1, Hs1.
  rewrite try_except_eq.
  match goal with
  | |- context [match ?m w1 with _ => _ end] =>
      destruct (m w1) as [r2 w2] eqn:E2
  end.
  apply (save_inner_spec path data mode _ file (fresh_ino (os w0))) in E2
    as [Hr2 H2].
  2:{ by rewrite Hn1, lookup_insert_eq. }
  2:{ rewrite Hn1, lookup_insert_ne by done. apply fresh_ino_names. }
  2:{ done. }
  2:{ done. }
  destruct r2 as [[]|e2|]; [done| |done].
  destruct H2 as [[HH2 _] Hn2]. intros E3.
  apply save_except_some_spec in E3 as (_ & [HH3 _] & _);
    [|done|by rewrite Hn2, Hn1, lookup_insert_eq].
  eapply gap_same_at; [|exact HH3].
  eapply gap_same_at; [|exact HH2].
  eapply gap_same_at; [exact HG0|]. by apply Hs1.
Qed.

(** X21.  A save that fails with [MKGeneralException] has not replaced the
    target, under any environment: the target shows what it showed before
    the call, or, when it was missing, the empty file that locking
    created. *)
Theorem save_data_failure_keeps_target (t : nat) (path : Path)
    (data : list byte) (mode : N) (w : World) :
  match _save_data_to_file t path data mode w with
  | (Raise (MKGeneralException _ _ _), w') =>
      visible (os w') (path_str path) = visible (os w) (path_str path) ∨
      (visible (os w) (path_str path) = None ∧
       visible (os w') (path_str path) = Some [])
  | _ => True
  end.
Proof.
  unfold _save_data_to_file. rewrite try_finally_eq.
  destruct (save_try t path data mode w) as [r0 u] eqn:E0.
  pose proof (Hist_release_lock fs_eq (λ _ _ H, H) t path u) as [HR _].
  pose proof (raises_release_lock t path u) as Hraw.
  destruct (release_lock t path u) as [r1 w'] eqn:E1. simpl in HR.
  destruct r0 as [[]|e0|]; [| |done].
  - destruct r1 as [[]|e1|]; try done.
    specialize (Hraw e1 w' eq_refl). by destruct e1.
  - destruct r1 as [[]|e1|]; try done.
    + destruct e0; try done.
      apply save_try_raise_spec in E0.
      eapply (gap_same_at _ _ _ _ E0). by apply fs_eq_same_at.
    + specialize (Hraw e1 w' eq_refl). by destruct e1.
Qed.

(** ** Storage formats *)

(** X22.  [StorageFormat.from_str] reads back what [str] prints, and any
    other spelling in ASCII letters of either case; every other ASCII name
    is a [KeyError].  [str.upper] is Python's: all that is used is what it
    does to ASCII. *)
Theorem from_str_roundtrip `{StrOps} (f : StorageFormat) (s : list N) :
  (∀ a, is_ascii a → upper a = ascii_upper <$> a) →
  from_str (format_str f) = inl f ∧
  (is_ascii s → ascii_upper <$> s = ascii_upper <$> format_str f →
   from_str s = inl f) ∧
  (is_ascii s → (∀ g, ascii_upper <$> s ≠ ascii_upper <$> format_str g) →
   from_str s = inr (ascii_upper <$> s)).
Proof.
  intros Hup.
  assert (∀ g, is_ascii (format_str g)) as Hfa.
  { intros []; unfold is_ascii; repeat constructor. }
  assert (∀ a, is_ascii a → ascii_upper <$> a = ascii_upper <$> format_str f →
               from_str a = inl f) as Hin.
  { intros a Ha Heq. unfold from_str. rewrite (Hup a Ha), Heq.
    by destruct f. }
  split_and!.
  - by apply Hin.
  - apply Hin.
  - intros Hs Hne. unfold from_str. rewrite (Hup s Hs).
    pose proof (Hne STANDARD) as H1. pose proof (Hne RAW) as H2.
    rewrite decide_False by exact H1. by rewrite decide_False by exact H2.
Qed.

Lemma from_str_roundtrip_witness :
  @from_str ascii_strops (format_str RAW) = inl RAW ∧
  @from_str ascii_strops (text "Raw") = inl RAW.
Proof.
  destruct (@from_str_roundtrip ascii_strops RAW (text "Raw")) as (H1 & H2 & _).
  { reflexivity. }
  split; [exact H1|]. apply H2.
  - unfold is_ascii. vm_compute. repeat constructor.
  - vm_compute. reflexivity.
Defined.

Lemma suffix_last {A} (l1 l2 k : list A) x y :
  (l1 ++ [x]) `suffix_of` k → (l2 ++ [y]) `suffix_of` k → x = y.
Proof.
  intros [k1 ->] [k2 Hk]. rewrite !app_assoc in Hk.
  by apply app_inj_tail in Hk as [_ ?].
Qed.

(** X23.  [is_hosts_config].  The hosts file of a format is recognised
    directly under [/wato/] and in every folder below it; a name outside
    [/wato/] never is; and no file name is the hosts file of both
    formats. *)
Theorem is_hosts_config_cases (f g : StorageFormat) (name dir : list N) :
  is_hosts_config f (text "/wato/" ++ hosts_file f) = true ∧
  is_hosts_config f (text "/wato/" ++ dir ++ text "/" ++ hosts_file f) = true ∧
  (¬ text "/wato/" `prefix_of` name → is_hosts_config f name = false) ∧
  (is_hosts_config f name = true → is_hosts_config g name = true → f = g).
Proof.
  split_and!.
  - by destruct f.
  - unfold is_hosts_config, startswith, endswith.
    rewrite bool_decide_eq_true_2 by apply prefix_app_r, reflexivity.
    rewrite bool_decide_eq_true_2; [done|].
    rewrite app_assoc. apply suffix_app_r. reflexivity.
  - intros Hn. unfold is_hosts_config, startswith.
    by rewrite bool_decide_eq_false_2.
  - unfold is_hosts_config, endswith.
    intros [_ Hf%bool_decide_eq_true]%andb_prop
           [_ Hg%bool_decide_eq_true]%andb_prop.
    destruct f, g; try done; exfalso.
    + by pose proof (suffix_last (text "/hosts.m") (text "/hosts.cf") name
                       107%N 103%N Hf Hg).
    + by pose proof (suffix_last (text "/hosts.cf") (text "/hosts.m") name
                       103%N 107%N Hf Hg).
Qed.
